(** * Quasi-IMPES scaling and one-component level transfer of BlackoilAmg

    A shallow embedding of [opm/autodiff/BlackoilAmg.hpp]:
    - [Opm::Detail::scaleMatrixQuasiImpes] and [scaleVectorQuasiImpes],
    - [OneComponentAggregationLevelTransferPolicy],
    - [OneStepAMGCoarseSolverPolicy::AMGInverseOperator],
    - [BlackoilAmg].

    Scalars ([field_type]) are kept abstract: the code is a template over the
    field type and only uses [0], [1], [+=] and [*=].  Every algebraic law
    that a statement relies on appears as an explicit hypothesis.  Index
    errors (undefined behaviour or a thrown [ISTLError] in the C++) are the
    [None] of the error monad. *)

From stdpp Require Import base option list sorting gmap.


(** ** Scalars *)

Class Scalar (F : Type) := {
  fzero : F;
  fone : F;
  fadd : F → F → F;
  fmul : F → F → F
}.

#[export] Instance Z_scalar : Scalar Z :=
  {| fzero := 0%Z; fone := 1%Z; fadd := Z.add; fmul := Z.mul |}.

(** ** Counted loops

    [for (std::size_t i = lo; i < lo + n; i++) body], the loop state threaded
    through the error monad. *)

Fixpoint for_loop {St : Type} (lo n : nat) (body : nat → St → option St) (s : St)
  : option St :=
  match n with
  | 0 => Some s
  | S n' => s' ← body lo s; for_loop (S lo) n' body s'
  end.

(** ** Dense blocks and block-sparse matrices *)

(** [Dune::FieldMatrix<F, ROWS, COLS>]: a dense array of rows. *)
Abbreviation Block F := (list (list F)).

(** [Dune::FieldVector<F, SIZE>]. *)
Abbreviation VBlock F := (list F).

(** [Dune::BCRSMatrix<B>]: [mat_N] rows, [mat_M] columns, and for every row
    the stored entries as (column index, block) in storage order. *)
Record BCRSMatrix (B : Type) := mkBCRS {
  mat_N : nat;
  mat_M : nat;
  mat_rows : list (list (nat * B))
}.
Arguments mkBCRS {B} _ _ _.
Arguments mat_N {B} _.
Arguments mat_M {B} _.
Arguments mat_rows {B} _.

(** The sparsity pattern: the column indices stored in every row. *)
Definition pattern {B : Type} (m : BCRSMatrix B) : list (list nat) :=
  (λ row : list (nat * B), fst <$> row) <$> mat_rows m.

(** Pattern and dimensions of a sparse matrix. *)
Definition shape {B : Type} (m : BCRSMatrix B) : list (list nat) * nat * nat :=
  (pattern m, mat_N m, mat_M m).

(** The [k]-th stored entry of row [r]. *)
Definition stored {B : Type} (m : BCRSMatrix B) (r k : nat) : option (nat * B) :=
  row ← mat_rows m !! r; row !! k.

(** Position of column [j] in a compressed row (the [lower_bound] search of
    the row's [operator[]]); [None] when the column is not stored, where the
    C++ throws. *)
Fixpoint find_col (j : nat) (cols : list nat) : option nat :=
  match cols with
  | [] => None
  | c :: cols' => if decide (c = j) then Some 0 else S <$> find_col j cols'
  end.

(** [m[i][j]] *)
Definition mat_get {B : Type} (m : BCRSMatrix B) (i j : nat) : option B :=
  row ← mat_rows m !! i;
  k ← find_col j (fst <$> row);
  e ← row !! k;
  Some e.2.

(** A container with its iterator offsets ([block - begin], [row.index()]). *)
Definition indexed {A : Type} (l : list A) : list (nat * A) :=
  zip (seq 0 (length l)) l.

(** The entries of one row with their row index. *)
Definition row_entries {B : Type} (row : nat * list (nat * B)) : list (nat * nat * B) :=
  (λ e, (row.1, e.1, e.2)) <$> row.2.

(** All stored entries as (row, col, block), in the order in which the nested
    row / entry iterators visit them. *)
Definition entries {B : Type} (m : BCRSMatrix B) : list (nat * nat * B) :=
  mjoin (row_entries <$> indexed (mat_rows m)).

(** Structural invariant of a built [BCRSMatrix]: [mat_N] rows, and in every
    row strictly increasing column indices below [mat_M]. *)
Definition bcrs_wf {B : Type} (m : BCRSMatrix B) : Prop :=
  length (mat_rows m) = mat_N m ∧
  Forall (λ row : list (nat * B),
            StronglySorted lt (fst <$> row) ∧ Forall (λ e, e.1 < mat_M m) row)
         (mat_rows m).

(** Replace every stored block by its image, keeping the pattern. *)
Definition map_entry {B C : Type} (g : B → C) (e : nat * B) : nat * C := (e.1, g e.2).

Definition map_blocks {B C : Type} (g : B → C) (m : BCRSMatrix B) : BCRSMatrix C :=
  mkBCRS (mat_N m) (mat_M m)
         ((λ row : list (nat * B), map_entry g <$> row) <$> mat_rows m).

(** Range-based [for] whose body updates a state and may fail. *)
Fixpoint for_each {A St : Type} (body : St → A → option St) (s : St) (l : list A)
  : option St :=
  match l with
  | [] => Some s
  | x :: l => s' ← body s x; for_each body s' l
  end.

(** Template constants [Block::rows], [Block::cols] ([Block::dimension] for
    vector blocks is [ROWS]). *)
Class BlockTraits := { ROWS : nat; COLS : nat }.

(** Memory locations of heap-allocated or caller-owned objects. *)
Abbreviation loc := positive.

(** The two operator kinds [createOperator] is overloaded for.  Both hold a
    reference to their matrix. *)
Inductive Operator (Comm : Type) :=
  | MatrixAdapter (matrix : loc)
  | OverlappingSchwarzOperator (matrix : loc) (comm : Comm).
Arguments MatrixAdapter {Comm} _.
Arguments OverlappingSchwarzOperator {Comm} _ _.

Definition getmat {Comm : Type} (op : Operator Comm) : loc :=
  match op with
  | MatrixAdapter matrix => matrix
  | OverlappingSchwarzOperator matrix _ => matrix
  end.

(** The first argument only selects the overload. *)
Definition createOperator {Comm : Type} (op : Operator Comm) (matrix : loc) (comm : Comm)
  : Operator Comm :=
  match op with
  | MatrixAdapter _ => MatrixAdapter matrix
  | OverlappingSchwarzOperator _ _ => OverlappingSchwarzOperator matrix comm
  end.

(** Modelled from the spec: the CPR parameter block [CPRParameter], whose
    declaration (opm/autodiff/CPRPreconditioner.hpp) is not among the
    sources.  The spec lists what it configures (AMG or plain smoother on the
    coarse level, pressure aggregation, coarse solver tolerance, maximum
    iterations, verbosity, BiCGSTAB or CG); the member names are those that
    BlackoilAmg.hpp reads.  [double] is the type of the tolerance. *)
Record CPRParameter (double : Type) := mkCPRParameter {
  cpr_use_amg_ : bool;
  cpr_use_bicgstab_ : bool;
  cpr_solver_verbose_ : bool;
  cpr_pressure_aggregation_ : bool;
  cpr_solver_tol_ : double;
  cpr_max_ell_iter_ : Z
}.
Arguments mkCPRParameter {double} _ _ _ _ _ _.
Arguments cpr_use_amg_ {double} _.
Arguments cpr_use_bicgstab_ {double} _.
Arguments cpr_solver_verbose_ {double} _.
Arguments cpr_pressure_aggregation_ {double} _.
Arguments cpr_solver_tol_ {double} _.
Arguments cpr_max_ell_iter_ {double} _.

(** What the code uses of the parallel information object. *)
Class Communication (F Comm : Type) := {
  copyOwnerToAll : Comm → list (VBlock F) → list (VBlock F);
  rank : Comm → nat
}.

(** [Dune::Amg::SequentialInformation], the no-op sequential information
    object: one process of rank 0, [copyOwnerToAll] does nothing. *)
Inductive SequentialInformation := SeqInfo.

#[export] Instance SequentialInformation_comm (F : Type)
  : Communication F SequentialInformation :=
  {| copyOwnerToAll := λ _ v, v; rank := λ _, 0 |}.

(** ** The model *)

Section BlackoilAmg.
Context {F : Type} `{!Scalar F} `{!BlockTraits}.

(** *** [Opm::Detail::scaleMatrixQuasiImpes], [scaleVectorQuasiImpes] *)

(** [block[i][j]] *)
Definition block_get (block : Block F) (i j : nat) : option F :=
  row ← block !! i; row !! j.

(** [block[pressureIndex][j] += block[i][j];] *)
Definition add_entry (pressureIndex i j : nat) (block : Block F)
  : option (Block F) :=
  rp ← block !! pressureIndex;
  x ← rp !! j;
  y ← block_get block i j;
  Some (<[pressureIndex := <[j := fadd x y]> rp]> block).

(** The loops over [i] and [j] for one block. *)
Definition scaleBlock (pressureIndex : nat) (block : Block F)
  : option (Block F) :=
  for_loop 0 ROWS
    (λ i block,
       if decide (i ≠ pressureIndex)
       then for_loop 0 COLS (λ j block, add_entry pressureIndex i j block) block
       else Some block)
    block.

(** [for (auto& row : *matrix) for (auto& block : row) ...] on the matrix
    held by the [unique_ptr]. *)
Definition scaleMatrix (pressureIndex : nat) (m : BCRSMatrix (Block F))
  : option (BCRSMatrix (Block F)) :=
  rows ← mapM (mapM (λ e : nat * Block F,
                       block ← scaleBlock pressureIndex e.2; Some (e.1, block)))
              (mat_rows m);
  Some (mkBCRS (mat_N m) (mat_M m) rows).

(** The whole function on a store of matrices: [new Matrix(op.getmat())]
    allocates a copy at a fresh location, the loops update that copy in
    place, and the result is the owning pointer with an operator that
    refers to the copy. *)
Definition scaleMatrixQuasiImpes {Comm : Type}
    (σ : gmap loc (BCRSMatrix (Block F)))
    (op : Operator Comm) (comm : Comm) (pressureIndex : nat)
  : option (gmap loc (BCRSMatrix (Block F)) * (loc * Operator Comm)) :=
  original ← σ !! getmat op;
  let matrix := fresh (dom σ) in
  let σ1 := <[matrix := original]> σ in
  copy ← σ1 !! matrix;
  scaled ← scaleMatrix pressureIndex copy;
  Some (<[matrix := scaled]> σ1, (matrix, createOperator op matrix comm)).

(** [block[pressureIndex] += block[i];] *)
Definition vadd_entry (pressureIndex i : nat) (block : VBlock F)
  : option (VBlock F) :=
  x ← block !! pressureIndex;
  y ← block !! i;
  Some (<[pressureIndex := fadd x y]> block).

Definition scaleVBlock (pressureIndex : nat) (block : VBlock F)
  : option (VBlock F) :=
  for_loop 0 ROWS
    (λ i block,
       if decide (i ≠ pressureIndex) then vadd_entry pressureIndex i block
       else Some block)
    block.

Definition scaleVectorQuasiImpes (pressureIndex : nat) (vector : list (VBlock F))
  : option (list (VBlock F)) :=
  mapM (scaleVBlock pressureIndex) vector.

(** *** Shapes *)

Definition block_wf (block : Block F) : Prop :=
  length block = ROWS ∧ Forall (λ row, length row = COLS) block.

Definition matrix_wf (m : BCRSMatrix (Block F)) : Prop :=
  Forall (Forall (λ e : nat * Block F, block_wf e.2)) (mat_rows m).

Definition vblock_wf (block : VBlock F) : Prop := length block = ROWS.

(** *** Closed forms used in the statements *)

Definition row_add (r1 r2 : list F) : list F := zip_with fadd r1 r2.

(** The pressure row has absorbed every other row, in index order. *)
Definition combine_rows (p : nat) (B : Block F) : Block F :=
  match B !! p with
  | Some rp => <[p := foldl row_add rp (delete p B)]> B
  | None => B
  end.

(** The pressure component has absorbed every other component. *)
Definition combine_components (p : nat) (b : VBlock F) : VBlock F :=
  match b !! p with
  | Some x => <[p := foldl fadd x (delete p b)]> b
  | None => b
  end.

(** *** [OneComponentAggregationLevelTransferPolicy] *)

Context {Comm Criterion : Type} `{!Communication F Comm}.
(** Template parameter [COMPONENT_INDEX] and [AggregatesMap::ISOLATED]. *)
Variables (COMPONENT_INDEX ISOLATED : nat).

(** What [Dune::Amg] hands back in the aggregation branch:
    [buildAggregates], [IndicesCoarsener::coarsen] and
    [AggregatesPublisher::publish] fill the aggregates map and the coarse
    communication and count the aggregates, and
    [Detail::buildCoarseSparseMatrix] (through
    [ConnectivityConstructor::examine]) fixes the coarse pattern. *)
Record Aggregation := mkAggregation {
  agg_map : list nat;
  agg_count : nat;
  agg_comm : Comm;
  agg_pattern : list (list nat)
}.

Variable dune_aggregation : BCRSMatrix (Block F) → Criterion → Comm → Aggregation.

(** [ScalarType<Operator>::value] built by [ConstructionTraits::construct]
    from the coarse matrix and the coarse communication. *)
Record CoarseOperator := mkCoarseOperator {
  cop_matrix : BCRSMatrix F;
  cop_comm : Comm
}.

(** Members of the policy and of its [LevelTransferPolicy] base.  [None]
    is an unset [shared_ptr] or an uninitialised [prolongDamp_].  The member
    [cpr_pressure_aggregation_] is [pressure_aggregation_] here, the name
    being taken by the parameter block. *)
Record Policy := mkPolicy {
  prolongDamp_ : option F;
  aggregatesMap_ : option (list nat);
  criterion_ : Criterion;
  communication_ : Comm;
  coarseLevelCommunication_ : option Comm;
  coarseLevelMatrix_ : option (BCRSMatrix F);
  pressure_aggregation_ : bool;
  lhs_ : list F;
  rhs_ : list F;
  operator_ : option CoarseOperator
}.

(** The constructor. *)
Definition Policy_new (crit : Criterion) (comm : Comm) (cpr_pressure_aggregation : bool)
  : Policy :=
  mkPolicy None None crit comm None None cpr_pressure_aggregation [] [] None.

(** [std::set<size_type>::insert] of the row-wise create iterator. *)
Fixpoint set_insert (j : nat) (pat : list nat) : list nat :=
  match pat with
  | [] => [j]
  | x :: pat' =>
      if decide (j < x) then j :: pat
      else if decide (j = x) then pat
      else x :: set_insert j pat'
  end.

(** One row of the first pass: [createIter.insert(col.index())] for every
    entry, then [++createIter]. *)
Definition create_row (row : list (nat * Block F)) : list nat :=
  foldl (λ pat e, set_insert e.1 pat) [] row.

(** A freshly built row: the pattern with values not yet assigned (they
    are written before they are read). *)
Definition blank_row (cols : list nat) : list (nat * F) := (λ c, (c, fzero)) <$> cols.

(** One row of the second pass: [col] and [coarseCol] advance together,
    [assert(col.index() == coarseCol.index())], then
    the entry under [coarseCol] is assigned
    [col[COMPONENT_INDEX][COMPONENT_INDEX]]. *)
Fixpoint fill_row (row : list (nat * Block F)) (coarseRow : list (nat * F))
  : option (list (nat * F)) :=
  match row, coarseRow with
  | [], _ => Some coarseRow
  | e :: row', ce :: coarseRow' =>
      if decide (e.1 = ce.1)
      then x ← block_get e.2 COMPONENT_INDEX COMPONENT_INDEX;
           rest ← fill_row row' coarseRow';
           Some ((ce.1, x) :: rest)
      else None
  | _ :: _, [] => None
  end.

(** The [else] branch of [createCoarseLevelSystem]. *)
Definition extractComponent (fineLevelMatrix : BCRSMatrix (Block F))
  : option (BCRSMatrix F) :=
  let created := (λ row, blank_row (create_row row)) <$> mat_rows fineLevelMatrix in
  rows ← mapM (λ rc : list (nat * Block F) * list (nat * F), fill_row rc.1 rc.2)
              (zip (mat_rows fineLevelMatrix) created);
  Some (mkBCRS (mat_N fineLevelMatrix) (mat_M fineLevelMatrix) rows).

(** [coarseLevelMatrix_[i][j] += v] through the shared pointer. *)
Definition entry_add (i j : nat) (v : F) (m : BCRSMatrix F) : option (BCRSMatrix F) :=
  row ← mat_rows m !! i;
  k ← find_col j (fst <$> row);
  e ← row !! k;
  Some (mkBCRS (mat_N m) (mat_M m)
               (<[i := <[k := (e.1, fadd e.2 v)]> row]> (mat_rows m))).

(** [calculateCoarseEntries(fineMatrix)] on the coarse matrix and the
    aggregates map of the policy. *)
Definition calculateCoarseEntries (aggregatesMap : list nat)
    (coarseLevelMatrix : BCRSMatrix F) (fineMatrix : BCRSMatrix (Block F))
  : option (BCRSMatrix F) :=
  for_each
    (λ coarse (row : nat * list (nat * Block F)),
       i ← aggregatesMap !! row.1;
       if decide (i ≠ ISOLATED)
       then for_each
              (λ coarse (entry : nat * Block F),
                 j ← aggregatesMap !! entry.1;
                 if decide (j ≠ ISOLATED)
                 then v ← block_get entry.2 COMPONENT_INDEX COMPONENT_INDEX;
                      entry_add i j v coarse
                 else Some coarse)
              coarse row.2
       else Some coarse)
    (map_blocks (λ _, fzero) coarseLevelMatrix)
    (indexed (mat_rows fineMatrix)).

(** [BlockVector::resize(n)]: the entries that remain are kept, an entry
    that is added has the default value of a scalar block. *)
Definition resize (n : nat) (v : list F) : list F :=
  take n v ++ replicate (n - length v) fzero.

(** [createCoarseLevelSystem(fineOperator)], given the matrix of the fine
    operator.  Building and freeing the global lookup tables of the
    communication objects has no effect on what is modelled here and is
    left out. *)
Definition createCoarseLevelSystem (pol : Policy) (fineLevelMatrix : BCRSMatrix (Block F))
  : option Policy :=
  '(aggregates, coarseComm, coarse) ←
    (if pressure_aggregation_ pol
     then
       let a := dune_aggregation fineLevelMatrix (criterion_ pol) (communication_ pol) in
       let blank := mkBCRS (agg_count a) (agg_count a) (blank_row <$> agg_pattern a) in
       coarse ← calculateCoarseEntries (agg_map a) blank fineLevelMatrix;
       Some (Some (agg_map a), agg_comm a, coarse)
     else
       coarse ← extractComponent fineLevelMatrix;
       Some (aggregatesMap_ pol, communication_ pol, coarse));
  Some (mkPolicy (Some fone) aggregates (criterion_ pol) (communication_ pol)
                 (Some coarseComm) (Some coarse) (pressure_aggregation_ pol)
                 (resize (mat_M coarse) (lhs_ pol)) (resize (mat_N coarse) (rhs_ pol))
                 (Some (mkCoarseOperator coarse coarseComm))).

(** The policy with new coarse buffers [lhs_] and [rhs_]. *)
Definition with_buffers (pol : Policy) (lhs rhs : list F) : Policy :=
  mkPolicy (prolongDamp_ pol) (aggregatesMap_ pol) (criterion_ pol)
           (communication_ pol) (coarseLevelCommunication_ pol)
           (coarseLevelMatrix_ pol) (pressure_aggregation_ pol) lhs rhs
           (operator_ pol).

(** [v = 0] *)
Definition zeroed (v : list F) : list F := (λ _, fzero) <$> v.

Definition moveToCoarseLevel (pol : Policy) (fine : list (VBlock F)) : option Policy :=
  rhs ←
    (if pressure_aggregation_ pol
     then
       aggregatesMap ← aggregatesMap_ pol;
       for_each
         (λ rhs (block : nat * VBlock F),
            vertex ← aggregatesMap !! block.1;
            if decide (vertex ≠ ISOLATED)
            then x ← block.2 !! COMPONENT_INDEX;
                 y ← rhs !! vertex;
                 Some (<[vertex := fadd y x]> rhs)
            else Some rhs)
         (zeroed (rhs_ pol)) (indexed fine)
     else
       for_each
         (λ rhs (block : nat * VBlock F),
            x ← block.2 !! COMPONENT_INDEX;
            _ ← rhs !! block.1;
            Some (<[block.1 := x]> rhs))
         (zeroed (rhs_ pol)) (indexed fine));
  Some (with_buffers pol (zeroed (lhs_ pol)) rhs).

Definition moveToFineLevel (pol : Policy) (fine : list (VBlock F))
  : option (Policy * list (VBlock F)) :=
  if pressure_aggregation_ pol
  then
    prolongDamp ← prolongDamp_ pol;
    let lhs := (λ x, fmul x prolongDamp) <$> lhs_ pol in
    aggregatesMap ← aggregatesMap_ pol;
    fine' ← mapM
      (λ block : nat * VBlock F,
         vertex ← aggregatesMap !! block.1;
         if decide (vertex ≠ ISOLATED)
         then x ← block.2 !! COMPONENT_INDEX;
              y ← lhs !! vertex;
              Some (<[COMPONENT_INDEX := fadd x y]> block.2)
         else Some block.2)
      (indexed fine);
    Some (with_buffers pol lhs (rhs_ pol),
          copyOwnerToAll (communication_ pol) fine')
  else
    fine' ← mapM
      (λ block : nat * VBlock F,
         _ ← block.2 !! COMPONENT_INDEX;
         y ← lhs_ pol !! block.1;
         Some (<[COMPONENT_INDEX := y]> block.2))
      (indexed fine);
    Some (pol, fine').

(** *** [OneStepAMGCoarseSolverPolicy] and its [AMGInverseOperator] *)

(** [double]; the AMG and smoother objects, the scalar product and the
    [InverseOperatorResult] of Dune. *)
Context {double SmootherArgs AMGType Smoother ScalarProduct Result : Type}.

(** The literal [1e-8]. *)
Variable double_1e_8 : double.

(** [new AMGType(op, crit, args, comm)] and
    [ConstructionTraits<Smoother>::construct(cargs)]. *)
Variable AMGType_new : CoarseOperator → Criterion → SmootherArgs → Comm → AMGType.
Variable Smoother_construct : BCRSMatrix F → Comm → SmootherArgs → Smoother.

(** [Dune::createScalarProduct] or [ScalarProductChooser::construct]. *)
Variable createScalarProduct : Comm → ScalarProduct.

(** What [prec] points to. *)
Inductive Preconditioner :=
  | PrecAMG (amg : AMGType)
  | PrecSmoother (smoother : Smoother).

(** Construct [Dune::BiCGSTABSolver<X>] or [Dune::CGSolver<X>] with
    (operator, scalar product, preconditioner, tolerance, maxit,
    verbosity) and call [solver.apply(x, b, res)]; the result is the
    updated [x], [b] and [res]. *)
Variable BiCGSTABSolver_apply :
  CoarseOperator → ScalarProduct → Preconditioner → double → Z → Z →
  list F → list F → Result → list F * list F * Result.
Variable CGSolver_apply :
  CoarseOperator → ScalarProduct → Preconditioner → double → Z → Z →
  list F → list F → Result → list F * list F * Result.

(** Members of [AMGInverseOperator] ([param_] is [inv_param_] here). *)
Record AMGInverseOperator := mkAMGInverseOperator {
  inv_param_ : CPRParameter double;
  amg_ : option AMGType;
  smoother_ : option Smoother;
  op_ : CoarseOperator;
  comm_ : Comm
}.

(** The constructor: AMG or a single smoother, as [cpr_use_amg_] says. *)
Definition AMGInverseOperator_new (param : CPRParameter double) (op : CoarseOperator)
    (crit : Criterion) (args : SmootherArgs) (comm : Comm) : AMGInverseOperator :=
  if cpr_use_amg_ param
  then mkAMGInverseOperator param (Some (AMGType_new op crit args comm)) None op comm
  else mkAMGInverseOperator param None
         (Some (Smoother_construct (cop_matrix op) comm args)) op comm.

(** [apply(x, b, reduction, res)].  The two preprocessor variants differ
    only in how the scalar product is obtained and in casting [prec] back
    to its dynamic type, so one body stands for both. *)
Definition AMGInverseOperator_apply (inv : AMGInverseOperator)
    (x b : list F) (reduction : double) (res : Result)
  : option (list F * list F * Result) :=
  let sp := createScalarProduct (comm_ inv) in
  prec ← match amg_ inv with
         | Some amg => Some (PrecAMG amg)
         | None => PrecSmoother <$> smoother_ inv
         end;
  let tolerance := cpr_solver_tol_ (inv_param_ inv) in
  let maxit := cpr_max_ell_iter_ (inv_param_ inv) in
  let verbosity :=
    if cpr_solver_verbose_ (inv_param_ inv) && bool_decide (rank (comm_ inv) = 0)
    then 1%Z else 0%Z in
  if cpr_use_bicgstab_ (inv_param_ inv)
  then Some (BiCGSTABSolver_apply (op_ inv) sp prec tolerance maxit verbosity x b res)
  else Some (CGSolver_apply (op_ inv) sp prec tolerance maxit verbosity x b res).

(** [apply(x, b, res)] *)
Definition AMGInverseOperator_apply_default (inv : AMGInverseOperator)
    (x b : list F) (res : Result) : option (list F * list F * Result) :=
  AMGInverseOperator_apply inv x b double_1e_8 res.

(** Members of [OneStepAMGCoarseSolverPolicy] ([param_] and [criterion_]
    carry a prefix here). *)
Record CoarseSolverPolicy := mkCoarseSolverPolicy {
  coarseOperator_ : option CoarseOperator;
  csp_param_ : CPRParameter double;
  smootherArgs_ : SmootherArgs;
  csp_criterion_ : Criterion
}.

Definition CoarseSolverPolicy_new (param : CPRParameter double) (args : SmootherArgs)
    (c : Criterion) : CoarseSolverPolicy :=
  mkCoarseSolverPolicy None param args c.

Definition createCoarseLevelSolver (csp : CoarseSolverPolicy) (transferPolicy : Policy)
  : option (CoarseSolverPolicy * AMGInverseOperator) :=
  coarseOperator ← operator_ transferPolicy;
  coarseComm ← coarseLevelCommunication_ transferPolicy;
  Some (mkCoarseSolverPolicy (Some coarseOperator) (csp_param_ csp)
                             (smootherArgs_ csp) (csp_criterion_ csp),
        AMGInverseOperator_new (csp_param_ csp) coarseOperator (csp_criterion_ csp)
                               (smootherArgs_ csp) coarseComm).

(** *** [BlackoilAmg] *)

(** The fine smoother and Dune's [TwoLevelMethod].  The constructor of the
    two-level method reads the scaled matrix from the store and takes the
    coarse solver policy by reference to non-const (it calls
    [createCoarseLevelSolver] on it), so it returns that policy as it
    leaves it together with the method; [apply] returns the updated method
    state and the updated correction [v]. *)
Context {FineSmoother TwoLevelMethod : Type}.
Variable constructSmoother :
  BCRSMatrix (Block F) → SmootherArgs → Comm → FineSmoother.
Variable TwoLevelMethod_new :
  gmap loc (BCRSMatrix (Block F)) → Operator Comm → FineSmoother → Policy →
  CoarseSolverPolicy → nat → nat → TwoLevelMethod * CoarseSolverPolicy.
Variable TwoLevelMethod_apply :
  TwoLevelMethod → list (VBlock F) → list (VBlock F) →
  TwoLevelMethod * list (VBlock F).

(** Members of [BlackoilAmg]; the [unique_ptr] of the scaled matrix is the
    location it owns ([smoother_] is [fine_smoother_] here). *)
Record BlackoilAmgT := mkBlackoilAmg {
  param_ : CPRParameter double;
  scaledMatrixOperator_ : loc * Operator Comm;
  fine_smoother_ : FineSmoother;
  levelTransferPolicy_ : Policy;
  coarseSolverPolicy_ : CoarseSolverPolicy;
  twoLevelMethod_ : TwoLevelMethod
}.

(** The constructor, on the store of matrices. *)
Definition BlackoilAmg_new (σ : gmap loc (BCRSMatrix (Block F)))
    (param : CPRParameter double) (fineOperator : Operator Comm)
    (criterion : Criterion) (smargs : SmootherArgs) (comm : Comm)
  : option (gmap loc (BCRSMatrix (Block F)) * BlackoilAmgT) :=
  '(σ', scaledMatrixOperator) ←
    scaleMatrixQuasiImpes σ fineOperator comm COMPONENT_INDEX;
  scaledMatrix ← σ' !! getmat scaledMatrixOperator.2;
  let smoother := constructSmoother scaledMatrix smargs comm in
  let levelTransferPolicy :=
    Policy_new criterion comm (cpr_pressure_aggregation_ param) in
  let coarseSolverPolicy := CoarseSolverPolicy_new param smargs criterion in
  let constructed :=
    TwoLevelMethod_new σ' scaledMatrixOperator.2 smoother
      levelTransferPolicy coarseSolverPolicy 0 1 in
  Some (σ',
        mkBlackoilAmg param scaledMatrixOperator smoother levelTransferPolicy
          constructed.2 constructed.1).

(** [apply(v, d)] on a store of vectors: [v] and [d] are references,
    [scaledD] is a local copy at a fresh location that is scaled in place
    and dies at the end of the call. *)
Definition BlackoilAmg_apply (μ : gmap loc (list (VBlock F)))
    (amg : BlackoilAmgT) (v d : loc)
  : option (gmap loc (list (VBlock F)) * BlackoilAmgT) :=
  defect ← μ !! d;
  let scaledD := fresh (dom μ) in
  let μ1 := <[scaledD := defect]> μ in
  copy ← μ1 !! scaledD;
  scaled ← scaleVectorQuasiImpes COMPONENT_INDEX copy;
  let μ2 := <[scaledD := scaled]> μ1 in
  correction ← μ2 !! v;
  rhs ← μ2 !! scaledD;
  let '(method, correction') :=
    TwoLevelMethod_apply (twoLevelMethod_ amg) correction rhs in
  Some (delete scaledD (<[v := correction']> μ2),
        mkBlackoilAmg (param_ amg) (scaledMatrixOperator_ amg) (fine_smoother_ amg)
          (levelTransferPolicy_ amg) (coarseSolverPolicy_ amg) method).

(** *** [Detail::buildOverlapVertices], [Detail::buildCoarseSparseMatrix]

    The helpers of the aggregation branch, modelled on their own (in
    [createCoarseLevelSystem] above their outcome is part of what
    [dune_aggregation] returns).  A graph is the list of its vertices in
    iteration order; the global lookup gives, for a vertex, the local index
    and the attribute of its index pair, or nothing ([pair == 0]). *)

Section coarse_pattern.

Context {Attribute : Type}.

(** [AggregatesMap::UNAGGREGATED]. *)
Variable UNAGGREGATED : nat.

(** [Dune::Amg::OverlapVertex]: [aggregate] points into the aggregates map
    and is the index it points at. *)
Record OverlapVertex := mkOverlapVertex {
  ov_aggregate : nat;
  ov_vertex : nat
}.

(** [*v.aggregate]; the pointer was formed from a valid index. *)
Definition aggregate_at (aggregates : list nat) (v : OverlapVertex) : nat :=
  default 0 (aggregates !! ov_aggregate v).

(** [std::sort(first, last, comp)]. *)
Variable std_sort :
  (OverlapVertex → OverlapVertex → bool) → list OverlapVertex → list OverlapVertex.

(** [pinfo.globalLookup()] and the two [ConnectivityConstructor::examine]
    of Dune, which return the coarse sparsity pattern. *)
Variable globalLookup : Comm → nat → option (nat * Attribute).
Variable examine_overlapping :
  list nat → list bool → Comm → list nat → (Attribute → bool) →
  list (option OverlapVertex) → list (list nat).
Variable examine_sequential :
  list nat → list bool → SequentialInformation → list nat → list (list nat).

(** The array (with [None] for an element never assigned) and
    [overlapCount]. *)
Definition buildOverlapVertices (graph : list nat) (pinfo : Comm)
    (aggregates : list nat) (overlap : Attribute → bool)
  : option (list (option OverlapVertex) * nat) :=
  let lookup := globalLookup pinfo in
  let overlapCount :=
    foldl (λ count vertex,
             match lookup vertex with
             | Some indexpair => if overlap indexpair.2 then S count else count
             | None => count
             end) 0 graph in
  let overlapVertices :=
    replicate (if decide (overlapCount = 0) then 1 else overlapCount)
              (None : option OverlapVertex) in
  if decide (overlapCount = 0) then Some (overlapVertices, overlapCount)
  else
    '(overlapVertices, overlapCount) ←
      for_each
        (λ (st : list (option OverlapVertex) * nat) vertex,
           match lookup vertex with
           | Some indexpair =>
               if overlap indexpair.2
               then _ ← aggregates !! indexpair.1;
                    _ ← st.1 !! st.2;
                    Some (<[st.2 := Some (mkOverlapVertex indexpair.1 indexpair.1)]> st.1, S st.2)
               else Some st
           | None => Some st
           end)
        (overlapVertices, 0) graph;
    initialised ← mapM id (take overlapCount overlapVertices);
    let sorted :=
      std_sort (λ v1 v2, bool_decide (aggregate_at aggregates v1
                                      < aggregate_at aggregates v2))
               initialised in
    Some ((Some <$> sorted) ++ drop overlapCount overlapVertices, overlapCount).

(** The loop that resets the visited flags, with its [assert] (as in a
    build without [NDEBUG]):
    [put(visitedMap, vertex, aggregates[vertex]==ISOLATED)]. *)
Definition resetVisited (graph : list nat) (aggregates : list nat)
    (visitedMap : list bool) : option (list bool) :=
  for_each
    (λ visited vertex,
       aggregate ← aggregates !! vertex;
       if decide (aggregate ≠ UNAGGREGATED)
       then _ ← visited !! vertex;
            Some (<[vertex := bool_decide (aggregate = ISOLATED)]> visited)
       else None)
    visitedMap graph.

(** [buildCoarseSparseMatrix] for a general parallel information: the
    pattern that [examine] builds from the reset flags and the range
    [overlapVertices, overlapVertices + count). *)
Definition buildCoarseSparseMatrix (fineGraph : list nat) (visitedMap : list bool)
    (pinfo : Comm) (aggregates : list nat) (overlap : Attribute → bool)
  : option (list (list nat)) :=
  '(overlapVertices, count) ←
    buildOverlapVertices fineGraph pinfo aggregates overlap;
  visited ← resetVisited fineGraph aggregates visitedMap;
  Some (examine_overlapping fineGraph visited pinfo aggregates overlap
          (take count overlapVertices)).

(** The overload for [Dune::Amg::SequentialInformation]. *)
Definition buildCoarseSparseMatrix_sequential (fineGraph : list nat)
    (visitedMap : list bool) (pinfo : SequentialInformation) (aggregates : list nat)
  : option (list (list nat)) :=
  visited ← resetVisited fineGraph aggregates visitedMap;
  Some (examine_sequential fineGraph visited pinfo aggregates).

(** The local indices of the graph vertices that are in the overlap, in
    iteration order. *)
Definition overlap_locals (graph : list nat) (lookup : nat → option (nat * Attribute))
    (overlap : Attribute → bool) : list nat :=
  omap (λ vertex,
          match lookup vertex with
          | Some indexpair => if overlap indexpair.2 then Some indexpair.1 else None
          | None => None
          end) graph.

End coarse_pattern.

(** *** Definitions used in the statements and proofs *)

(** The preconditioner with a new state of its two-level method. *)
Definition with_method (amg : BlackoilAmgT) (method : TwoLevelMethod) : BlackoilAmgT :=
  mkBlackoilAmg (param_ amg) (scaledMatrixOperator_ amg) (fine_smoother_ amg)
    (levelTransferPolicy_ amg) (coarseSolverPolicy_ amg) method.

(** Rows [lo .. lo + n) of a block other than row [p]. *)
Definition other_rows {A : Type} (p : nat) (l : list A) (lo n : nat) : list A :=
  omap (λ i, if decide (i ≠ p) then l !! i else None) (seq lo n).

(** The pressure-pressure component, for blocks that have one. *)
Definition component (p : nat) (B : Block F) : F :=
  default fzero (block_get B p p).

(** What one fine entry adds to the coarse entry [(I, J)]. *)
Definition contribution (aggregatesMap : list nat) (I J : nat)
    (e : nat * nat * Block F) : option F :=
  if decide (aggregatesMap !! e.1.1 = Some I ∧ aggregatesMap !! e.1.2 = Some J ∧
             I ≠ ISOLATED ∧ J ≠ ISOLATED)
  then block_get e.2 COMPONENT_INDEX COMPONENT_INDEX
  else None.

(** The fine pressure-pressure components that belong to the coarse entry
    [(I, J)], in the order in which the loops visit them. *)
Definition contributions (aggregatesMap : list nat) (fine : BCRSMatrix (Block F))
    (I J : nat) : list F :=
  omap (contribution aggregatesMap I J) (entries fine).

(** [m'] is [m] with [added I J] accumulated onto every stored entry. *)
Definition accumulated (added : nat → nat → list F) (m m' : BCRSMatrix F) : Prop :=
  pattern m' = pattern m ∧ mat_N m' = mat_N m ∧ mat_M m' = mat_M m ∧
  ∀ I J, mat_get m' I J = (λ x, foldl fadd x (added I J)) <$> mat_get m I J.

(** The body of the inner loop of [calculateCoarseEntries] for row
    aggregate [i]. *)
Definition coarse_entry_body (aggregatesMap : list nat) (i : nat)
    (coarse : BCRSMatrix F) (entry : nat * Block F) : option (BCRSMatrix F) :=
  j ← aggregatesMap !! entry.1;
  if decide (j ≠ ISOLATED)
  then v ← block_get entry.2 COMPONENT_INDEX COMPONENT_INDEX;
       entry_add i j v coarse
  else Some coarse.

(** The body of the outer loop. *)
Definition coarse_row_body (aggregatesMap : list nat)
    (coarse : BCRSMatrix F) (row : nat * list (nat * Block F))
  : option (BCRSMatrix F) :=
  i ← aggregatesMap !! row.1;
  if decide (i ≠ ISOLATED)
  then for_each (coarse_entry_body aggregatesMap i) coarse row.2
  else Some coarse.

(** Number of fine vertices below [n] whose aggregate is [I]. *)
Definition aggregate_size (aggregatesMap : list nat) (n I : nat) : nat :=
  length (filter (λ w, aggregatesMap !! w = Some I) (seq 0 n)).

(** Column [j] of a block, as a vector block. *)
Definition column (j : nat) (B : Block F) : option (VBlock F) := mapM (.!! j) B.

(** The pressure components that [moveToCoarseLevel] adds to the coarse
    entry [I] in aggregation mode, in visiting order. *)
Definition restricted (aggregatesMap : list nat) (I : nat) (fine : list (VBlock F))
  : list F :=
  omap (λ block : nat * VBlock F,
          if decide (aggregatesMap !! block.1 = Some I ∧ I ≠ ISOLATED)
          then block.2 !! COMPONENT_INDEX else None)
       (indexed fine).

(** ** Properties *)

Lemma omap_fmap_seq {A : Type} (f : nat → option A) (g : nat → nat) (l : list nat) :
  omap f (g <$> l) = omap (f ∘ g) l.
Proof. induction l as [|x l IH]; [done|]. csimpl. by rewrite IH. Qed.

Lemma omap_lookup_seq {A : Type} (l : list A) :
  omap (λ i, l !! i) (seq 0 (length l)) = l.
Proof.
  induction l as [|x l IH]; [done|].
  cbn [length seq omap list_omap]. simpl. f_equal.
  rewrite <- fmap_S_seq, omap_fmap_seq. exact IH.
Qed.

Lemma omap_ext_pointwise {A : Type} (f g : nat → option A) (l : list nat) :
  (∀ i, f i = g i) → omap f l = omap g l.
Proof.
  intros Hfg. induction l as [|x l IH]; [done|]. csimpl. by rewrite Hfg, IH.
Qed.

Lemma other_rows_delete {A : Type} (p : nat) (l : list A) :
  other_rows p l 0 (length l) = delete p l.
Proof.
  unfold other_rows. revert p.
  induction l as [|x l IH]; intros p; [by destruct p|].
  cbn [length seq]. rewrite <- fmap_S_seq. csimpl.
  rewrite omap_fmap_seq. destruct p as [|p]; simpl.
  - rewrite <- (omap_lookup_seq l) at 2. apply omap_ext_pointwise.
    intros i. unfold compose. destruct (decide (S i ≠ 0)); [done|lia].
  - f_equal. rewrite <- IH. apply omap_ext_pointwise.
    intros i. unfold compose.
    destruct (decide (S i ≠ S p)), (decide (i ≠ p)); (done || lia).
Qed.

Lemma add_entry_Some (p i j : nat) (block : Block F) (rp ri : list F) (x y : F) :
  block !! p = Some rp → rp !! j = Some x →
  block !! i = Some ri → ri !! j = Some y →
  add_entry p i j block = Some (<[p := <[j := fadd x y]> rp]> block).
Proof.
  intros Hp Hx Hi Hy. unfold add_entry, block_get. by simplify_option_eq.
Qed.

Lemma inner_loop_spec (p i : nat) (block : Block F) (ri : list F) :
  i ≠ p → block !! i = Some ri → length ri = COLS →
  ∀ n k rp, k + n = COLS → length rp = COLS → block !! p = Some rp →
    for_loop k n (λ j block, add_entry p i j block) block
    = Some (<[p := take k rp ++ row_add (drop k rp) (drop k ri)]> block).
Proof.
  intros Hip Hi Hri n. revert block Hi.
  induction n as [|n IH]; intros block Hi k rp Hk Hrp Hp; simpl.
  - rewrite !drop_ge by lia. unfold row_add. simpl.
    rewrite app_nil_r, take_ge by lia. by rewrite list_insert_id.
  - destruct (lookup_lt_is_Some_2 rp k) as [x Hx]; [lia|].
    destruct (lookup_lt_is_Some_2 ri k) as [y Hy]; [lia|].
    rewrite (add_entry_Some p i k block rp ri x y Hp Hx Hi Hy). simpl.
    assert (Hlt : p < length block) by (by eapply lookup_lt_Some).
    rewrite (IH (<[p := <[k := fadd x y]> rp]> block)) with (rp := <[k := fadd x y]> rp).
    + f_equal. rewrite list_insert_insert_eq. f_equal.
      rewrite (drop_S rp x k Hx), (drop_S ri y k Hy). unfold row_add. simpl.
      rewrite (take_S_r (<[k:=fadd x y]> rp) k (fadd x y)).
      2:{ apply list_lookup_insert_eq. lia. }
      rewrite take_insert_ge by lia. rewrite drop_insert_lt by lia.
      by rewrite <- app_assoc.
    + by rewrite list_lookup_insert_ne.
    + lia.
    + by rewrite length_insert.
    + by rewrite list_lookup_insert_eq.
Qed.

Lemma outer_loop_spec (p : nat) (B : Block F) :
  block_wf B → p < ROWS →
  ∀ n k acc, k + n = ROWS → length acc = COLS →
    for_loop k n
      (λ i block,
         if decide (i ≠ p)
         then for_loop 0 COLS (λ j block, add_entry p i j block) block
         else Some block)
      (<[p := acc]> B)
    = Some (<[p := foldl row_add acc (other_rows p B k n)]> B).
Proof.
  intros [HB Hrows] Hp n.
  induction n as [|n IH]; intros k acc Hk Hacc; [done|].
  cbn [for_loop]. unfold other_rows. cbn [seq omap list_omap].
  case_decide as Hkp.
  - destruct (lookup_lt_is_Some_2 B k) as [ri Hri]; [lia|].
    assert (length ri = COLS) as Hlen.
    { eapply (Forall_lookup_1 _ _ _ _ Hrows Hri). }
    assert (length (row_add acc ri) = COLS) as Hadd.
    { unfold row_add. rewrite length_zip_with. lia. }
    rewrite (inner_loop_spec p k (<[p:=acc]> B) ri Hkp) with (rp := acc);
      [|by rewrite list_lookup_insert_ne|done|lia|done
       |apply list_lookup_insert_eq; lia].
    simpl. rewrite Hri. simpl. rewrite list_insert_insert_eq.
    rewrite (IH (S k)); [done|lia|done].
  - simpl. rewrite (IH (S k)); [done|lia|done].
Qed.

Lemma scaleBlock_spec (p : nat) (B : Block F) (rp : list F) :
  block_wf B → p < ROWS → B !! p = Some rp →
  scaleBlock p B = Some (<[p := foldl row_add rp (delete p B)]> B).
Proof.
  intros HB Hp Hrp. unfold scaleBlock.
  rewrite <- (list_insert_id B p rp Hrp) at 1.
  rewrite (outer_loop_spec p B HB Hp ROWS 0 rp); [|lia|].
  - destruct HB as [HB _]. rewrite <- HB at 1. by rewrite other_rows_delete.
  - destruct HB as [_ HB]. by eapply (Forall_lookup_1 _ _ _ _ HB Hrp).
Qed.

Lemma scaleBlock_combine (p : nat) (B : Block F) :
  block_wf B → p < ROWS → scaleBlock p B = Some (combine_rows p B).
Proof.
  intros HB Hp. unfold combine_rows.
  destruct (lookup_lt_is_Some_2 B p) as [rp Hrp]; [destruct HB; lia|].
  rewrite Hrp. by apply scaleBlock_spec.
Qed.

Lemma stored_map_blocks {B C : Type} (g : B → C) (m : BCRSMatrix B) (r k : nat) :
  stored (map_blocks g m) r k = map_entry g <$> stored m r k.
Proof.
  unfold stored, map_blocks. simpl. rewrite list_lookup_fmap.
  destruct (mat_rows m !! r) as [row|]; [|done]. simpl.
  by rewrite list_lookup_fmap.
Qed.

Lemma pattern_map_blocks {B C : Type} (g : B → C) (m : BCRSMatrix B) :
  pattern (map_blocks g m) = pattern m.
Proof.
  unfold pattern, map_blocks. simpl.
  rewrite <- list_fmap_compose. apply list_fmap_ext. intros _ row _. simpl.
  rewrite <- list_fmap_compose. apply list_fmap_ext. by intros _ [c b] _.
Qed.

Lemma fst_map_entry {B C : Type} (g : B → C) (row : list (nat * B)) :
  fst <$> (map_entry g <$> row) = fst <$> row.
Proof. rewrite <- list_fmap_compose. apply list_fmap_ext. by intros _ [c b] _. Qed.

Lemma mat_get_map_blocks {B C : Type} (g : B → C) (m : BCRSMatrix B) (i j : nat) :
  mat_get (map_blocks g m) i j = g <$> mat_get m i j.
Proof.
  unfold mat_get, map_blocks. simpl. rewrite list_lookup_fmap.
  destruct (mat_rows m !! i) as [row|]; [|done]. simpl.
  rewrite fst_map_entry. destruct (find_col j (fst <$> row)) as [k|]; [|done]. simpl.
  rewrite list_lookup_fmap. by destruct (row !! k).
Qed.

Lemma mapM_Some_fmap {A B : Type} (f : A → option B) (g : A → B) (l : list A) :
  Forall (λ x, f x = Some (g x)) l → mapM f l = Some (g <$> l).
Proof.
  intros Hl. apply mapM_Some_2. induction Hl; constructor; auto.
Qed.

Lemma scaleMatrix_combine (p : nat) (m : BCRSMatrix (Block F)) :
  matrix_wf m → p < ROWS → scaleMatrix p m = Some (map_blocks (combine_rows p) m).
Proof.
  intros Hm Hp. unfold scaleMatrix, map_blocks.
  rewrite (mapM_Some_fmap _ (fmap (map_entry (combine_rows p)))); [done|].
  eapply Forall_impl; [exact Hm|]. intros row Hrow. simpl in Hrow.
  apply mapM_Some_fmap. eapply Forall_impl; [exact Hrow|].
  intros [c B] HB. simpl in *. by rewrite scaleBlock_combine.
Qed.

Lemma combine_rows_wf (p : nat) (B : Block F) :
  block_wf B → block_wf (combine_rows p B).
Proof.
  intros [HB Hrows]. unfold combine_rows.
  destruct (B !! p) as [rp|] eqn:Hrp; [|done]. split.
  - by rewrite length_insert.
  - apply Forall_insert; [done|].
    assert (length rp = COLS) as Hlen
      by (by eapply (Forall_lookup_1 _ _ _ _ Hrows Hrp)).
    assert (Forall (λ row, length row = COLS) (delete p B)) as Hdel
      by (by apply Forall_delete).
    clear Hrp. revert rp Hlen.
    induction Hdel as [|ri l Hri _ IH]; intros rp Hlen; [done|]. simpl.
    apply IH. unfold row_add. rewrite length_zip_with. lia.
Qed.

Lemma combine_rows_matrix_wf (p : nat) (m : BCRSMatrix (Block F)) :
  matrix_wf m → matrix_wf (map_blocks (combine_rows p) m).
Proof.
  unfold matrix_wf, map_blocks. simpl. intros Hm.
  apply Forall_fmap. eapply Forall_impl; [exact Hm|]. intros row Hrow.
  simpl in *. apply Forall_fmap. eapply Forall_impl; [exact Hrow|].
  intros [c B] HB. simpl in *. by apply combine_rows_wf.
Qed.

Lemma scaleVBlock_loop (p : nat) (b : VBlock F) :
  vblock_wf b → p < ROWS →
  ∀ n k acc, k + n = ROWS →
    for_loop k n
      (λ i block, if decide (i ≠ p) then vadd_entry p i block else Some block)
      (<[p := acc]> b)
    = Some (<[p := foldl fadd acc (other_rows p b k n)]> b).
Proof.
  intros Hb Hp n. unfold vblock_wf in Hb.
  induction n as [|n IH]; intros k acc Hk; [done|].
  cbn [for_loop]. unfold other_rows. cbn [seq omap list_omap].
  case_decide as Hkp.
  - destruct (lookup_lt_is_Some_2 b k) as [y Hy]; [lia|].
    unfold vadd_entry. rewrite list_lookup_insert_eq by lia. simpl.
    rewrite list_lookup_insert_ne by done. rewrite Hy. simpl.
    rewrite list_insert_insert_eq. by rewrite (IH (S k)) by lia.
  - simpl. by rewrite (IH (S k)) by lia.
Qed.

Lemma scaleVBlock_combine (p : nat) (b : VBlock F) :
  vblock_wf b → p < ROWS → scaleVBlock p b = Some (combine_components p b).
Proof.
  intros Hb Hp. unfold combine_components, scaleVBlock.
  destruct (lookup_lt_is_Some_2 b p) as [x Hx]; [unfold vblock_wf in Hb; lia|].
  rewrite Hx. rewrite <- (list_insert_id b p x Hx) at 1.
  rewrite (scaleVBlock_loop p b Hb Hp ROWS 0 x) by lia.
  unfold vblock_wf in Hb. rewrite <- Hb at 1. by rewrite other_rows_delete.
Qed.

Lemma scaleVector_combine (p : nat) (v : list (VBlock F)) :
  Forall vblock_wf v → p < ROWS →
  scaleVectorQuasiImpes p v = Some (combine_components p <$> v).
Proof.
  intros Hv Hp. apply mapM_Some_fmap. eapply Forall_impl; [exact Hv|].
  intros b Hb. by apply scaleVBlock_combine.
Qed.


(** *** The scaling on the store *)

Lemma getmat_createOperator (op : Operator Comm) (matrix : loc) (comm : Comm) :
  getmat (createOperator op matrix comm) = matrix.
Proof. by destruct op. Qed.

Lemma fresh_lookup_None {V : Type} (σ : gmap loc V) : σ !! fresh (dom σ) = None.
Proof. apply not_elem_of_dom, is_fresh. Qed.

Lemma scaleMatrixQuasiImpes_Some (σ : gmap loc (BCRSMatrix (Block F)))
    (op : Operator Comm) (comm : Comm) (p : nat) (m : BCRSMatrix (Block F)) :
  σ !! getmat op = Some m → matrix_wf m → p < ROWS →
  scaleMatrixQuasiImpes σ op comm p
  = Some (<[fresh (dom σ) := map_blocks (combine_rows p) m]> σ,
          (fresh (dom σ), createOperator op (fresh (dom σ)) comm)).
Proof.
  intros Hm Hwf Hp. unfold scaleMatrixQuasiImpes. rewrite Hm. simpl.
  rewrite lookup_insert_eq. simpl. rewrite (scaleMatrix_combine p m Hwf Hp).
  simpl. by rewrite insert_insert_eq.
Qed.

Lemma combine_rows_lookup (p : nat) (B : Block F) (rp : list F) :
  B !! p = Some rp →
  combine_rows p B !! p = Some (foldl row_add rp (delete p B)) ∧
  ∀ i, i ≠ p → combine_rows p B !! i = B !! i.
Proof.
  intros Hrp. unfold combine_rows. rewrite Hrp. split.
  - apply list_lookup_insert_eq. by eapply lookup_lt_Some.
  - intros i Hi. by apply list_lookup_insert_ne.
Qed.

Lemma delete_combine_rows (p : nat) (B : Block F) :
  delete p (combine_rows p B) = delete p B.
Proof.
  unfold combine_rows. destruct (B !! p) as [rp|]; [|done].
  rewrite !delete_take_drop. rewrite take_insert_ge by lia.
  by rewrite drop_insert_lt by lia.
Qed.

Lemma foldl_row_add_lookup (rows : list (list F)) (rp : list F) (j : nat) (x : F) :
  Forall (λ r, length r = length rp) rows → rp !! j = Some x →
  foldl row_add rp rows !! j = Some (foldl fadd x (omap (.!! j) rows)).
Proof.
  intros Hrows. revert rp x Hrows.
  induction rows as [|r rows IH]; intros rp x Hrows Hx; [done|].
  apply Forall_cons in Hrows as [Hr Hrows].
  destruct (lookup_lt_is_Some_2 r j) as [y Hy].
  { rewrite Hr. by eapply lookup_lt_Some. }
  csimpl. rewrite Hy. simpl. apply IH.
  - unfold row_add. rewrite length_zip_with, Hr, Nat.min_id.
    eapply Forall_impl; [exact Hrows|]. intros r' Hr'. simpl in *. lia.
  - unfold row_add. rewrite lookup_zip_with, Hx. simpl. by rewrite Hy.
Qed.

(** C1: in the matrix returned by [scaleMatrixQuasiImpes], every stored
    block has as pressure row the original pressure row plus every other
    original row of the block (added in index order, entry by entry), and
    every other row is the original one. *)
Theorem scaleMatrixQuasiImpes_rows (σ : gmap loc (BCRSMatrix (Block F)))
    (op : Operator Comm) (comm : Comm) (p : nat) (m : BCRSMatrix (Block F)) :
  σ !! getmat op = Some m → matrix_wf m → p < ROWS →
  ∃ σ' matrix op' m',
    scaleMatrixQuasiImpes σ op comm p = Some (σ', (matrix, op')) ∧
    getmat op' = matrix ∧ σ' !! matrix = Some m' ∧
    ∀ r k c B, stored m r k = Some (c, B) →
      ∃ B' rp,
        stored m' r k = Some (c, B') ∧
        B !! p = Some rp ∧
        B' !! p = Some (foldl row_add rp (delete p B)) ∧
        (∀ j x, rp !! j = Some x →
           block_get B' p j = Some (foldl fadd x (omap (.!! j) (delete p B)))) ∧
        ∀ i, i ≠ p → B' !! i = B !! i.
Proof.
  intros Hm Hwf Hp. eexists _, _, _, _. split; [|split; [|split]].
  - by apply scaleMatrixQuasiImpes_Some.
  - apply getmat_createOperator.
  - apply lookup_insert_eq.
  - intros r k c B Hst.
    assert (block_wf B) as HB.
    { unfold stored in Hst. destruct (mat_rows m !! r) as [row|] eqn:Hrow; [|done].
      simpl in Hst. pose proof (Forall_lookup_1 _ _ _ _ Hwf Hrow) as Hr.
      by pose proof (Forall_lookup_1 _ _ _ _ Hr Hst) as HB. }
    destruct (lookup_lt_is_Some_2 B p) as [rp Hrp]; [destruct HB; lia|].
    exists (combine_rows p B), rp. rewrite stored_map_blocks, Hst.
    destruct (combine_rows_lookup p B rp Hrp) as [H1 H2].
    repeat split; [done..| |done].
    intros j x Hx. unfold block_get. rewrite H1. simpl.
    apply foldl_row_add_lookup; [|done].
    destruct HB as [_ HB]. apply Forall_delete.
    pose proof (Forall_lookup_1 _ _ _ _ HB Hrp) as Hlen. simpl in Hlen.
    eapply Forall_impl; [exact HB|]. intros row Hr. simpl in *. congruence.
Qed.

(** C8: the matrix returned by [scaleMatrixQuasiImpes] has the sparsity
    pattern and the dimensions of the matrix of the operator it was given. *)
Theorem scaleMatrixQuasiImpes_pattern (σ : gmap loc (BCRSMatrix (Block F)))
    (op : Operator Comm) (comm : Comm) (p : nat) (m : BCRSMatrix (Block F)) :
  σ !! getmat op = Some m → matrix_wf m → p < ROWS →
  ∃ σ' matrix op' m',
    scaleMatrixQuasiImpes σ op comm p = Some (σ', (matrix, op')) ∧
    getmat op' = matrix ∧ σ' !! matrix = Some m' ∧
    pattern m' = pattern m ∧ mat_N m' = mat_N m ∧ mat_M m' = mat_M m ∧
    ∀ r c, is_Some (mat_get m' r c) ↔ is_Some (mat_get m r c).
Proof.
  intros Hm Hwf Hp. eexists _, _, _, _. split; [|split; [|split]].
  - by apply scaleMatrixQuasiImpes_Some.
  - apply getmat_createOperator.
  - apply lookup_insert_eq.
  - split; [apply pattern_map_blocks|]. do 2 (split; [done|]).
    intros r c. by rewrite mat_get_map_blocks, fmap_is_Some.
Qed.

(** C6 (amended): scaling the scaled matrix once more adds every
    non-pressure row to the pressure row a second time; after the second
    application the rows other than the pressure row are the original ones
    in every stored block, and the sparsity pattern and the dimensions are
    those of the original matrix. *)
Theorem scaleMatrixQuasiImpes_twice (σ : gmap loc (BCRSMatrix (Block F)))
    (op : Operator Comm) (comm : Comm) (p : nat) (m : BCRSMatrix (Block F)) :
  σ !! getmat op = Some m → matrix_wf m → p < ROWS →
  ∃ σ1 r1 σ2 r2 m2,
    scaleMatrixQuasiImpes σ op comm p = Some (σ1, r1) ∧
    scaleMatrixQuasiImpes σ1 r1.2 comm p = Some (σ2, r2) ∧
    σ2 !! r2.1 = Some m2 ∧
    pattern m2 = pattern m ∧ mat_N m2 = mat_N m ∧ mat_M m2 = mat_M m ∧
    ∀ r k c B, stored m r k = Some (c, B) →
      ∃ B2 rp,
        stored m2 r k = Some (c, B2) ∧
        B !! p = Some rp ∧
        B2 !! p = Some (foldl row_add (foldl row_add rp (delete p B)) (delete p B)) ∧
        ∀ i, i ≠ p → B2 !! i = B !! i.
Proof.
  intros Hm Hwf Hp.
  set (l1 := fresh (dom σ)).
  set (m1 := map_blocks (combine_rows p) m).
  set (σ1 := <[l1 := m1]> σ).
  assert (σ1 !! getmat (createOperator op l1 comm) = Some m1) as Hm1.
  { rewrite getmat_createOperator. apply lookup_insert_eq. }
  assert (matrix_wf m1) as Hwf1 by (by apply combine_rows_matrix_wf).
  eexists _, _, _, _, _. split; [|split; [|split; [|split; [|split; [|split]]]]].
  - by apply scaleMatrixQuasiImpes_Some.
  - by apply scaleMatrixQuasiImpes_Some.
  - apply lookup_insert_eq.
  - unfold m1. by rewrite !pattern_map_blocks.
  - done.
  - done.
  - intros r k c B Hst.
    assert (block_wf B) as HB.
    { unfold stored in Hst. destruct (mat_rows m !! r) as [row|] eqn:Hrow; [|done].
      simpl in Hst. pose proof (Forall_lookup_1 _ _ _ _ Hwf Hrow) as Hr.
      by pose proof (Forall_lookup_1 _ _ _ _ Hr Hst) as HB. }
    destruct (lookup_lt_is_Some_2 B p) as [rp Hrp]; [destruct HB; lia|].
    destruct (combine_rows_lookup p B rp Hrp) as [H1 H2].
    destruct (combine_rows_lookup p (combine_rows p B) _ H1) as [H3 H4].
    exists (combine_rows p (combine_rows p B)), rp.
    unfold m1. rewrite !stored_map_blocks, Hst. simpl.
    rewrite delete_combine_rows in H3. repeat split; [done..|].
    intros i Hi. by rewrite H4, H2.
Qed.

(** C10: the store after [scaleMatrixQuasiImpes], and after the
    [BlackoilAmg] constructor, holds at every location of the caller's
    store (the matrix of the fine operator among them) the matrix it held
    before; the scaled matrix lives at a location that was not allocated
    before. *)
Theorem BlackoilAmg_new_frame (σ : gmap loc (BCRSMatrix (Block F)))
    (param : CPRParameter double) (fineOperator : Operator Comm)
    (criterion : Criterion) (smargs : SmootherArgs) (comm : Comm)
    (m : BCRSMatrix (Block F)) :
  σ !! getmat fineOperator = Some m → matrix_wf m → COMPONENT_INDEX < ROWS →
  (∃ σ' r,
     scaleMatrixQuasiImpes σ fineOperator comm COMPONENT_INDEX = Some (σ', r) ∧
     σ !! r.1 = None ∧ getmat r.2 = r.1 ∧
     σ' !! getmat fineOperator = Some m ∧
     ∀ l m0, σ !! l = Some m0 → σ' !! l = Some m0) ∧
  (∃ σ' amg,
     BlackoilAmg_new σ param fineOperator criterion smargs comm = Some (σ', amg) ∧
     σ !! (scaledMatrixOperator_ amg).1 = None ∧
     getmat (scaledMatrixOperator_ amg).2 = (scaledMatrixOperator_ amg).1 ∧
     σ' !! getmat fineOperator = Some m ∧
     ∀ l m0, σ !! l = Some m0 → σ' !! l = Some m0).
Proof.
  intros Hm Hwf Hp.
  assert (∀ l m0, σ !! l = Some m0 →
            <[fresh (dom σ) := map_blocks (combine_rows COMPONENT_INDEX) m]> σ !! l
            = Some m0) as Hframe.
  { intros l m0 Hl. rewrite lookup_insert_ne; [done|].
    intros <-. by rewrite fresh_lookup_None in Hl. }
  split.
  - eexists _, _. split; [by apply scaleMatrixQuasiImpes_Some|]. simpl.
    split; [apply fresh_lookup_None|]. split; [apply getmat_createOperator|].
    split; [by apply Hframe|done].
  - unfold BlackoilAmg_new.
    rewrite (scaleMatrixQuasiImpes_Some σ fineOperator comm _ m Hm Hwf Hp). simpl.
    rewrite getmat_createOperator, lookup_insert_eq. simpl.
    eexists _, _. split; [done|]. simpl.
    split; [apply fresh_lookup_None|]. split; [apply getmat_createOperator|].
    split; [by apply Hframe|done].
Qed.

(** C7 (amended): when [v] and [d] are distinct vectors, [apply(v, d)]
    leaves [d] as it was, scales a copy of it (every block's pressure
    component becomes the original one plus every other component, the
    other components stay), and hands that scaled copy to the two-level
    method; the scaled copy depends on [d] only, and only [v] is written. *)
Theorem BlackoilAmg_apply_defect (μ : gmap loc (list (VBlock F)))
    (amg : BlackoilAmgT) (v d : loc) (defect correction : list (VBlock F)) :
  μ !! d = Some defect → μ !! v = Some correction → v ≠ d →
  Forall vblock_wf defect → COMPONENT_INDEX < ROWS →
  ∃ μ' amg' scaledD,
    BlackoilAmg_apply μ amg v d = Some (μ', amg') ∧
    μ' !! d = Some defect ∧
    (∀ l, l ≠ v → μ' !! l = μ !! l) ∧
    scaleVectorQuasiImpes COMPONENT_INDEX defect = Some scaledD ∧
    (twoLevelMethod_ amg', μ' !! v)
    = prod_map id Some (TwoLevelMethod_apply (twoLevelMethod_ amg) correction scaledD) ∧
    length scaledD = length defect ∧
    ∀ k b, defect !! k = Some b →
      ∃ x, b !! COMPONENT_INDEX = Some x ∧
           scaledD !! k
           = Some (<[COMPONENT_INDEX := foldl fadd x (delete COMPONENT_INDEX b)]> b).
Proof.
  intros Hd Hv Hvd Hwf Hp.
  pose proof (fresh_lookup_None μ) as Hfresh.
  set (l := fresh (dom μ)) in *.
  assert (l ≠ v) as Hlv by (intros ->; congruence).
  assert (l ≠ d) as Hld by (intros ->; congruence).
  pose proof (scaleVector_combine COMPONENT_INDEX defect Hwf Hp) as Hscale.
  unfold BlackoilAmg_apply. rewrite Hd. simpl. fold l.
  rewrite lookup_insert_eq. simpl. rewrite Hscale. simpl.
  rewrite insert_insert_eq. rewrite (lookup_insert_ne _ l v) by exact Hlv.
  rewrite Hv. simpl.
  rewrite lookup_insert_eq. simpl.
  destruct (TwoLevelMethod_apply _ _ _) as [method correction'] eqn:Happly.
  eexists _, _, _. split; [done|]. simpl.
  split; [|split; [|split; [done|split; [|split]]]].
  - rewrite lookup_delete_ne by done. rewrite lookup_insert_ne by done.
    by rewrite lookup_insert_ne.
  - intros l' Hl'. destruct (decide (l' = l)) as [->|Hne].
    + by rewrite lookup_delete_eq.
    + rewrite lookup_delete_ne by done. rewrite lookup_insert_ne by done.
      by rewrite lookup_insert_ne.
  - rewrite lookup_delete_ne by done. rewrite lookup_insert_eq.
    by rewrite Happly.
  - by rewrite length_fmap.
  - intros k b Hk.
    assert (vblock_wf b) as Hb by (by eapply (Forall_lookup_1 _ _ _ _ Hwf Hk)).
    destruct (lookup_lt_is_Some_2 b COMPONENT_INDEX) as [x Hx];
      [unfold vblock_wf in Hb; lia|].
    exists x. split; [done|]. rewrite list_lookup_fmap, Hk. simpl.
    unfold combine_components. by rewrite Hx.
Qed.

(** C9: the result of [AMGInverseOperator::apply] does not depend on
    [reduction]: any two values, the [1e-8] of the three-argument overload
    among them, give the same [x], [b] and result structure, and the
    tolerance handed to the Krylov solver is [cpr_solver_tol_]. *)
Theorem AMGInverseOperator_apply_ignores_reduction (inv : AMGInverseOperator)
    (x b : list F) (r1 r2 : double) (res : Result) :
  AMGInverseOperator_apply inv x b r1 res = AMGInverseOperator_apply inv x b r2 res ∧
  AMGInverseOperator_apply_default inv x b res = AMGInverseOperator_apply inv x b r1 res ∧
  (∀ prec,
     match amg_ inv with
     | Some amg => Some (PrecAMG amg)
     | None => PrecSmoother <$> smoother_ inv
     end = Some prec →
     AMGInverseOperator_apply inv x b r1 res
     = Some ((if cpr_use_bicgstab_ (inv_param_ inv)
              then BiCGSTABSolver_apply else CGSolver_apply)
               (op_ inv) (createScalarProduct (comm_ inv)) prec
               (cpr_solver_tol_ (inv_param_ inv))
               (cpr_max_ell_iter_ (inv_param_ inv))
               (if cpr_solver_verbose_ (inv_param_ inv)
                   && bool_decide (rank (comm_ inv) = 0)
                then 1%Z else 0%Z)
               x b res)) ∧
  (∀ param op crit args comm,
     is_Some (AMGInverseOperator_apply
                (AMGInverseOperator_new param op crit args comm) x b r1 res)).
Proof.
  split; [done|]. split; [done|]. split.
  - intros prec Hprec. unfold AMGInverseOperator_apply. rewrite Hprec. simpl.
    by destruct (cpr_use_bicgstab_ _).
  - intros param op crit args comm.
    unfold AMGInverseOperator_apply, AMGInverseOperator_new.
    destruct (cpr_use_amg_ param); simpl;
      by destruct (cpr_use_bicgstab_ param).
Qed.

(** *** Direct extraction *)

Lemma set_insert_last (j : nat) (pat : list nat) :
  Forall (λ x, x < j) pat → set_insert j pat = pat ++ [j].
Proof.
  induction 1 as [|x pat Hx _ IH]; [done|]. simpl.
  destruct (decide (j < x)); [lia|]. destruct (decide (j = x)); [lia|].
  by rewrite IH.
Qed.

Lemma StronglySorted_app_last (acc : list nat) (c : nat) (rest : list nat) :
  StronglySorted lt (acc ++ c :: rest) → Forall (λ x, x < c) acc.
Proof.
  induction acc as [|a acc IH]; intros Hs; [done|].
  simpl in Hs. apply StronglySorted_inv in Hs as [Hs Ha].
  constructor; [|by apply IH].
  rewrite Forall_app, Forall_cons in Ha. by destruct Ha as (_ & ? & _).
Qed.

Lemma create_row_sorted (row : list (nat * Block F)) :
  StronglySorted lt (fst <$> row) → create_row row = fst <$> row.
Proof.
  unfold create_row. intros Hs.
  enough (∀ acc, StronglySorted lt (acc ++ (fst <$> row)) →
            foldl (λ pat (e : nat * Block F), set_insert e.1 pat) acc row
            = acc ++ (fst <$> row)) as Hgen by (by apply (Hgen [])).
  clear Hs. induction row as [|e row IH]; intros acc Hs; simpl.
  - by rewrite app_nil_r.
  - simpl in Hs. rewrite set_insert_last by (by eapply StronglySorted_app_last).
    rewrite IH; rewrite <- app_assoc; done.
Qed.

Lemma block_get_component (p : nat) (B : Block F) :
  block_wf B → p < ROWS → p < COLS → block_get B p p = Some (component p B).
Proof.
  intros [HB Hrows] Hp Hq. unfold component, block_get.
  destruct (lookup_lt_is_Some_2 B p) as [rp Hrp]; [lia|]. rewrite Hrp. simpl.
  pose proof (Forall_lookup_1 _ _ _ _ Hrows Hrp) as Hlen. simpl in Hlen.
  destruct (lookup_lt_is_Some_2 rp p) as [x Hx]; [lia|]. by rewrite Hx.
Qed.

Lemma fill_row_blank (row : list (nat * Block F)) :
  Forall (λ e : nat * Block F, block_wf e.2) row →
  COMPONENT_INDEX < ROWS → COMPONENT_INDEX < COLS →
  fill_row row (blank_row (fst <$> row))
  = Some (map_entry (component COMPONENT_INDEX) <$> row).
Proof.
  intros Hrow Hp Hq. induction Hrow as [|e row He _ IH]; [done|].
  cbn [fmap list_fmap blank_row fill_row]. simpl.
  destruct (decide (e.1 = e.1)); [|done].
  rewrite (block_get_component _ _ He Hp Hq). simpl.
  unfold blank_row in IH. simpl in IH. rewrite IH. done.
Qed.

Lemma extractComponent_Some (fine : BCRSMatrix (Block F)) :
  bcrs_wf fine → matrix_wf fine →
  COMPONENT_INDEX < ROWS → COMPONENT_INDEX < COLS →
  extractComponent fine = Some (map_blocks (component COMPONENT_INDEX) fine).
Proof.
  intros [_ Hsorted] Hwf Hp Hq. unfold extractComponent, map_blocks.
  enough (mapM (λ rc : list (nat * Block F) * list (nat * F), fill_row rc.1 rc.2)
            (zip (mat_rows fine)
                 ((λ row, blank_row (create_row row)) <$> mat_rows fine))
          = Some ((λ row : list (nat * Block F),
                     map_entry (component COMPONENT_INDEX) <$> row)
                    <$> mat_rows fine)) as -> by done.
  unfold matrix_wf in Hwf.
  induction Hwf as [|row rows Hrow _ IH]; [done|].
  apply Forall_cons in Hsorted as [[Hs _] Hsorted].
  cbn [fmap list_fmap zip zip_with mapM]. simpl.
  rewrite (create_row_sorted row Hs), (fill_row_blank row Hrow Hp Hq). simpl.
  specialize (IH Hsorted). simpl in IH. by rewrite IH.
Qed.

Lemma length_resize (n : nat) (v : list F) : length (resize n v) = n.
Proof.
  unfold resize. rewrite length_app, length_take, length_replicate. lia.
Qed.

Lemma resize_lookup_old (n i : nat) (v : list F) :
  i < n → i < length v → resize n v !! i = v !! i.
Proof.
  intros Hn Hv. unfold resize.
  rewrite lookup_app_l by (rewrite length_take; lia).
  by apply lookup_take_lt.
Qed.

(** C2: in direct-extraction mode [createCoarseLevelSystem] builds a coarse
    matrix with the sparsity pattern and the dimensions of the fine
    matrix, whose entry at every stored position is the
    [COMPONENT_INDEX][COMPONENT_INDEX] component of the fine block there. *)
Theorem createCoarseLevelSystem_direct (pol : Policy)
    (fine : BCRSMatrix (Block F)) :
  pressure_aggregation_ pol = false →
  bcrs_wf fine → matrix_wf fine →
  COMPONENT_INDEX < ROWS → COMPONENT_INDEX < COLS →
  ∃ pol' coarse,
    createCoarseLevelSystem pol fine = Some pol' ∧
    coarseLevelMatrix_ pol' = Some coarse ∧
    pattern coarse = pattern fine ∧
    mat_N coarse = mat_N fine ∧ mat_M coarse = mat_M fine ∧
    (∀ r k c B, stored fine r k = Some (c, B) →
       ∃ x, block_get B COMPONENT_INDEX COMPONENT_INDEX = Some x ∧
            stored coarse r k = Some (c, x)) ∧
    (∀ r k c x, stored coarse r k = Some (c, x) →
       ∃ B, stored fine r k = Some (c, B) ∧
            block_get B COMPONENT_INDEX COMPONENT_INDEX = Some x) ∧
    (∀ r c, mat_get coarse r c
            = mat_get fine r c ≫= λ B, block_get B COMPONENT_INDEX COMPONENT_INDEX) ∧
    length (rhs_ pol') = mat_N fine ∧ length (lhs_ pol') = mat_M fine.
Proof.
  intros Hmode Hb Hwf Hp Hq. unfold createCoarseLevelSystem.
  rewrite Hmode, (extractComponent_Some fine Hb Hwf Hp Hq). simpl.
  eexists _, _. split; [done|]. simpl. split; [done|].
  split; [apply pattern_map_blocks|]. do 2 (split; [done|]).
  assert (∀ r k c B, stored fine r k = Some (c, B) → block_wf B) as Hblock.
  { intros r k c B Hst. unfold stored in Hst.
    destruct (mat_rows fine !! r) as [row|] eqn:Hrow; [|done]. simpl in Hst.
    pose proof (Forall_lookup_1 _ _ _ _ Hwf Hrow) as Hr.
    by pose proof (Forall_lookup_1 _ _ _ _ Hr Hst). }
  split; [|split; [|split]].
  - intros r k c B Hst. exists (component COMPONENT_INDEX B).
    rewrite (block_get_component _ _ (Hblock _ _ _ _ Hst) Hp Hq).
    by rewrite stored_map_blocks, Hst.
  - intros r k c x. rewrite stored_map_blocks.
    destruct (stored fine r k) as [[c' B]|] eqn:Hst; [|done].
    intros [= <- <-]. exists B.
    by rewrite (block_get_component _ _ (Hblock _ _ _ _ Hst) Hp Hq).
  - intros r c. rewrite mat_get_map_blocks.
    destruct (mat_get fine r c) as [B|] eqn:Hget; [|done]. simpl.
    unfold mat_get in Hget.
    destruct (mat_rows fine !! r) as [row|] eqn:Hrow; [|done]. simpl in Hget.
    destruct (find_col c (fst <$> row)) as [k|]; [|done]. simpl in Hget.
    destruct (row !! k) as [[c' B']|] eqn:Hk; [|done]. simpl in Hget.
    injection Hget as ->.
    symmetry. apply block_get_component; [|done..].
    apply (Hblock r k c' B). unfold stored. by rewrite Hrow.
  - by rewrite !length_resize.
Qed.

(** *** Accumulation into the coarse matrix *)

Lemma accumulated_refl (m : BCRSMatrix F) : accumulated (λ _ _, []) m m.
Proof.
  repeat split. intros I J. by destruct (mat_get m I J).
Qed.

Lemma accumulated_trans (a1 a2 : nat → nat → list F) (m m1 m2 : BCRSMatrix F) :
  accumulated a1 m m1 → accumulated a2 m1 m2 →
  accumulated (λ I J, a1 I J ++ a2 I J) m m2.
Proof.
  intros (Hp1 & HN1 & HM1 & H1) (Hp2 & HN2 & HM2 & H2).
  split; [congruence|]. split; [congruence|]. split; [congruence|].
  intros I J. rewrite H2, H1. destruct (mat_get m I J); [|done]. simpl.
  by rewrite foldl_app.
Qed.

Lemma accumulated_ext (a1 a2 : nat → nat → list F) (m m' : BCRSMatrix F) :
  (∀ I J, a1 I J = a2 I J) → accumulated a1 m m' → accumulated a2 m m'.
Proof.
  intros Heq (Hp & HN & HM & Hget). repeat (split; [done|]).
  intros I J. by rewrite Hget, Heq.
Qed.

Lemma find_col_Some (j : nat) (cols : list nat) (k : nat) :
  find_col j cols = Some k → cols !! k = Some j.
Proof.
  revert k. induction cols as [|c cols IH]; intros k; [done|]. simpl.
  destruct (decide (c = j)) as [->|]; [by intros [= <-]|].
  destruct (find_col j cols) as [k'|]; [|done]. intros [= <-]. by apply IH.
Qed.

Lemma entry_add_spec (i j : nat) (v : F) (m : BCRSMatrix F) :
  is_Some (mat_get m i j) →
  ∃ m', entry_add i j v m = Some m' ∧
        accumulated (λ I J, if decide (I = i ∧ J = j) then [v] else []) m m'.
Proof.
  intros [x Hx]. unfold mat_get in Hx. unfold entry_add.
  destruct (mat_rows m !! i) as [row|] eqn:Hrow; [|done]. simpl in *.
  destruct (find_col j (fst <$> row)) as [k|] eqn:Hk; [|done]. simpl in *.
  destruct (row !! k) as [e|] eqn:He; [|done]. simpl in *.
  injection Hx as <-. eexists. split; [done|].
  assert (i < length (mat_rows m)) as Hi by (by eapply lookup_lt_Some).
  assert (k < length row) as Hklt by (by eapply lookup_lt_Some).
  assert (fst <$> <[k := (e.1, fadd e.2 v)]> row = fst <$> row) as Hfst.
  { rewrite list_fmap_insert. simpl. apply list_insert_id.
    by rewrite list_lookup_fmap, He. }
  split; [|split; [done|split; [done|]]].
  - unfold pattern. simpl. rewrite list_fmap_insert. apply list_insert_id.
    by rewrite list_lookup_fmap, Hrow; simpl; rewrite Hfst.
  - intros I J. unfold mat_get. simpl.
    destruct (decide (I = i)) as [->|HI].
    + rewrite list_lookup_insert_eq by done. rewrite Hrow. simpl. rewrite Hfst.
      destruct (decide (J = j)) as [->|HJ].
      * rewrite Hk. simpl. rewrite list_lookup_insert_eq by done. rewrite He.
        simpl. by rewrite decide_True.
      * rewrite decide_False by (intros [_ ?]; done).
        destruct (find_col J (fst <$> row)) as [k'|] eqn:Hk'; [|done]. simpl.
        assert (k' ≠ k) as Hne.
        { intros ->. apply find_col_Some in Hk, Hk'. congruence. }
        rewrite list_lookup_insert_ne by done. by destruct (row !! k').
    + rewrite list_lookup_insert_ne by done.
      rewrite decide_False by (intros [? _]; done).
      destruct (mat_rows m !! I) as [row'|]; [|done]. simpl.
      destruct (find_col J (fst <$> row')) as [k'|]; [|done]. simpl.
      by destruct (row' !! k').
Qed.

Lemma coarse_entry_step (agg : list nat) (r i c : nat) (B : Block F)
    (m : BCRSMatrix F) :
  agg !! r = Some i → i ≠ ISOLATED → block_wf B → c < length agg →
  COMPONENT_INDEX < ROWS → COMPONENT_INDEX < COLS →
  (∀ j, agg !! c = Some j → j ≠ ISOLATED → is_Some (mat_get m i j)) →
  ∃ m1, coarse_entry_body agg i m (c, B) = Some m1 ∧
        accumulated (λ I J, option_list (contribution agg I J (r, c, B))) m m1.
Proof.
  intros Hr Hi HB Hc Hp Hq Hpat. unfold coarse_entry_body. simpl.
  destruct (lookup_lt_is_Some_2 agg c Hc) as [j Hj]. rewrite Hj. simpl.
  destruct (decide (j ≠ ISOLATED)) as [Hiso|Hiso].
  - rewrite (block_get_component _ _ HB Hp Hq). simpl.
    destruct (entry_add_spec i j (component COMPONENT_INDEX B) m (Hpat j Hj Hiso))
      as (m1 & Hadd & Hacc).
    exists m1. split; [done|]. eapply accumulated_ext; [|exact Hacc].
    intros I J. unfold contribution. simpl. rewrite Hr, Hj.
    destruct (decide (I = i ∧ J = j)) as [[-> ->]|Hne].
    + rewrite decide_True by done.
      by rewrite (block_get_component _ _ HB Hp Hq).
    + rewrite decide_False; [done|]. intros ([= ->] & [= ->] & _). by apply Hne.
  - exists m. split; [done|]. eapply accumulated_ext; [|apply accumulated_refl].
    intros I J. unfold contribution. simpl. rewrite Hj.
    rewrite decide_False; [done|]. intros (_ & [= ->] & _ & HJ). by apply Hiso.
Qed.

Lemma is_Some_accumulated (a : nat → nat → list F) (m m' : BCRSMatrix F) (i j : nat) :
  accumulated a m m' → is_Some (mat_get m i j) → is_Some (mat_get m' i j).
Proof. intros (_ & _ & _ & Hget) Hs. rewrite Hget. by apply fmap_is_Some. Qed.

Lemma omap_cons_option_list {A B : Type} (f : A → option B) (x : A) (l : list A) :
  omap f (x :: l) = option_list (f x) ++ omap f l.
Proof. csimpl. by destruct (f x). Qed.

Lemma coarse_row_loop (agg : list nat) (r i : nat) (es : list (nat * Block F)) :
  agg !! r = Some i → i ≠ ISOLATED →
  COMPONENT_INDEX < ROWS → COMPONENT_INDEX < COLS →
  Forall (λ e : nat * Block F, block_wf e.2 ∧ e.1 < length agg) es →
  ∀ m,
    (∀ e j, e ∈ es → agg !! e.1 = Some j → j ≠ ISOLATED → is_Some (mat_get m i j)) →
    ∃ m', for_each (coarse_entry_body agg i) m es = Some m' ∧
          accumulated (λ I J, omap (contribution agg I J) (row_entries (r, es))) m m'.
Proof.
  intros Hr Hi Hp Hq Hes.
  induction Hes as [|[c B] es [HB Hc] _ IH]; intros m Hpat.
  - exists m. split; [done|]. apply accumulated_refl.
  - destruct (coarse_entry_step agg r i c B m Hr Hi HB Hc Hp Hq) as (m1 & H1 & Hacc1).
    { intros j Hj Hiso. apply (Hpat (c, B) j); [left|done..]. }
    destruct (IH m1) as (m' & H2 & Hacc2).
    { intros e j He Hj Hiso. eapply is_Some_accumulated; [exact Hacc1|].
      apply (Hpat e j); [by right|done..]. }
    exists m'. split.
    + cbn [for_each]. rewrite H1. simpl. exact H2.
    + eapply accumulated_ext; [|exact (accumulated_trans _ _ _ _ _ Hacc1 Hacc2)].
      intros I J.
      change (row_entries (r, (c, B) :: es)) with ((r, c, B) :: row_entries (r, es)).
      by rewrite omap_cons_option_list.
Qed.

Lemma contribution_isolated_row (agg : list nat) (I J r : nat) (es : list (nat * Block F)) :
  agg !! r = Some ISOLATED →
  omap (contribution agg I J) (row_entries (r, es)) = [].
Proof.
  intros Hr. unfold row_entries. simpl.
  induction es as [|e es IH]; [done|]. csimpl.
  unfold contribution at 1. simpl. rewrite Hr.
  rewrite decide_False; [exact IH|]. intros ([= <-] & _ & HI & _). done.
Qed.

Lemma coarse_rows_loop (agg : list nat) (irows : list (nat * list (nat * Block F))) :
  COMPONENT_INDEX < ROWS → COMPONENT_INDEX < COLS →
  Forall (λ ir : nat * list (nat * Block F),
            ir.1 < length agg ∧
            Forall (λ e : nat * Block F, block_wf e.2 ∧ e.1 < length agg) ir.2)
         irows →
  ∀ m,
    (∀ ir e i j, ir ∈ irows → e ∈ ir.2 → agg !! ir.1 = Some i → agg !! e.1 = Some j →
                 i ≠ ISOLATED → j ≠ ISOLATED → is_Some (mat_get m i j)) →
    ∃ m', for_each (coarse_row_body agg) m irows = Some m' ∧
          accumulated
            (λ I J, omap (contribution agg I J) (mjoin (row_entries <$> irows))) m m'.
Proof.
  intros Hp Hq Hrows.
  induction Hrows as [|[r es] irows [Hr Hes] _ IH]; intros m Hpat.
  - exists m. split; [done|]. apply accumulated_refl.
  - simpl in Hr, Hes. destruct (lookup_lt_is_Some_2 agg r Hr) as [i Hi].
    assert (∃ m1, coarse_row_body agg m (r, es) = Some m1 ∧
              accumulated (λ I J, omap (contribution agg I J) (row_entries (r, es)))
                m m1) as (m1 & H1 & Hacc1).
    { unfold coarse_row_body. simpl. rewrite Hi. simpl.
      destruct (decide (i ≠ ISOLATED)) as [Hiso|Hiso].
      - apply (coarse_row_loop agg r i es Hi Hiso Hp Hq Hes).
        intros e j He Hj Hjso. apply (Hpat (r, es) e i j); try done. left.
      - exists m. split; [done|].
        eapply accumulated_ext; [|apply accumulated_refl].
        intros I J. symmetry. apply contribution_isolated_row.
        rewrite Hi. f_equal. by destruct (decide (i = ISOLATED)). }
    destruct (IH m1) as (m' & H2 & Hacc2).
    { intros ir e i' j Hir He Hi' Hj Hiso Hjso.
      eapply is_Some_accumulated; [exact Hacc1|].
      apply (Hpat ir e i' j); try done. by right. }
    exists m'. split.
    + cbn [for_each]. rewrite H1. simpl. exact H2.
    + eapply accumulated_ext; [|exact (accumulated_trans _ _ _ _ _ Hacc1 Hacc2)].
      intros I J.
      change (mjoin (row_entries <$> (r, es) :: irows))
        with (row_entries (r, es) ++ mjoin (row_entries <$> irows)).
      by rewrite omap_app.
Qed.

Lemma indexed_lookup {A : Type} (l : list A) (k r : nat) (x : A) :
  indexed l !! k = Some (r, x) ↔ r = k ∧ l !! k = Some x.
Proof.
  unfold indexed. rewrite lookup_zip_with_Some. split.
  - intros (r' & x' & [= -> ->] & Hseq & Hl).
    apply lookup_seq in Hseq as [-> _]. done.
  - intros [-> Hl]. exists k, x. split; [done|]. split; [|done].
    apply lookup_seq. split; [done|]. by eapply lookup_lt_Some.
Qed.

Lemma elem_of_indexed {A : Type} (l : list A) (r : nat) (x : A) :
  (r, x) ∈ indexed l ↔ l !! r = Some x.
Proof.
  rewrite list_elem_of_lookup. split.
  - intros [k Hk]. apply indexed_lookup in Hk as [-> Hk]. done.
  - intros Hr. exists r. by apply indexed_lookup.
Qed.

Lemma elem_of_entries {B : Type} (m : BCRSMatrix B)
    (row : nat * list (nat * B)) (e : nat * B) :
  row ∈ indexed (mat_rows m) → e ∈ row.2 → (row.1, e.1, e.2) ∈ entries m.
Proof.
  intros Hrow He. unfold entries. apply list_elem_of_join.
  exists (row_entries row). split.
  - unfold row_entries. apply list_elem_of_fmap. by exists e.
  - apply list_elem_of_fmap. by exists row.
Qed.

Lemma contribution_Some (agg : list nat) (I J : nat) (e : nat * nat * Block F) (x : F) :
  contribution agg I J e = Some x ↔
  agg !! e.1.1 = Some I ∧ agg !! e.1.2 = Some J ∧ I ≠ ISOLATED ∧ J ≠ ISOLATED ∧
  block_get e.2 COMPONENT_INDEX COMPONENT_INDEX = Some x.
Proof.
  unfold contribution. case_decide as Hd; [tauto|].
  split; [done|]. intros (? & ? & ? & ? & _). by destruct Hd.
Qed.

(** C3: [calculateCoarseEntries] zeroes the coarse matrix and then leaves
    in every coarse entry [(I, J)] the sum (accumulated from zero in
    visiting order) of the fine [COMPONENT_INDEX][COMPONENT_INDEX]
    components at exactly the fine positions (row, col) whose aggregates
    are [I] and [J] with neither of them [ISOLATED]; a fine position with
    an isolated end point adds to no coarse entry. *)
Theorem calculateCoarseEntries_sums (agg : list nat) (coarse : BCRSMatrix F)
    (fine : BCRSMatrix (Block F)) :
  COMPONENT_INDEX < ROWS → COMPONENT_INDEX < COLS → matrix_wf fine →
  length (mat_rows fine) ≤ length agg →
  Forall (λ e : nat * nat * Block F, e.1.2 < length agg) (entries fine) →
  Forall (λ e : nat * nat * Block F,
            ∀ i j, agg !! e.1.1 = Some i → agg !! e.1.2 = Some j →
                   i ≠ ISOLATED → j ≠ ISOLATED → is_Some (mat_get coarse i j))
         (entries fine) →
  ∃ coarse',
    calculateCoarseEntries agg coarse fine = Some coarse' ∧
    pattern coarse' = pattern coarse ∧
    mat_N coarse' = mat_N coarse ∧ mat_M coarse' = mat_M coarse ∧
    (∀ I J, is_Some (mat_get coarse I J) →
       mat_get coarse' I J = Some (foldl fadd fzero (contributions agg fine I J))) ∧
    (∀ I J e x, contribution agg I J e = Some x ↔
       agg !! e.1.1 = Some I ∧ agg !! e.1.2 = Some J ∧
       I ≠ ISOLATED ∧ J ≠ ISOLATED ∧
       block_get e.2 COMPONENT_INDEX COMPONENT_INDEX = Some x) ∧
    (∀ I J e, agg !! e.1.1 = Some ISOLATED ∨ agg !! e.1.2 = Some ISOLATED →
       contribution agg I J e = None).
Proof.
  intros Hp Hq Hwf Hrows Hcols Hpat.
  rewrite Forall_forall in Hcols. rewrite Forall_forall in Hpat.
  destruct (coarse_rows_loop agg (indexed (mat_rows fine)) Hp Hq)
    with (m := map_blocks (λ _ : F, fzero) coarse) as (coarse' & Hrun & Hacc).
  - apply Forall_forall. intros [r row] Hin.
    pose proof Hin as Hrow. apply elem_of_indexed in Hrow. simpl.
    split; [apply lookup_lt_Some in Hrow; lia|].
    apply Forall_forall. intros [c B] He. simpl. split.
    + pose proof (Forall_lookup_1 _ _ _ _ Hwf Hrow) as Hr.
      rewrite Forall_forall in Hr. by apply (Hr (c, B)).
    + apply (Hcols (r, c, B)). by apply (elem_of_entries _ (r, row) (c, B)).
  - intros [r row] [c B] i j Hin He Hi Hj Hiso Hjso. simpl in *.
    rewrite mat_get_map_blocks. apply fmap_is_Some.
    apply (Hpat (r, c, B)); try done.
    by apply (elem_of_entries _ (r, row) (c, B)).
  - exists coarse'. split; [exact Hrun|].
    destruct Hacc as (Hpattern & HN & HM & Hget).
    rewrite pattern_map_blocks in Hpattern.
    split; [done|]. split; [done|]. split; [done|]. split; [|split].
    + intros I J [x Hx]. rewrite Hget, mat_get_map_blocks, Hx. done.
    + intros I J e x. apply contribution_Some.
    + intros I J e Hiso. unfold contribution.
      rewrite decide_False; [done|].
      intros (HI & HJ & HIne & HJne). destruct Hiso; congruence.
Qed.

(** *** Prolongation *)

Lemma mapM_indexed_pointwise {A B : Type} (f : nat * A → option B) (l : list A) :
  (∀ v x, l !! v = Some x → is_Some (f (v, x))) →
  ∃ k, mapM f (indexed l) = Some k ∧ length k = length l ∧
       ∀ v x, l !! v = Some x → ∃ y, f (v, x) = Some y ∧ k !! v = Some y.
Proof.
  intros Hf.
  destruct (mapM_is_Some_2 f (indexed l)) as [k Hk].
  { apply Forall_forall. intros [v x] Hin. apply elem_of_indexed in Hin.
    by apply Hf. }
  exists k. split; [done|].
  apply mapM_Some_1 in Hk.
  assert (length (indexed l) = length l) as Hlen.
  { unfold indexed. rewrite length_zip_with, length_seq. lia. }
  split; [by rewrite <- (Forall2_length _ _ _ Hk)|].
  intros v x Hv.
  destruct (Forall2_lookup_l _ _ _ v (v, x) Hk) as (y & Hy & Hfy).
  { by apply indexed_lookup. }
  by exists y.
Qed.

Lemma prolong_aggregated_loop (agg : list nat) (lhs : list F) (fine : list (VBlock F)) :
  length fine ≤ length agg →
  Forall (λ b : VBlock F, COMPONENT_INDEX < length b) fine →
  (∀ v I, v < length fine → agg !! v = Some I → I ≠ ISOLATED → I < length lhs) →
  ∃ acc,
    mapM
      (λ block : nat * VBlock F,
         vertex ← agg !! block.1;
         if decide (vertex ≠ ISOLATED)
         then x ← block.2 !! COMPONENT_INDEX;
              y ← lhs !! vertex;
              Some (<[COMPONENT_INDEX := fadd x y]> block.2)
         else Some block.2)
      (indexed fine) = Some acc ∧
    length acc = length fine ∧
    ∀ v b, fine !! v = Some b →
      ∃ I, agg !! v = Some I ∧
        if decide (I ≠ ISOLATED)
        then ∃ x y, b !! COMPONENT_INDEX = Some x ∧ lhs !! I = Some y ∧
                    acc !! v = Some (<[COMPONENT_INDEX := fadd x y]> b)
        else acc !! v = Some b.
Proof.
  intros Hlen Hfine Hlhs.
  match goal with |- context [mapM ?f (indexed fine)] =>
    destruct (mapM_indexed_pointwise f fine) as (acc & Hrun & Hacclen & Hacc)
  end.
  { intros v b Hv. simpl.
    pose proof (lookup_lt_Some _ _ _ Hv) as Hvlt.
    destruct (lookup_lt_is_Some_2 agg v) as [I HI]; [lia|]. rewrite HI. simpl.
    pose proof (Forall_lookup_1 _ _ _ _ Hfine Hv) as Hb. simpl in Hb.
    destruct (lookup_lt_is_Some_2 b _ Hb) as [x Hx].
    case_decide as Hiso; [|done]. rewrite Hx. simpl.
    destruct (lookup_lt_is_Some_2 lhs I) as [y Hy]; [by eapply Hlhs|].
    by rewrite Hy. }
  exists acc. split; [done|]. split; [done|].
  intros v b Hv. destruct (Hacc v b Hv) as (b' & Hbody & Hb'). simpl in Hbody.
  pose proof (lookup_lt_Some _ _ _ Hv) as Hvlt.
  destruct (lookup_lt_is_Some_2 agg v) as [I HI]; [lia|].
  exists I. split; [done|]. rewrite HI in Hbody. simpl in Hbody.
  case_decide as Hiso.
  - pose proof (Forall_lookup_1 _ _ _ _ Hfine Hv) as Hb. simpl in Hb.
    destruct (lookup_lt_is_Some_2 b _ Hb) as [x Hx].
    destruct (lookup_lt_is_Some_2 lhs I) as [y Hy]; [by eapply Hlhs|].
    rewrite Hx in Hbody. simpl in Hbody. rewrite Hy in Hbody. simpl in Hbody.
    injection Hbody as <-. by exists x, y.
  - by injection Hbody as <-.
Qed.

Lemma prolong_direct_loop (lhs : list F) (fine : list (VBlock F)) :
  length fine ≤ length lhs →
  Forall (λ b : VBlock F, COMPONENT_INDEX < length b) fine →
  ∃ fine',
    mapM
      (λ block : nat * VBlock F,
         _ ← block.2 !! COMPONENT_INDEX;
         y ← lhs !! block.1;
         Some (<[COMPONENT_INDEX := y]> block.2))
      (indexed fine) = Some fine' ∧
    length fine' = length fine ∧
    ∀ v b, fine !! v = Some b →
      ∃ y, lhs !! v = Some y ∧ fine' !! v = Some (<[COMPONENT_INDEX := y]> b).
Proof.
  intros Hlen Hfine.
  match goal with |- context [mapM ?f (indexed fine)] =>
    destruct (mapM_indexed_pointwise f fine) as (fine' & Hrun & Hlen' & Hacc)
  end.
  { intros v b Hv. simpl.
    pose proof (lookup_lt_Some _ _ _ Hv) as Hvlt.
    pose proof (Forall_lookup_1 _ _ _ _ Hfine Hv) as Hb. simpl in Hb.
    destruct (lookup_lt_is_Some_2 b _ Hb) as [x Hx]. rewrite Hx. simpl.
    destruct (lookup_lt_is_Some_2 lhs v) as [y Hy]; [lia|].
    by rewrite Hy. }
  exists fine'. split; [done|]. split; [done|].
  intros v b Hv. destruct (Hacc v b Hv) as (b' & Hbody & Hb'). simpl in Hbody.
  pose proof (lookup_lt_Some _ _ _ Hv) as Hvlt.
  pose proof (Forall_lookup_1 _ _ _ _ Hfine Hv) as Hb. simpl in Hb.
  destruct (lookup_lt_is_Some_2 b _ Hb) as [x Hx].
  destruct (lookup_lt_is_Some_2 lhs v) as [y Hy]; [lia|].
  rewrite Hx, Hy in Hbody. simpl in Hbody. injection Hbody as <-.
  by exists y.
Qed.


(** *** Restriction *)

Lemma for_each_app {A St : Type} (body : St → A → option St) (s : St) (l1 l2 : list A) :
  for_each body s (l1 ++ l2) = s' ← for_each body s l1; for_each body s' l2.
Proof.
  revert s. induction l1 as [|x l1 IH]; intros s; [done|]. simpl.
  destruct (body s x) as [s1|]; [|done]. simpl. apply IH.
Qed.

Lemma indexed_snoc {A : Type} (l : list A) (x : A) :
  indexed (l ++ [x]) = indexed l ++ [(length l, x)].
Proof.
  unfold indexed. rewrite length_app. simpl. rewrite seq_app. simpl.
  rewrite zip_with_app by (by rewrite length_seq). done.
Qed.

Lemma aggregate_size_S (agg : list nat) (n I : nat) :
  aggregate_size agg (S n) I
  = aggregate_size agg n I + (if decide (agg !! n = Some I) then 1 else 0).
Proof.
  unfold aggregate_size. rewrite seq_S, filter_app, length_app. simpl.
  rewrite filter_cons, filter_nil. by case_decide.
Qed.

Lemma restrict_aggregated (agg : list nat) (c : F) (rhs : list F) (fine : list (VBlock F)) :
  length fine ≤ length agg →
  Forall (λ b : VBlock F, b !! COMPONENT_INDEX = Some c) fine →
  (∀ v I, v < length fine → agg !! v = Some I → I ≠ ISOLATED → I < length rhs) →
  ∃ rhs',
    for_each
      (λ rhs (block : nat * VBlock F),
         vertex ← agg !! block.1;
         if decide (vertex ≠ ISOLATED)
         then x ← block.2 !! COMPONENT_INDEX;
              y ← rhs !! vertex;
              Some (<[vertex := fadd y x]> rhs)
         else Some rhs)
      rhs (indexed fine) = Some rhs' ∧
    length rhs' = length rhs ∧
    ∀ I, I ≠ ISOLATED →
      rhs' !! I
      = (λ x, foldl fadd x (replicate (aggregate_size agg (length fine) I) c))
          <$> rhs !! I.
Proof.
  induction fine as [|b fine IH] using rev_ind; intros Hlen Hfine Hrhs.
  - exists rhs. split; [done|]. split; [done|]. intros I _.
    by destruct (rhs !! I).
  - rewrite length_app in *. simpl in *. apply Forall_app in Hfine as [Hfine Hb].
    rewrite Forall_singleton in Hb.
    destruct IH as (rhs1 & Hrun & Hlen1 & Hget1); [lia|done| |].
    { intros v I Hv. apply Hrhs. lia. }
    rewrite indexed_snoc, for_each_app, Hrun. simpl.
    destruct (lookup_lt_is_Some_2 agg (length fine)) as [I0 HI0]; [lia|].
    rewrite HI0. simpl. replace (length fine + 1) with (S (length fine)) by lia.
    case_decide as Hiso.
    + rewrite Hb. simpl.
      destruct (lookup_lt_is_Some_2 rhs1 I0) as [y Hy].
      { rewrite Hlen1. apply (Hrhs (length fine)); [lia|done..]. }
      rewrite Hy. simpl. eexists. split; [done|].
      split; [by rewrite length_insert|].
      intros I HI. rewrite aggregate_size_S, HI0.
      destruct (decide (I = I0)) as [->|Hne].
      * rewrite list_lookup_insert_eq by (by eapply lookup_lt_Some).
        rewrite decide_True by done.
        rewrite (Hget1 I0 HI) in Hy. destruct (rhs !! I0) as [x0|]; [|done].
        simpl in *. injection Hy as <-.
        by rewrite replicate_add, foldl_app.
      * rewrite list_lookup_insert_ne by done.
        rewrite decide_False by congruence. rewrite Nat.add_0_r. by apply Hget1.
    + exists rhs1. split; [done|]. split; [done|].
      intros I HI. rewrite aggregate_size_S, HI0.
      rewrite decide_False by congruence.
      rewrite Nat.add_0_r. by apply Hget1.
Qed.

Lemma restrict_direct (rhs : list F) (fine : list (VBlock F)) :
  length fine ≤ length rhs →
  Forall (λ b : VBlock F, is_Some (b !! COMPONENT_INDEX)) fine →
  ∃ rhs',
    for_each
      (λ rhs (block : nat * VBlock F),
         x ← block.2 !! COMPONENT_INDEX;
         _ ← rhs !! block.1;
         Some (<[block.1 := x]> rhs))
      rhs (indexed fine) = Some rhs' ∧
    length rhs' = length rhs ∧
    (∀ v b, fine !! v = Some b → rhs' !! v = b !! COMPONENT_INDEX) ∧
    (∀ I, length fine ≤ I → rhs' !! I = rhs !! I).
Proof.
  induction fine as [|b fine IH] using rev_ind; intros Hlen Hfine.
  - exists rhs. by repeat split.
  - rewrite length_app in *. simpl in *. apply Forall_app in Hfine as [Hfine Hb].
    rewrite Forall_singleton in Hb. destruct Hb as [x Hx].
    destruct IH as (rhs1 & Hrun & Hlen1 & Hget1 & Hrest1); [lia|done|].
    rewrite indexed_snoc, for_each_app, Hrun. simpl. rewrite Hx. simpl.
    destruct (lookup_lt_is_Some_2 rhs1 (length fine)) as [y Hy]; [lia|].
    rewrite Hy. simpl. eexists. split; [done|].
    split; [by rewrite length_insert|]. split.
    + intros v b' Hv. destruct (decide (v = length fine)) as [->|Hne].
      * rewrite list_lookup_insert_eq by lia.
        rewrite lookup_app_r, Nat.sub_diag in Hv by done.
        injection Hv as <-. done.
      * rewrite list_lookup_insert_ne by done. apply Hget1.
        apply lookup_lt_Some in Hv as Hvlt. rewrite length_app in Hvlt.
        simpl in Hvlt. rewrite lookup_app_l in Hv by lia. done.
    + intros I HI. rewrite list_lookup_insert_ne by lia. apply Hrest1. lia.
Qed.

Lemma zeroed_lookup (v : list F) (i : nat) : zeroed v !! i = (λ _, fzero) <$> v !! i.
Proof. unfold zeroed. apply list_lookup_fmap. Qed.

Lemma length_zeroed (v : list F) : length (zeroed v) = length v.
Proof. unfold zeroed. apply length_fmap. Qed.

(** C4 (amended): for a fine defect whose pressure component is [c] in
    every block, restriction followed by prolongation of the restricted
    right-hand side onto the zero vector gives back [c] at every fine
    vertex in direct-extraction mode; in aggregation mode a non-isolated
    vertex receives (before owner values are copied) the damped sum of
    one [c] per fine vertex of its aggregate, which is [c] again for an
    aggregate of one vertex and damping factor one. *)
Theorem restrict_prolong_constant (pol : Policy) (fine : list (VBlock F)) (c : F) :
  Forall (λ b : VBlock F, b !! COMPONENT_INDEX = Some c) fine →
  (pressure_aggregation_ pol = false →
   length fine ≤ length (rhs_ pol) →
   ∃ pol1 fine',
     moveToCoarseLevel pol fine = Some pol1 ∧
     moveToFineLevel (with_buffers pol1 (rhs_ pol1) (rhs_ pol1)) (zeroed <$> fine)
     = Some (with_buffers pol1 (rhs_ pol1) (rhs_ pol1), fine') ∧
     ∀ v, v < length fine → fine' !! v ≫= (.!! COMPONENT_INDEX) = Some c) ∧
  (pressure_aggregation_ pol = true →
   ∀ damp agg,
     prolongDamp_ pol = Some damp → aggregatesMap_ pol = Some agg →
     length fine ≤ length agg →
     (∀ v I, v < length fine → agg !! v = Some I → I ≠ ISOLATED →
             I < length (rhs_ pol)) →
     ∃ pol1 pol2 acc,
       moveToCoarseLevel pol fine = Some pol1 ∧
       moveToFineLevel (with_buffers pol1 (rhs_ pol1) (rhs_ pol1)) (zeroed <$> fine)
       = Some (pol2, copyOwnerToAll (communication_ pol) acc) ∧
       ∀ v I, v < length fine → agg !! v = Some I → I ≠ ISOLATED →
         acc !! v ≫= (.!! COMPONENT_INDEX)
         = Some (fadd fzero
                   (fmul (foldl fadd fzero
                            (replicate (aggregate_size agg (length fine) I) c))
                         damp)) ∧
         ((∀ x, fadd fzero x = x) → (∀ x, fmul x fone = x) → damp = fone →
          aggregate_size agg (length fine) I = 1 →
          acc !! v ≫= (.!! COMPONENT_INDEX) = Some c)).
Proof.
  intros Hfine.
  assert (Forall (λ b : VBlock F, COMPONENT_INDEX < length b) (zeroed <$> fine))
    as Hzero.
  { apply Forall_fmap. eapply Forall_impl; [exact Hfine|]. intros b Hb.
    simpl in *. rewrite length_zeroed. exact (lookup_lt_Some _ _ _ Hb). }
  split.
  - intros Hmode Hlen.
    destruct (restrict_direct (zeroed (rhs_ pol)) fine)
      as (rhs' & Hrun & Hlen' & Hget & _).
    { by rewrite length_zeroed. }
    { eapply Forall_impl; [exact Hfine|]. intros b Hb. simpl. by rewrite Hb. }
    rewrite length_zeroed in Hlen'.
    unfold moveToCoarseLevel. rewrite Hmode, Hrun. simpl.
    destruct (prolong_direct_loop rhs' (zeroed <$> fine))
      as (fine' & Hfine' & Hlenf & Hpoint); [|done|].
    { rewrite length_fmap. lia. }
    eexists _, fine'. split; [done|]. split.
    { unfold moveToFineLevel. simpl. rewrite Hmode, Hfine'. done. }
    intros v Hv. destruct (lookup_lt_is_Some_2 fine v Hv) as [b Hb].
    destruct (Hpoint v (zeroed b)) as (y & Hy & Hv').
    { by rewrite list_lookup_fmap, Hb. }
    simpl in Hy. rewrite (Hget v b Hb) in Hy.
    rewrite (Forall_lookup_1 _ _ _ _ Hfine Hb) in Hy. injection Hy as <-.
    rewrite Hv'. simpl. apply list_lookup_insert_eq. rewrite length_zeroed.
    eapply lookup_lt_Some, (Forall_lookup_1 _ _ _ _ Hfine Hb).
  - intros Hmode damp agg Hdamp Hagg Hlen Hrhs.
    destruct (restrict_aggregated agg c (zeroed (rhs_ pol)) fine)
      as (rhs' & Hrun & Hlen' & Hget); [done|done| |].
    { intros v I Hv HI Hiso. rewrite length_zeroed. by eapply Hrhs. }
    rewrite length_zeroed in Hlen'.
    unfold moveToCoarseLevel. rewrite Hmode, Hagg. simpl. rewrite Hrun. simpl.
    destruct (prolong_aggregated_loop agg ((λ x, fmul x damp) <$> rhs')
                (zeroed <$> fine)) as (acc & Hfine' & _ & Hpoint).
    { by rewrite length_fmap. }
    { done. }
    { intros v I Hv HI Hiso. rewrite !length_fmap in *. rewrite Hlen'.
      by eapply Hrhs. }
    eexists _, _, acc. split; [done|]. split.
    { unfold moveToFineLevel. simpl. rewrite Hmode, Hdamp, Hagg. simpl.
      rewrite Hfine'. done. }
    intros v I Hv HI Hiso.
    destruct (lookup_lt_is_Some_2 fine v Hv) as [b Hb].
    destruct (Hpoint v (zeroed b)) as (I' & HI' & Hcase).
    { by rewrite list_lookup_fmap, Hb. }
    rewrite HI in HI'. injection HI' as <-.
    rewrite decide_True in Hcase by done.
    destruct Hcase as (x & y & Hx & Hy & Hv').
    pose proof (Forall_lookup_1 _ _ _ _ Hfine Hb) as Hc. simpl in Hc.
    rewrite zeroed_lookup, Hc in Hx. injection Hx as <-.
    rewrite list_lookup_fmap, (Hget I Hiso), zeroed_lookup in Hy.
    destruct (lookup_lt_is_Some_2 (rhs_ pol) I) as [r0 Hr0]; [by eapply Hrhs|].
    rewrite Hr0 in Hy. simpl in Hy. injection Hy as <-.
    assert (acc !! v ≫= (.!! COMPONENT_INDEX)
            = Some (fadd fzero
                      (fmul (foldl fadd fzero
                               (replicate (aggregate_size agg (length fine) I) c))
                            damp))) as Hres.
    { rewrite Hv'. simpl. apply list_lookup_insert_eq. rewrite length_zeroed.
      by eapply lookup_lt_Some. }
    split; [exact Hres|].
    intros Hadd Hmul -> Hone. rewrite Hres, Hone. simpl.
    by rewrite Hadd, Hmul, Hadd.
Qed.

(** ** Further properties of the code *)

(** *** Matrix scaling against vector scaling *)

Lemma column_Some (j : nat) (B : Block F) :
  Forall (λ row : list F, j < length row) B →
  column j B = Some ((λ row, default fzero (row !! j)) <$> B).
Proof.
  intros HB. unfold column. apply mapM_Some_fmap.
  eapply Forall_impl; [exact HB|]. intros row Hrow. simpl in *.
  by destruct (lookup_lt_is_Some_2 row j Hrow) as [x ->].
Qed.

Lemma omap_lookup_column (j : nat) (rows : list (list F)) :
  Forall (λ row : list F, j < length row) rows →
  omap (.!! j) rows = (λ row, default fzero (row !! j)) <$> rows.
Proof.
  induction 1 as [|row rows Hrow _ IH]; [done|]. csimpl.
  destruct (lookup_lt_is_Some_2 row j Hrow) as [x ->]. simpl. by rewrite IH.
Qed.

Lemma delete_fmap {A B : Type} (g : A → B) (i : nat) (l : list A) :
  delete i (g <$> l) = g <$> delete i l.
Proof. by rewrite !delete_take_drop, fmap_app, fmap_take, fmap_drop. Qed.

Lemma column_combine_rows (p j : nat) (B : Block F) :
  block_wf B → p < ROWS → j < COLS →
  (λ row, default fzero (row !! j)) <$> combine_rows p B
  = combine_components p ((λ row, default fzero (row !! j)) <$> B).
Proof.
  intros [HB Hrows] Hp Hj. unfold combine_rows, combine_components.
  destruct (lookup_lt_is_Some_2 B p) as [rp Hrp]; [lia|].
  rewrite Hrp, list_lookup_fmap, Hrp. simpl.
  pose proof (Forall_lookup_1 _ _ _ _ Hrows Hrp) as Hlen. simpl in Hlen.
  destruct (lookup_lt_is_Some_2 rp j) as [x Hx]; [lia|].
  rewrite list_fmap_insert, Hx. simpl. f_equal.
  rewrite (foldl_row_add_lookup (delete p B) rp j x); [|by apply Forall_delete;
    eapply Forall_impl; [exact Hrows|]; intros r Hr; simpl in *; congruence|done].
  simpl. rewrite delete_fmap. f_equal. apply omap_lookup_column.
  apply Forall_delete. eapply Forall_impl; [exact Hrows|].
  intros r Hr. simpl in *. lia.
Qed.

(** X1: the matrix scaling does to every column of every stored block what
    the vector scaling does to a vector block: column [j] of the scaled
    block is [scaleVBlock] of column [j] of the original block. *)
Theorem scaleMatrix_columnwise (p : nat) (m : BCRSMatrix (Block F)) :
  matrix_wf m → p < ROWS →
  ∃ m', scaleMatrix p m = Some m' ∧
    ∀ r k c B j, stored m r k = Some (c, B) → j < COLS →
      ∃ B' col col',
        stored m' r k = Some (c, B') ∧
        column j B = Some col ∧
        scaleVBlock p col = Some col' ∧
        column j B' = Some col'.
Proof.
  intros Hwf Hp. exists (map_blocks (combine_rows p) m).
  split; [by apply scaleMatrix_combine|].
  intros r k c B j Hst Hj.
  assert (block_wf B) as HB.
  { unfold stored in Hst. destruct (mat_rows m !! r) as [row|] eqn:Hrow; [|done].
    simpl in Hst. pose proof (Forall_lookup_1 _ _ _ _ Hwf Hrow) as Hr.
    by pose proof (Forall_lookup_1 _ _ _ _ Hr Hst). }
  assert (∀ C : Block F, block_wf C → Forall (λ row : list F, j < length row) C)
    as Hcols.
  { intros C [_ HC]. eapply Forall_impl; [exact HC|]. intros row Hrow.
    simpl in *. lia. }
  eexists _, _, _. split; [by rewrite stored_map_blocks, Hst|].
  split; [by apply column_Some, Hcols|]. split.
  - apply scaleVBlock_combine; [|done]. unfold vblock_wf.
    rewrite length_fmap. by destruct HB.
  - rewrite column_Some by (by apply Hcols, combine_rows_wf).
    f_equal. by apply column_combine_rows.
Qed.

(** *** Fixed points of the scaling *)

Lemma foldl_row_add_zero (rp : list F) (rows : list (list F)) :
  (∀ x, fadd x fzero = x) →
  Forall (λ row : list F, length row = length rp ∧ Forall (λ x, x = fzero) row) rows →
  foldl row_add rp rows = rp.
Proof.
  intros Hadd Hrows. induction Hrows as [|row rows [Hlen Hzero] _ IH]; [done|].
  simpl. enough (row_add rp row = rp) as -> by done.
  clear IH. unfold row_add. revert row Hlen Hzero.
  induction rp as [|x rp IH]; intros [|y row] Hlen Hzero; try done.
  apply Forall_cons in Hzero as [-> Hzero]. simpl.
  rewrite Hadd. f_equal. apply IH; [by injection Hlen|done].
Qed.

Lemma foldl_fadd_zero (x : F) (others : list F) :
  (∀ x, fadd x fzero = x) → Forall (λ y, y = fzero) others →
  foldl fadd x others = x.
Proof.
  intros Hadd Hothers. induction Hothers as [|y others -> _ IH]; [done|].
  simpl. by rewrite Hadd.
Qed.

Lemma map_blocks_id (g : Block F → Block F) (m : BCRSMatrix (Block F)) :
  Forall (Forall (λ e : nat * Block F, g e.2 = e.2)) (mat_rows m) →
  map_blocks g m = m.
Proof.
  intros Hm. destruct m as [N M rows]. unfold map_blocks. simpl in *. f_equal.
  induction Hm as [|row rows Hrow _ IH]; [done|]. csimpl. f_equal; [|exact IH].
  clear IH. induction Hrow as [|[c B] row HB _ IH]; [done|]. csimpl.
  unfold map_entry at 1. simpl in *. by rewrite HB, IH.
Qed.

(** X2: with [x + 0 = x], the scaling returns a matrix equal to its input
    when in every stored block all rows other than the pressure row are
    zero, and a vector equal to its input when in every block all
    components other than the pressure component are zero. *)
Theorem scaling_fixed_point (p : nat) (m : BCRSMatrix (Block F))
    (vector : list (VBlock F)) :
  (∀ x, fadd x fzero = x) → p < ROWS →
  (matrix_wf m →
   Forall (Forall (λ e : nat * Block F,
                     Forall (Forall (λ x, x = fzero)) (delete p e.2))) (mat_rows m) →
   scaleMatrix p m = Some m) ∧
  (Forall vblock_wf vector →
   Forall (λ b : VBlock F, Forall (λ x, x = fzero) (delete p b)) vector →
   scaleVectorQuasiImpes p vector = Some vector).
Proof.
  intros Hadd Hp. split.
  - intros Hwf Hzero. rewrite (scaleMatrix_combine p m Hwf Hp). f_equal.
    apply map_blocks_id. unfold matrix_wf in Hwf.
    apply Forall_forall. intros row Hrow. apply Forall_forall. intros [c B] HB.
    rewrite Forall_forall in Hwf. specialize (Hwf row Hrow).
    rewrite Forall_forall in Hzero. specialize (Hzero row Hrow).
    rewrite Forall_forall in Hwf. specialize (Hwf (c, B) HB).
    rewrite Forall_forall in Hzero. specialize (Hzero (c, B) HB).
    simpl in *. destruct Hwf as [HlenB Hrows]. unfold combine_rows.
    destruct (B !! p) as [rp|] eqn:Hrp; [|done].
    rewrite foldl_row_add_zero; [by apply list_insert_id|done|].
    pose proof (Forall_lookup_1 _ _ _ _ Hrows Hrp) as Hlen. simpl in Hlen.
    apply Forall_and. split; [|done].
    apply Forall_delete. eapply Forall_impl; [exact Hrows|].
    intros r Hr. simpl in *. congruence.
  - intros Hwf Hzero. rewrite (scaleVector_combine p vector Hwf Hp). f_equal.
    induction Hzero as [|b vector Hb _ IH]; [done|].
    apply Forall_cons in Hwf as [_ Hwf]. csimpl. rewrite (IH Hwf). f_equal.
    unfold combine_components. destruct (b !! p) as [x|] eqn:Hx; [|done].
    rewrite foldl_fadd_zero by done. by apply list_insert_id.
Qed.

(** *** Restriction of an arbitrary defect *)

Lemma zeroed_replicate (v : list F) : zeroed v = replicate (length v) fzero.
Proof. unfold zeroed. induction v as [|x v IH]; [done|]. csimpl. by rewrite IH. Qed.

Lemma restricted_snoc (agg : list nat) (I : nat) (fine : list (VBlock F)) (b : VBlock F) :
  restricted agg I (fine ++ [b])
  = restricted agg I fine
    ++ (if decide (agg !! length fine = Some I ∧ I ≠ ISOLATED)
        then option_list (b !! COMPONENT_INDEX) else []).
Proof.
  unfold restricted. rewrite indexed_snoc, omap_app. f_equal. csimpl.
  case_decide; [|done]. by destruct (b !! COMPONENT_INDEX).
Qed.

Lemma restricted_isolated (agg : list nat) (fine : list (VBlock F)) :
  restricted agg ISOLATED fine = [].
Proof.
  unfold restricted. generalize (indexed fine). intros l.
  induction l as [|ib l IH]; [done|]. csimpl.
  destruct (decide (agg !! ib.1 = Some ISOLATED ∧ ISOLATED ≠ ISOLATED)) as [[_ ?]|];
    [done|exact IH].
Qed.

Lemma restrict_aggregated_general (agg : list nat) (rhs : list F) (fine : list (VBlock F)) :
  length fine ≤ length agg →
  Forall (λ b : VBlock F, COMPONENT_INDEX < length b) fine →
  (∀ v I, v < length fine → agg !! v = Some I → I ≠ ISOLATED → I < length rhs) →
  ∃ rhs',
    for_each
      (λ rhs (block : nat * VBlock F),
         vertex ← agg !! block.1;
         if decide (vertex ≠ ISOLATED)
         then x ← block.2 !! COMPONENT_INDEX;
              y ← rhs !! vertex;
              Some (<[vertex := fadd y x]> rhs)
         else Some rhs)
      rhs (indexed fine) = Some rhs' ∧
    length rhs' = length rhs ∧
    ∀ I, rhs' !! I = (λ x, foldl fadd x (restricted agg I fine)) <$> rhs !! I.
Proof.
  induction fine as [|b fine IH] using rev_ind; intros Hlen Hfine Hrhs.
  - exists rhs. split; [done|]. split; [done|]. intros I.
    by destruct (rhs !! I).
  - rewrite length_app in *. simpl in *. apply Forall_app in Hfine as [Hfine Hb].
    rewrite Forall_singleton in Hb.
    destruct (lookup_lt_is_Some_2 b _ Hb) as [x Hx].
    destruct IH as (rhs1 & Hrun & Hlen1 & Hget1); [lia|done| |].
    { intros v I Hv. apply Hrhs. lia. }
    rewrite indexed_snoc, for_each_app, Hrun. simpl.
    destruct (lookup_lt_is_Some_2 agg (length fine)) as [I0 HI0]; [lia|].
    rewrite HI0. simpl.
    case_decide as Hiso.
    + rewrite Hx. simpl.
      destruct (lookup_lt_is_Some_2 rhs1 I0) as [y Hy].
      { rewrite Hlen1. apply (Hrhs (length fine)); [lia|done..]. }
      rewrite Hy. simpl. eexists. split; [done|].
      split; [by rewrite length_insert|].
      intros I. rewrite restricted_snoc, HI0, Hx.
      destruct (decide (I = I0)) as [->|Hne].
      * rewrite list_lookup_insert_eq by (by eapply lookup_lt_Some).
        rewrite decide_True by done.
        rewrite (Hget1 I0) in Hy. destruct (rhs !! I0) as [x0|]; [|done].
        simpl in *. injection Hy as <-. by rewrite foldl_app.
      * rewrite list_lookup_insert_ne by done.
        rewrite decide_False by (intros [[= ->] _]; done).
        rewrite app_nil_r. by apply Hget1.
    + exists rhs1. split; [done|]. split; [done|].
      intros I. rewrite restricted_snoc, HI0.
      rewrite decide_False by (intros [[= ->] ?]; done).
      rewrite app_nil_r. by apply Hget1.
Qed.

(** X3: in aggregation mode [moveToCoarseLevel] leaves in every coarse
    right-hand-side entry [I] the sum (accumulated from zero in vertex
    order) of the pressure components of the fine vertices whose aggregate
    is [I] and not [ISOLATED]; isolated vertices add nothing, the coarse
    solution buffer is zero afterwards, and nothing else of the policy
    changes. *)
Theorem moveToCoarseLevel_aggregated (pol : Policy) (fine : list (VBlock F))
    (agg : list nat) :
  pressure_aggregation_ pol = true → aggregatesMap_ pol = Some agg →
  length fine ≤ length agg →
  Forall (λ b : VBlock F, COMPONENT_INDEX < length b) fine →
  (∀ v I, v < length fine → agg !! v = Some I → I ≠ ISOLATED →
          I < length (rhs_ pol)) →
  ∃ rhs,
    moveToCoarseLevel pol fine
    = Some (with_buffers pol (replicate (length (lhs_ pol)) fzero) rhs) ∧
    length rhs = length (rhs_ pol) ∧
    (∀ I, I < length (rhs_ pol) →
          rhs !! I = Some (foldl fadd fzero (restricted agg I fine))) ∧
    (∀ I, restricted agg ISOLATED fine = [] ∧
          ∀ x, x ∈ restricted agg I fine →
               ∃ v b, fine !! v = Some b ∧ agg !! v = Some I ∧ I ≠ ISOLATED ∧
                      b !! COMPONENT_INDEX = Some x).
Proof.
  intros Hmode Hagg Hlen Hfine Hrhs.
  destruct (restrict_aggregated_general agg (zeroed (rhs_ pol)) fine)
    as (rhs & Hrun & Hlen' & Hget); [done|done| |].
  { intros v I Hv HI Hiso. rewrite length_zeroed. by eapply Hrhs. }
  rewrite length_zeroed in Hlen'.
  exists rhs. split; [|split; [done|split]].
  - unfold moveToCoarseLevel. rewrite Hmode, Hagg. simpl. rewrite Hrun. simpl.
    by rewrite zeroed_replicate.
  - intros I HI. rewrite Hget, zeroed_lookup.
    by destruct (lookup_lt_is_Some_2 (rhs_ pol) I HI) as [x ->].
  - intros I. split.
    + apply restricted_isolated.
    + intros x Hx. unfold restricted in Hx.
      apply list_elem_of_omap in Hx as ([v b] & Hin & Hx). simpl in Hx.
      apply elem_of_indexed in Hin. case_decide as Hd; [|done].
      destruct Hd as [HI Hiso]. by exists v, b.
Qed.

(** X4: in direct-extraction mode [moveToCoarseLevel] copies the pressure
    component of fine vertex [v] into coarse right-hand-side entry [v],
    leaves zero in the entries beyond the fine vector, and zeroes the coarse
    solution buffer. *)
Theorem moveToCoarseLevel_direct (pol : Policy) (fine : list (VBlock F)) :
  pressure_aggregation_ pol = false →
  length fine ≤ length (rhs_ pol) →
  Forall (λ b : VBlock F, COMPONENT_INDEX < length b) fine →
  ∃ rhs,
    moveToCoarseLevel pol fine
    = Some (with_buffers pol (replicate (length (lhs_ pol)) fzero) rhs) ∧
    length rhs = length (rhs_ pol) ∧
    (∀ v b, fine !! v = Some b → rhs !! v = b !! COMPONENT_INDEX) ∧
    (∀ I, length fine ≤ I → I < length (rhs_ pol) → rhs !! I = Some fzero).
Proof.
  intros Hmode Hlen Hfine.
  destruct (restrict_direct (zeroed (rhs_ pol)) fine)
    as (rhs & Hrun & Hlen' & Hget & Hrest).
  { by rewrite length_zeroed. }
  { eapply Forall_impl; [exact Hfine|]. intros b Hb. simpl in *.
    by apply lookup_lt_is_Some_2. }
  rewrite length_zeroed in Hlen'.
  exists rhs. split; [|split; [done|split; [done|]]].
  - unfold moveToCoarseLevel. rewrite Hmode, Hrun. simpl.
    by rewrite zeroed_replicate.
  - intros I HI Hlt. rewrite (Hrest I HI), zeroed_lookup.
    by destruct (lookup_lt_is_Some_2 (rhs_ pol) I Hlt) as [x ->].
Qed.

Lemma for_each_insert_length {A : Type} (body : list F → A → option (list F))
    (l : list A) (rhs rhs' : list F) :
  (∀ r x r', body r x = Some r' → length r' = length r) →
  for_each body rhs l = Some rhs' → length rhs' = length rhs.
Proof.
  intros Hbody. revert rhs. induction l as [|x l IH]; intros rhs Hrun.
  - by injection Hrun as <-.
  - simpl in Hrun. destruct (body rhs x) as [r1|] eqn:H1; [|done]. simpl in Hrun.
    rewrite (IH _ Hrun). by eapply Hbody.
Qed.

Lemma moveToCoarseLevel_buffers (pol pol' : Policy) (fine : list (VBlock F)) :
  moveToCoarseLevel pol fine = Some pol' →
  pol' = with_buffers pol (zeroed (lhs_ pol)) (rhs_ pol') ∧
  length (rhs_ pol') = length (rhs_ pol).
Proof.
  unfold moveToCoarseLevel. intros Hrun.
  destruct (pressure_aggregation_ pol).
  - destruct (aggregatesMap_ pol) as [agg|]; [|done]. simpl in Hrun.
    match type of Hrun with context [for_each ?f ?r ?l] =>
      destruct (for_each f r l) as [rhs|] eqn:Hloop end; [|done].
    simpl in Hrun. injection Hrun as <-. split; [done|]. simpl.
    rewrite <- (length_zeroed (rhs_ pol)).
    eapply for_each_insert_length; [|exact Hloop].
    intros r [v b] r' Hbody. simpl in Hbody.
    destruct (agg !! v) as [I|]; [|done]. simpl in Hbody.
    case_decide; [|by injection Hbody as <-].
    destruct (b !! COMPONENT_INDEX); [|done]. simpl in Hbody.
    destruct (r !! I); [|done]. simpl in Hbody. injection Hbody as <-.
    by rewrite length_insert.
  - match type of Hrun with context [for_each ?f ?r ?l] =>
      destruct (for_each f r l) as [rhs|] eqn:Hloop end; [|done].
    simpl in Hrun. injection Hrun as <-. split; [done|]. simpl.
    rewrite <- (length_zeroed (rhs_ pol)).
    eapply for_each_insert_length; [|exact Hloop].
    intros r [v b] r' Hbody. simpl in Hbody.
    destruct (b !! COMPONENT_INDEX); [|done]. simpl in Hbody.
    destruct (r !! v); [|done]. simpl in Hbody. injection Hbody as <-.
    by rewrite length_insert.
Qed.

(** X5: [moveToCoarseLevel] starts from cleared buffers: its result depends
    on the sizes of the old coarse buffers only, not on their contents, and
    running it again on its own result with the same defect changes
    nothing. *)
Theorem moveToCoarseLevel_reset (pol pol1 : Policy) (fine : list (VBlock F))
    (lhs rhs : list F) :
  length lhs = length (lhs_ pol) → length rhs = length (rhs_ pol) →
  moveToCoarseLevel pol fine = Some pol1 →
  moveToCoarseLevel (with_buffers pol lhs rhs) fine = Some pol1 ∧
  moveToCoarseLevel pol1 fine = Some pol1.
Proof.
  intros Hlhs Hrhs Hrun.
  assert (∀ l r, length l = length (lhs_ pol) → length r = length (rhs_ pol) →
            moveToCoarseLevel (with_buffers pol l r) fine
            = moveToCoarseLevel pol fine) as Hreset.
  { intros l r Hl Hr. unfold moveToCoarseLevel. simpl.
    by rewrite !zeroed_replicate, Hl, Hr. }
  split; [by rewrite Hreset|].
  destruct (moveToCoarseLevel_buffers pol pol1 fine Hrun) as [Heq Hlen].
  rewrite Heq at 1. rewrite Hreset; [done|by rewrite length_zeroed|done].
Qed.

(** *** Restriction and prolongation in direct-extraction mode *)

Lemma moveToFineLevel_direct_Some (pol : Policy) (target : list (VBlock F)) :
  pressure_aggregation_ pol = false →
  length target ≤ length (lhs_ pol) →
  Forall (λ b : VBlock F, COMPONENT_INDEX < length b) target →
  ∃ out,
    moveToFineLevel pol target = Some (pol, out) ∧
    length out = length target ∧
    ∀ v t, target !! v = Some t →
      ∃ y, lhs_ pol !! v = Some y ∧ out !! v = Some (<[COMPONENT_INDEX := y]> t).
Proof.
  intros Hmode Hlen Htarget. unfold moveToFineLevel. rewrite Hmode.
  destruct (prolong_direct_loop (lhs_ pol) target Hlen Htarget)
    as (out & Hrun & Hlen' & Hpoint).
  rewrite Hrun. simpl. by exists out.
Qed.

Lemma moveToCoarseLevel_direct_Some (pol : Policy) (fine : list (VBlock F)) :
  pressure_aggregation_ pol = false →
  length fine ≤ length (rhs_ pol) →
  Forall (λ b : VBlock F, COMPONENT_INDEX < length b) fine →
  ∃ rhs,
    moveToCoarseLevel pol fine = Some (with_buffers pol (zeroed (lhs_ pol)) rhs) ∧
    length rhs = length (rhs_ pol) ∧
    (∀ v b, fine !! v = Some b → rhs !! v = b !! COMPONENT_INDEX) ∧
    (∀ I, length fine ≤ I → rhs !! I = zeroed (rhs_ pol) !! I).
Proof.
  intros Hmode Hlen Hfine.
  destruct (restrict_direct (zeroed (rhs_ pol)) fine)
    as (rhs & Hrun & Hlen' & Hget & Hrest).
  { by rewrite length_zeroed. }
  { eapply Forall_impl; [exact Hfine|]. intros b Hb. simpl in *.
    by apply lookup_lt_is_Some_2. }
  rewrite length_zeroed in Hlen'. exists rhs.
  split; [|done]. unfold moveToCoarseLevel. by rewrite Hmode, Hrun.
Qed.

(** X6: in direct-extraction mode, restricting an arbitrary defect and
    prolonging the restricted right-hand side onto any fine vector puts the
    pressure components of the defect into that vector and changes nothing
    else; onto the defect itself it gives the defect back. *)
Theorem direct_restrict_prolong (pol : Policy) (fine target : list (VBlock F)) :
  pressure_aggregation_ pol = false →
  length fine ≤ length (rhs_ pol) →
  Forall (λ b : VBlock F, COMPONENT_INDEX < length b) fine →
  length target ≤ length fine →
  Forall (λ b : VBlock F, COMPONENT_INDEX < length b) target →
  ∃ pol1 out,
    moveToCoarseLevel pol fine = Some pol1 ∧
    moveToFineLevel (with_buffers pol1 (rhs_ pol1) (rhs_ pol1)) target
    = Some (with_buffers pol1 (rhs_ pol1) (rhs_ pol1), out) ∧
    length out = length target ∧
    (∀ v b t, fine !! v = Some b → target !! v = Some t →
       ∃ y, b !! COMPONENT_INDEX = Some y ∧
            out !! v = Some (<[COMPONENT_INDEX := y]> t)) ∧
    (target = fine → out = fine).
Proof.
  intros Hmode Hlen Hfine Hlent Htarget.
  destruct (moveToCoarseLevel_direct_Some pol fine Hmode Hlen Hfine)
    as (rhs & Hrun & Hlenr & Hget & _).
  set (pol1 := with_buffers pol (zeroed (lhs_ pol)) rhs) in *.
  destruct (moveToFineLevel_direct_Some (with_buffers pol1 rhs rhs) target)
    as (out & Hout & Hleno & Hpoint); [done|simpl; lia|done|].
  assert (∀ v b t, fine !! v = Some b → target !! v = Some t →
            ∃ y, b !! COMPONENT_INDEX = Some y ∧
                 out !! v = Some (<[COMPONENT_INDEX := y]> t)) as Hspec.
  { intros v b t Hb Ht. destruct (Hpoint v t Ht) as (y & Hy & Hv).
    simpl in Hy. rewrite (Hget v b Hb) in Hy. by exists y. }
  exists pol1, out. split; [done|]. split; [exact Hout|]. split; [done|].
  split; [exact Hspec|].
  intros ->. apply list_eq. intros v.
  destruct (fine !! v) as [b|] eqn:Hb.
  - destruct (Hspec v b b Hb Hb) as (y & Hy & ->). by rewrite list_insert_id.
  - apply lookup_ge_None. rewrite Hleno. by apply lookup_ge_None.
Qed.

(** X7: in direct-extraction mode with coarse buffers as long as the fine
    vector, prolonging the coarse solution and restricting the result
    returns that coarse solution as right-hand side. *)
Theorem direct_prolong_restrict (pol : Policy) (fine : list (VBlock F)) :
  pressure_aggregation_ pol = false →
  length fine = length (lhs_ pol) → length (rhs_ pol) = length (lhs_ pol) →
  Forall (λ b : VBlock F, COMPONENT_INDEX < length b) fine →
  ∃ fine' pol',
    moveToFineLevel pol fine = Some (pol, fine') ∧
    moveToCoarseLevel pol fine' = Some pol' ∧
    rhs_ pol' = lhs_ pol.
Proof.
  intros Hmode Hlen Hlenr Hfine.
  destruct (moveToFineLevel_direct_Some pol fine Hmode) as (fine' & Hrun & Hlen' & Hpoint);
    [lia|done|].
  assert (Forall (λ b : VBlock F, COMPONENT_INDEX < length b) fine') as Hfine'.
  { apply Forall_lookup_2. intros v b' Hv.
    destruct (lookup_lt_is_Some_2 fine v) as [b Hb].
    { rewrite <- Hlen'. by eapply lookup_lt_Some. }
    destruct (Hpoint v b Hb) as (y & _ & Hb'). rewrite Hv in Hb'.
    injection Hb' as ->. rewrite length_insert.
    exact (Forall_lookup_1 _ _ _ _ Hfine Hb). }
  destruct (moveToCoarseLevel_direct_Some pol fine' Hmode) as (rhs & Hrun2 & Hlenr2 & Hget & _);
    [lia|done|].
  eexists fine', _. split; [done|]. split; [exact Hrun2|]. simpl.
  apply list_eq. intros v. destruct (fine !! v) as [b|] eqn:Hb.
  - destruct (Hpoint v b Hb) as (y & Hy & Hb'). rewrite (Hget v _ Hb'), Hy.
    apply list_lookup_insert_eq. exact (Forall_lookup_1 _ _ _ _ Hfine Hb).
  - apply lookup_ge_None in Hb.
    rewrite (proj2 (lookup_ge_None rhs v)) by lia.
    symmetry. apply lookup_ge_None. lia.
Qed.

(** X8: in direct-extraction mode the result of [moveToFineLevel] does not
    depend on the pressure components the fine vector holds on entry: two
    vectors that agree in every other component give the same result, so
    applying it a second time changes nothing. *)
Theorem moveToFineLevel_direct_overwrites (pol : Policy) (fine : list (VBlock F)) :
  pressure_aggregation_ pol = false →
  length fine ≤ length (lhs_ pol) →
  Forall (λ b : VBlock F, COMPONENT_INDEX < length b) fine →
  ∃ fine',
    moveToFineLevel pol fine = Some (pol, fine') ∧
    (∀ fine2,
       Forall2 (λ b b2 : VBlock F,
                  length b2 = length b ∧
                  ∀ i, i ≠ COMPONENT_INDEX → b2 !! i = b !! i) fine fine2 →
       moveToFineLevel pol fine2 = Some (pol, fine')) ∧
    moveToFineLevel pol fine' = Some (pol, fine').
Proof.
  intros Hmode Hlen Hfine.
  destruct (moveToFineLevel_direct_Some pol fine Hmode Hlen Hfine)
    as (fine' & Hrun & Hlen' & Hpoint).
  assert (∀ fine2,
            Forall2 (λ b b2 : VBlock F,
                       length b2 = length b ∧
                       ∀ i, i ≠ COMPONENT_INDEX → b2 !! i = b !! i) fine fine2 →
            moveToFineLevel pol fine2 = Some (pol, fine')) as Hindep.
  { intros fine2 Hagree.
    pose proof (Forall2_length _ _ _ Hagree) as Hlen2.
    destruct (moveToFineLevel_direct_Some pol fine2 Hmode)
      as (out & Hrun2 & Hleno & Hpoint2); [lia| |].
    { apply Forall_lookup_2. intros v b2 Hb2.
      destruct (Forall2_lookup_r _ _ _ _ _ Hagree Hb2) as (b & Hb & Hlenb & _).
      rewrite Hlenb. exact (Forall_lookup_1 _ _ _ _ Hfine Hb). }
    rewrite Hrun2. do 2 f_equal. apply list_eq. intros v.
    destruct (fine2 !! v) as [b2|] eqn:Hb2.
    - destruct (Forall2_lookup_r _ _ _ _ _ Hagree Hb2) as (b & Hb & Hlenb & Hother).
      destruct (Hpoint v b Hb) as (y & Hy & ->).
      destruct (Hpoint2 v b2 Hb2) as (y2 & Hy2 & ->).
      rewrite Hy in Hy2. injection Hy2 as <-. f_equal.
      apply list_eq. intros i. destruct (decide (i = COMPONENT_INDEX)) as [->|Hi].
      + pose proof (Forall_lookup_1 _ _ _ _ Hfine Hb) as Hp. simpl in Hp.
        rewrite !list_lookup_insert_eq by lia. done.
      + rewrite !list_lookup_insert_ne by done. by apply Hother.
    - apply lookup_ge_None in Hb2.
      rewrite (proj2 (lookup_ge_None out v)) by lia.
      symmetry. apply lookup_ge_None. lia. }
  exists fine'. split; [done|]. split; [exact Hindep|].
  apply Hindep. apply Forall2_same_length_lookup_2; [done|].
  intros v b b' Hb Hb'. destruct (Hpoint v b Hb) as (y & _ & Hv).
  rewrite Hb' in Hv. injection Hv as ->. split; [by rewrite length_insert|].
  intros i Hi. by rewrite list_lookup_insert_ne.
Qed.

(** *** Repeated prolongation in aggregation mode *)

Lemma with_buffers_id (pol : Policy) : with_buffers pol (lhs_ pol) (rhs_ pol) = pol.
Proof. by destruct pol. Qed.

Lemma moveToFineLevel_aggregated_Some (pol : Policy) (fine : list (VBlock F))
    (damp : F) (agg : list nat) :
  pressure_aggregation_ pol = true →
  prolongDamp_ pol = Some damp → aggregatesMap_ pol = Some agg →
  length fine ≤ length agg →
  Forall (λ b : VBlock F, COMPONENT_INDEX < length b) fine →
  (∀ v I, v < length fine → agg !! v = Some I → I ≠ ISOLATED →
          I < length (lhs_ pol)) →
  ∃ acc,
    moveToFineLevel pol fine
    = Some (with_buffers pol ((λ x, fmul x damp) <$> lhs_ pol) (rhs_ pol),
            copyOwnerToAll (communication_ pol) acc) ∧
    length acc = length fine ∧
    ∀ v b, fine !! v = Some b →
      ∃ I, agg !! v = Some I ∧
        if decide (I ≠ ISOLATED)
        then ∃ x y, b !! COMPONENT_INDEX = Some x ∧ lhs_ pol !! I = Some y ∧
                    acc !! v = Some (<[COMPONENT_INDEX := fadd x (fmul y damp)]> b)
        else acc !! v = Some b.
Proof.
  intros Hmode Hdamp Hagg Hlen Hfine Hlhs.
  unfold moveToFineLevel. rewrite Hmode, Hdamp, Hagg. simpl.
  destruct (prolong_aggregated_loop agg ((λ x, fmul x damp) <$> lhs_ pol) fine)
    as (acc & Hrun & Hacclen & Hacc); [done|done| |].
  { intros v I Hv HI Hiso. rewrite length_fmap. by eapply Hlhs. }
  rewrite Hrun. simpl. exists acc. split; [done|]. split; [done|].
  intros v b Hv. destruct (Hacc v b Hv) as (I & HI & Hcase).
  exists I. split; [done|]. case_decide as Hiso; [|done].
  destruct Hcase as (x & y' & Hx & Hy' & Hv').
  rewrite list_lookup_fmap in Hy'.
  destruct (lhs_ pol !! I) as [y|]; [|done]. simpl in Hy'.
  injection Hy' as <-. by exists x, y.
Qed.

(** X9: in aggregation mode with damping factor one ([x * 1 = x]) and a
    communication whose [copyOwnerToAll] changes nothing, [moveToFineLevel]
    leaves the policy as it was and accumulates: a second call adds the
    coarse solution to every non-isolated vertex a second time, and an
    isolated vertex keeps its block through both calls. *)
Theorem moveToFineLevel_aggregated_twice (pol : Policy) (fine : list (VBlock F))
    (agg : list nat) :
  (∀ x, fmul x fone = x) →
  (∀ vector, copyOwnerToAll (communication_ pol) vector = vector) →
  pressure_aggregation_ pol = true →
  prolongDamp_ pol = Some fone → aggregatesMap_ pol = Some agg →
  length fine ≤ length agg →
  Forall (λ b : VBlock F, COMPONENT_INDEX < length b) fine →
  (∀ v I, v < length fine → agg !! v = Some I → I ≠ ISOLATED →
          I < length (lhs_ pol)) →
  ∃ fine1 fine2,
    moveToFineLevel pol fine = Some (pol, fine1) ∧
    moveToFineLevel pol fine1 = Some (pol, fine2) ∧
    ∀ v b, fine !! v = Some b →
      ∃ I, agg !! v = Some I ∧
        if decide (I ≠ ISOLATED)
        then ∃ x y, b !! COMPONENT_INDEX = Some x ∧ lhs_ pol !! I = Some y ∧
                    fine1 !! v = Some (<[COMPONENT_INDEX := fadd x y]> b) ∧
                    fine2 !! v = Some (<[COMPONENT_INDEX := fadd (fadd x y) y]> b)
        else fine1 !! v = Some b ∧ fine2 !! v = Some b.
Proof.
  intros Hmul Hcopy Hmode Hdamp Hagg Hlen Hfine Hlhs.
  assert ((λ x, fmul x fone) <$> lhs_ pol = lhs_ pol) as Hsame.
  { rewrite <- (list_fmap_id (lhs_ pol)) at 2. apply list_fmap_ext.
    intros _ x _. apply Hmul. }
  destruct (moveToFineLevel_aggregated_Some pol fine fone agg)
    as (fine1 & Hrun1 & Hlen1 & Hpoint1); try done.
  rewrite Hsame, with_buffers_id, Hcopy in Hrun1.
  assert (Forall (λ b : VBlock F, COMPONENT_INDEX < length b) fine1) as Hfine1.
  { apply Forall_lookup_2. intros v b1 Hv.
    destruct (lookup_lt_is_Some_2 fine v) as [b Hb].
    { rewrite <- Hlen1. by eapply lookup_lt_Some. }
    pose proof (Forall_lookup_1 _ _ _ _ Hfine Hb) as Hp. simpl in Hp.
    destruct (Hpoint1 v b Hb) as (I & _ & Hcase). case_decide.
    - destruct Hcase as (x & y & _ & _ & Hb1). rewrite Hv in Hb1.
      injection Hb1 as ->. by rewrite length_insert.
    - rewrite Hv in Hcase. by injection Hcase as ->. }
  destruct (moveToFineLevel_aggregated_Some pol fine1 fone agg)
    as (fine2 & Hrun2 & Hlen2 & Hpoint2); try done.
  { lia. }
  { intros v I Hv. apply Hlhs. lia. }
  rewrite Hsame, with_buffers_id, Hcopy in Hrun2.
  exists fine1, fine2. split; [done|]. split; [done|].
  intros v b Hb. destruct (Hpoint1 v b Hb) as (I & HI & Hcase1).
  exists I. split; [done|].
  pose proof (Forall_lookup_1 _ _ _ _ Hfine Hb) as Hp. simpl in Hp.
  case_decide as Hiso.
  - destruct Hcase1 as (x & y & Hx & Hy & Hb1).
    destruct (Hpoint2 v _ Hb1) as (I' & HI' & Hcase2).
    rewrite HI in HI'. injection HI' as <-. rewrite decide_True in Hcase2 by done.
    destruct Hcase2 as (x2 & y2 & Hx2 & Hy2 & Hb2).
    rewrite list_lookup_insert_eq in Hx2 by done. injection Hx2 as <-.
    rewrite Hy in Hy2. injection Hy2 as <-.
    rewrite list_insert_insert_eq in Hb2. rewrite !Hmul in *.
    by exists x, y.
  - destruct (Hpoint2 v b Hcase1) as (I' & HI' & Hcase2).
    rewrite HI in HI'. injection HI' as <-.
    destruct (decide (I ≠ ISOLATED)); [done|]. by split.
Qed.

(** *** Re-running [calculateCoarseEntries] *)

Lemma for_each_invariant {A St V : Type} (f : St → V) (body : St → A → option St)
    (l : list A) (s s' : St) :
  (∀ s x s1, body s x = Some s1 → f s1 = f s) →
  for_each body s l = Some s' → f s' = f s.
Proof.
  intros Hbody. revert s. induction l as [|x l IH]; intros s Hrun.
  - by injection Hrun as <-.
  - simpl in Hrun. destruct (body s x) as [s1|] eqn:H1; [|done]. simpl in Hrun.
    rewrite (IH _ Hrun). by eapply Hbody.
Qed.

Lemma entry_add_shape (i j : nat) (v : F) (m m' : BCRSMatrix F) :
  entry_add i j v m = Some m' → shape m' = shape m.
Proof.
  unfold entry_add. intros Hadd.
  destruct (mat_rows m !! i) as [row|] eqn:Hrow; [|done]. simpl in Hadd.
  destruct (find_col j (fst <$> row)) as [k|]; [|done]. simpl in Hadd.
  destruct (row !! k) as [e|] eqn:He; [|done]. simpl in Hadd.
  injection Hadd as <-. unfold shape, pattern. simpl. do 2 f_equal.
  rewrite list_fmap_insert. apply list_insert_id.
  rewrite list_lookup_fmap, Hrow. simpl. f_equal.
  rewrite list_fmap_insert. simpl. symmetry. apply list_insert_id.
  by rewrite list_lookup_fmap, He.
Qed.

Lemma calculateCoarseEntries_shape (agg : list nat) (coarse coarse' : BCRSMatrix F)
    (fine : BCRSMatrix (Block F)) :
  calculateCoarseEntries agg coarse fine = Some coarse' → shape coarse' = shape coarse.
Proof.
  unfold calculateCoarseEntries. intros Hrun.
  apply (for_each_invariant shape) in Hrun.
  - rewrite Hrun. unfold shape. by rewrite pattern_map_blocks.
  - intros m [r row] m1 Hbody. simpl in Hbody.
    destruct (agg !! r) as [i|]; [|done]. simpl in Hbody.
    case_decide; [|by injection Hbody as <-].
    apply (for_each_invariant shape) in Hbody; [done|].
    intros m2 [c B] m3 Hentry. simpl in Hentry.
    destruct (agg !! c) as [j|]; [|done]. simpl in Hentry.
    case_decide; [|by injection Hentry as <-].
    destruct (block_get B COMPONENT_INDEX COMPONENT_INDEX) as [v|]; [|done].
    simpl in Hentry. by eapply entry_add_shape.
Qed.

Lemma zero_matrix_shape (m1 m2 : BCRSMatrix F) :
  shape m1 = shape m2 →
  map_blocks (λ _ : F, fzero) m1 = map_blocks (λ _ : F, fzero) m2.
Proof.
  destruct m1 as [N1 M1 rows1], m2 as [N2 M2 rows2].
  unfold shape, pattern, map_blocks. simpl. intros [= Hpat -> ->]. f_equal.
  revert rows2 Hpat. induction rows1 as [|row1 rows1 IH]; intros [|row2 rows2] Hpat;
    try done.
  injection Hpat as Hrow Hpat. csimpl. f_equal; [|by apply IH].
  clear IH Hpat. revert row2 Hrow.
  induction row1 as [|[c1 x1] row1 IH]; intros [|[c2 x2] row2] Hrow; try done.
  injection Hrow as -> Hrow. csimpl. f_equal. by apply IH.
Qed.

(** X10: [calculateCoarseEntries] starts by zeroing the coarse matrix, so
    its result depends on the pattern and the dimensions of the coarse
    matrix only, it keeps both, and running it again on its own result gives
    that result again: entries are not accumulated across calls. *)
Theorem calculateCoarseEntries_rerun (agg : list nat) (coarse coarse2 coarse' : BCRSMatrix F)
    (fine : BCRSMatrix (Block F)) :
  pattern coarse2 = pattern coarse →
  mat_N coarse2 = mat_N coarse → mat_M coarse2 = mat_M coarse →
  calculateCoarseEntries agg coarse fine = Some coarse' →
  calculateCoarseEntries agg coarse2 fine = Some coarse' ∧
  pattern coarse' = pattern coarse ∧
  mat_N coarse' = mat_N coarse ∧ mat_M coarse' = mat_M coarse ∧
  calculateCoarseEntries agg coarse' fine = Some coarse'.
Proof.
  intros Hpat HN HM Hrun.
  assert (∀ c, shape c = shape coarse →
            calculateCoarseEntries agg c fine = Some coarse') as Hsame.
  { intros c Hc. unfold calculateCoarseEntries in *.
    by rewrite (zero_matrix_shape c coarse Hc). }
  pose proof (calculateCoarseEntries_shape agg coarse coarse' fine Hrun) as Hshape.
  split; [apply Hsame; unfold shape; congruence|].
  injection Hshape as Hp' HN' HM'. repeat (split; [done|]).
  apply Hsame. unfold shape. congruence.
Qed.

(** *** [createCoarseLevelSystem] in aggregation mode *)

Lemma calculateCoarseEntries_Some (agg : list nat) (coarse : BCRSMatrix F)
    (fine : BCRSMatrix (Block F)) :
  COMPONENT_INDEX < ROWS → COMPONENT_INDEX < COLS → matrix_wf fine →
  length (mat_rows fine) ≤ length agg →
  Forall (λ e : nat * nat * Block F, e.1.2 < length agg) (entries fine) →
  Forall (λ e : nat * nat * Block F,
            ∀ i j, agg !! e.1.1 = Some i → agg !! e.1.2 = Some j →
                   i ≠ ISOLATED → j ≠ ISOLATED → is_Some (mat_get coarse i j))
         (entries fine) →
  ∃ coarse',
    calculateCoarseEntries agg coarse fine = Some coarse' ∧
    shape coarse' = shape coarse ∧
    ∀ I J, is_Some (mat_get coarse I J) →
      mat_get coarse' I J = Some (foldl fadd fzero (contributions agg fine I J)).
Proof.
  intros Hp Hq Hwf Hrows Hcols Hpat.
  rewrite Forall_forall in Hcols. rewrite Forall_forall in Hpat.
  destruct (coarse_rows_loop agg (indexed (mat_rows fine)) Hp Hq)
    with (m := map_blocks (λ _ : F, fzero) coarse) as (coarse' & Hrun & Hacc).
  - apply Forall_forall. intros [r row] Hin.
    pose proof Hin as Hrow. apply elem_of_indexed in Hrow. simpl.
    split; [apply lookup_lt_Some in Hrow; lia|].
    apply Forall_forall. intros [c B] He. simpl. split.
    + pose proof (Forall_lookup_1 _ _ _ _ Hwf Hrow) as Hr.
      rewrite Forall_forall in Hr. by apply (Hr (c, B)).
    + apply (Hcols (r, c, B)). by apply (elem_of_entries _ (r, row) (c, B)).
  - intros [r row] [c B] i j Hin He Hi Hj Hiso Hjso. simpl in *.
    rewrite mat_get_map_blocks. apply fmap_is_Some.
    apply (Hpat (r, c, B)); try done.
    by apply (elem_of_entries _ (r, row) (c, B)).
  - exists coarse'. split; [exact Hrun|].
    split; [by eapply calculateCoarseEntries_shape|].
    destruct Hacc as (_ & _ & _ & Hget).
    intros I J [x Hx]. by rewrite Hget, mat_get_map_blocks, Hx.
Qed.

Lemma find_col_elem_of (j : nat) (cols : list nat) :
  j ∈ cols → is_Some (find_col j cols).
Proof.
  induction 1 as [c cols|c j' cols _ IH]; simpl.
  - by rewrite decide_True.
  - destruct (decide (j' = c)); [done|]. by apply fmap_is_Some.
Qed.

Lemma fst_blank_row (cols : list nat) : fst <$> blank_row cols = cols.
Proof.
  unfold blank_row. rewrite <- list_fmap_compose.
  rewrite <- (list_fmap_id cols) at 2. by apply list_fmap_ext.
Qed.

Lemma pattern_blank (n k : nat) (pat : list (list nat)) :
  pattern (mkBCRS n k (blank_row <$> pat)) = pat.
Proof.
  unfold pattern. simpl. rewrite <- list_fmap_compose.
  rewrite <- (list_fmap_id pat) at 2. apply list_fmap_ext.
  intros _ cols _. apply fst_blank_row.
Qed.

Lemma mat_get_blank (n k : nat) (pat : list (list nat)) (i j : nat) (cols : list nat) :
  pat !! i = Some cols → j ∈ cols →
  is_Some (mat_get (mkBCRS n k (blank_row <$> pat)) i j).
Proof.
  intros Hi Hj. unfold mat_get. simpl. rewrite list_lookup_fmap, Hi. simpl.
  rewrite fst_blank_row.
  destruct (find_col_elem_of j cols Hj) as [pos Hpos]. rewrite Hpos. simpl.
  apply find_col_Some in Hpos. unfold blank_row.
  by rewrite list_lookup_fmap, Hpos.
Qed.

(** X11: in aggregation mode [createCoarseLevelSystem] takes the aggregates
    map, the coarse communication, the number of aggregates and the coarse
    pattern from the aggregation, and builds a square coarse matrix of that
    size and pattern whose entry [(I, J)] is the sum of the fine
    pressure-pressure components between aggregates [I] and [J]; the
    damping factor is set to one and both coarse buffers are resized to that
    size, keeping the entries they held below it. *)
Theorem createCoarseLevelSystem_aggregated (pol : Policy)
    (fine : BCRSMatrix (Block F)) (a : Aggregation) :
  pressure_aggregation_ pol = true →
  dune_aggregation fine (criterion_ pol) (communication_ pol) = a →
  COMPONENT_INDEX < ROWS → COMPONENT_INDEX < COLS → matrix_wf fine →
  length (mat_rows fine) ≤ length (agg_map a) →
  Forall (λ e : nat * nat * Block F, e.1.2 < length (agg_map a)) (entries fine) →
  Forall (λ e : nat * nat * Block F,
            ∀ i j, agg_map a !! e.1.1 = Some i → agg_map a !! e.1.2 = Some j →
                   i ≠ ISOLATED → j ≠ ISOLATED →
                   ∃ cols, agg_pattern a !! i = Some cols ∧ j ∈ cols)
         (entries fine) →
  ∃ pol' coarse,
    createCoarseLevelSystem pol fine = Some pol' ∧
    coarseLevelMatrix_ pol' = Some coarse ∧
    operator_ pol' = Some (mkCoarseOperator coarse (agg_comm a)) ∧
    aggregatesMap_ pol' = Some (agg_map a) ∧
    coarseLevelCommunication_ pol' = Some (agg_comm a) ∧
    prolongDamp_ pol' = Some fone ∧
    mat_N coarse = agg_count a ∧ mat_M coarse = agg_count a ∧
    pattern coarse = agg_pattern a ∧
    length (lhs_ pol') = agg_count a ∧ length (rhs_ pol') = agg_count a ∧
    (∀ i, i < agg_count a → i < length (lhs_ pol) → lhs_ pol' !! i = lhs_ pol !! i) ∧
    (∀ i, i < agg_count a → i < length (rhs_ pol) → rhs_ pol' !! i = rhs_ pol !! i) ∧
    ∀ I J cols, agg_pattern a !! I = Some cols → J ∈ cols →
      mat_get coarse I J
      = Some (foldl fadd fzero (contributions (agg_map a) fine I J)).
Proof.
  intros Hmode Ha Hp Hq Hwf Hrows Hcols Hpat.
  set (blank := mkBCRS (agg_count a) (agg_count a) (blank_row <$> agg_pattern a)).
  destruct (calculateCoarseEntries_Some (agg_map a) blank fine)
    as (coarse & Hrun & Hshape & Hsum); try done.
  { eapply Forall_impl; [exact Hpat|]. intros e He i j Hi Hj Hiso Hjso.
    destruct (He i j Hi Hj Hiso Hjso) as (cols & Hrow & Hin).
    by eapply mat_get_blank. }
  unfold createCoarseLevelSystem. rewrite Hmode, Ha. fold blank.
  rewrite Hrun. simpl.
  injection Hshape as Hpattern HN HM. unfold blank in Hpattern.
  rewrite pattern_blank in Hpattern. simpl in HN, HM.
  eexists _, coarse. split; [done|]. simpl. rewrite HN, HM.
  do 8 (split; [done|]).
  split; [apply length_resize|]. split; [apply length_resize|].
  split; [intros i Hi Hold; by apply resize_lookup_old|].
  split; [intros i Hi Hold; by apply resize_lookup_old|].
  intros I J cols HI HJ. apply Hsum. by eapply mat_get_blank.
Qed.

(** *** From the transfer policy to the coarse solver *)

(** X12: a policy on which [createCoarseLevelSystem] has not run has no
    coarse operator, and [createCoarseLevelSolver] fails on it; after
    [createCoarseLevelSystem] in direct-extraction mode it returns an inverse
    operator over exactly the extracted coarse matrix and the communication
    of the fine level, records that coarse operator in the solver policy,
    and [apply] on the inverse operator returns a result. *)
Theorem createCoarseLevelSolver_after_direct (pol : Policy) (csp : CoarseSolverPolicy)
    (fine : BCRSMatrix (Block F)) (x b : list F) (reduction : double) (res : Result) :
  pressure_aggregation_ pol = false →
  bcrs_wf fine → matrix_wf fine →
  COMPONENT_INDEX < ROWS → COMPONENT_INDEX < COLS →
  createCoarseLevelSolver csp
    (Policy_new (criterion_ pol) (communication_ pol) (pressure_aggregation_ pol))
  = None ∧
  ∃ pol' coarse csp' inv,
    createCoarseLevelSystem pol fine = Some pol' ∧
    coarseLevelMatrix_ pol' = Some coarse ∧
    createCoarseLevelSolver csp pol' = Some (csp', inv) ∧
    op_ inv = mkCoarseOperator coarse (communication_ pol) ∧
    comm_ inv = communication_ pol ∧
    inv_param_ inv = csp_param_ csp ∧
    coarseOperator_ csp' = Some (op_ inv) ∧
    (is_Some (amg_ inv) ↔ cpr_use_amg_ (csp_param_ csp) = true) ∧
    (is_Some (smoother_ inv) ↔ cpr_use_amg_ (csp_param_ csp) = false) ∧
    is_Some (AMGInverseOperator_apply inv x b reduction res).
Proof.
  intros Hmode Hb Hwf Hp Hq. split; [done|].
  unfold createCoarseLevelSystem.
  rewrite Hmode, (extractComponent_Some fine Hb Hwf Hp Hq). simpl.
  eexists _, _, _, _. split; [done|]. simpl. split; [done|].
  unfold createCoarseLevelSolver. simpl. split; [done|].
  unfold AMGInverseOperator_new, AMGInverseOperator_apply.
  destruct (cpr_use_amg_ (csp_param_ csp)) eqn:Hamg; simpl.
  - do 4 (split; [done|]).
    split; [split; [done|by eexists]|].
    split; [split; [by intros [? ?]|done]|].
    by destruct (cpr_use_bicgstab_ (csp_param_ csp)).
  - do 4 (split; [done|]).
    split; [split; [by intros [? ?]|done]|].
    split; [split; [done|by eexists]|].
    by destruct (cpr_use_bicgstab_ (csp_param_ csp)).
Qed.

(** X13: on an inverse operator made by its constructor, [apply] runs
    BiCGSTAB exactly when [cpr_use_bicgstab_] is set and CG otherwise,
    preconditioned by the AMG built from the coarse operator exactly when
    [cpr_use_amg_] is set and otherwise by the smoother built from the coarse
    matrix, with [cpr_max_ell_iter_] iterations; the solver is verbose only
    where the flag is set and the rank is zero. *)
Theorem AMGInverseOperator_apply_constructed (param : CPRParameter double)
    (op : CoarseOperator) (crit : Criterion) (args : SmootherArgs) (comm : Comm)
    (x b : list F) (reduction : double) (res : Result) :
  ∃ verbosity,
    AMGInverseOperator_apply (AMGInverseOperator_new param op crit args comm)
      x b reduction res
    = Some ((if cpr_use_bicgstab_ param then BiCGSTABSolver_apply else CGSolver_apply)
              op (createScalarProduct comm)
              (if cpr_use_amg_ param
               then PrecAMG (AMGType_new op crit args comm)
               else PrecSmoother (Smoother_construct (cop_matrix op) comm args))
              (cpr_solver_tol_ param) (cpr_max_ell_iter_ param) verbosity x b res) ∧
    (verbosity = 1%Z ↔ cpr_solver_verbose_ param = true ∧ rank comm = 0) ∧
    (verbosity = 0%Z ↔ ¬ (cpr_solver_verbose_ param = true ∧ rank comm = 0)).
Proof.
  exists (if cpr_solver_verbose_ param && bool_decide (rank comm = 0)
          then 1%Z else 0%Z).
  split.
  - unfold AMGInverseOperator_apply, AMGInverseOperator_new.
    destruct (cpr_use_amg_ param); simpl; by destruct (cpr_use_bicgstab_ param).
  - destruct (cpr_solver_verbose_ param); simpl; [case_bool_decide as Hrank|].
    + split; split.
      * by intros _.
      * by intros _.
      * by intros ?.
      * intros Hnot. destruct Hnot. by split.
    + split; split.
      * by intros ?.
      * by intros [_ ?].
      * by intros _ [_ ?].
      * by intros _.
    + split; split.
      * by intros ?.
      * by intros [? _].
      * by intros _ [? _].
      * by intros _.
Qed.

(** *** [BlackoilAmg]: construction and repeated application *)

Lemma BlackoilAmg_apply_Some (μ : gmap loc (list (VBlock F))) (amg : BlackoilAmgT)
    (v d : loc) (defect correction : list (VBlock F)) :
  μ !! d = Some defect → μ !! v = Some correction →
  Forall vblock_wf defect → COMPONENT_INDEX < ROWS →
  BlackoilAmg_apply μ amg v d
  = let r := TwoLevelMethod_apply (twoLevelMethod_ amg) correction
               (combine_components COMPONENT_INDEX <$> defect) in
    Some (<[v := r.2]> μ, with_method amg r.1).
Proof.
  intros Hd Hv Hwf Hp.
  pose proof (fresh_lookup_None μ) as Hfresh.
  set (l := fresh (dom μ)) in *.
  assert (l ≠ v) as Hlv by (intros ->; congruence).
  unfold BlackoilAmg_apply. rewrite Hd. simpl. fold l.
  rewrite lookup_insert_eq. simpl.
  rewrite (scaleVector_combine COMPONENT_INDEX defect Hwf Hp). simpl.
  rewrite insert_insert_eq. rewrite (lookup_insert_ne _ l v) by exact Hlv.
  rewrite Hv. simpl. rewrite lookup_insert_eq. simpl.
  destruct (TwoLevelMethod_apply _ _ _) as [method correction']. simpl.
  do 2 f_equal. apply map_eq. intros i.
  destruct (decide (i = l)) as [->|Hil].
  - rewrite lookup_delete_eq. rewrite lookup_insert_ne by done. by rewrite Hfresh.
  - rewrite lookup_delete_ne by done.
    destruct (decide (i = v)) as [->|Hiv].
    + by rewrite !lookup_insert_eq.
    + rewrite !lookup_insert_ne by done. done.
Qed.

(** X14: [apply] may be repeated with the same defect: the store after a
    call is the store before it with only the correction replaced (no
    temporary is left behind), and the second call hands the two-level
    method the same once-scaled defect as the first, together with the
    correction the first call produced; the members other than the two-level
    method do not change. *)
Theorem BlackoilAmg_apply_twice (μ : gmap loc (list (VBlock F))) (amg : BlackoilAmgT)
    (v d : loc) (defect correction : list (VBlock F)) :
  μ !! d = Some defect → μ !! v = Some correction → v ≠ d →
  Forall vblock_wf defect → COMPONENT_INDEX < ROWS →
  ∃ scaledD,
    scaleVectorQuasiImpes COMPONENT_INDEX defect = Some scaledD ∧
    let r1 := TwoLevelMethod_apply (twoLevelMethod_ amg) correction scaledD in
    let r2 := TwoLevelMethod_apply r1.1 r1.2 scaledD in
    BlackoilAmg_apply μ amg v d = Some (<[v := r1.2]> μ, with_method amg r1.1) ∧
    BlackoilAmg_apply (<[v := r1.2]> μ) (with_method amg r1.1) v d
    = Some (<[v := r2.2]> μ, with_method amg r2.1) ∧
    dom (<[v := r2.2]> μ) = dom μ ∧
    <[v := r2.2]> μ !! d = Some defect.
Proof.
  intros Hd Hv Hvd Hwf Hp.
  exists (combine_components COMPONENT_INDEX <$> defect).
  split; [by apply scaleVector_combine|]. simpl.
  split; [by apply BlackoilAmg_apply_Some|]. split.
  - rewrite (BlackoilAmg_apply_Some _ _ v d defect
               (TwoLevelMethod_apply (twoLevelMethod_ amg) correction
                  (combine_components COMPONENT_INDEX <$> defect)).2);
      [|by rewrite lookup_insert_ne|by rewrite lookup_insert_eq|done|done].
    simpl. by rewrite insert_insert_eq.
  - split; [|by rewrite lookup_insert_ne].
    apply dom_insert_lookup_L. by eexists.
Qed.

(** X15: when the correction and the defect are the same vector, [apply]
    still hands the two-level method the scaled copy of the defect as it was
    on entry (and that defect as the correction to update), but the vector
    ends up holding the correction, so the defect is lost. *)
Theorem BlackoilAmg_apply_aliased (μ : gmap loc (list (VBlock F))) (amg : BlackoilAmgT)
    (d : loc) (defect : list (VBlock F)) :
  μ !! d = Some defect → Forall vblock_wf defect → COMPONENT_INDEX < ROWS →
  ∃ scaledD μ' amg',
    scaleVectorQuasiImpes COMPONENT_INDEX defect = Some scaledD ∧
    BlackoilAmg_apply μ amg d d = Some (μ', amg') ∧
    (twoLevelMethod_ amg', μ' !! d)
    = prod_map id Some (TwoLevelMethod_apply (twoLevelMethod_ amg) defect scaledD) ∧
    ∀ l, l ≠ d → μ' !! l = μ !! l.
Proof.
  intros Hd Hwf Hp.
  eexists _, _, _. split; [by apply scaleVector_combine|].
  split; [by apply (BlackoilAmg_apply_Some μ amg d d defect defect)|]. simpl.
  split.
  - rewrite lookup_insert_eq. by destruct (TwoLevelMethod_apply _ _ _).
  - intros l Hl. by rewrite lookup_insert_ne.
Qed.


(** *** The overlap vertices and the visited flags *)

Section coarse_pattern_properties.

Context {Attribute : Type}.
Variable UNAGGREGATED : nat.
Variable std_sort :
  (OverlapVertex → OverlapVertex → bool) → list OverlapVertex → list OverlapVertex.
Variable globalLookup : Comm → nat → option (nat * Attribute).
Variable examine_overlapping :
  list nat → list bool → Comm → list nat → (Attribute → bool) →
  list (option OverlapVertex) → list (list nat).
Variable examine_sequential :
  list nat → list bool → SequentialInformation → list nat → list (list nat).

(** What is used of [std::sort] with a comparison of keys: it permutes the
    range into non-decreasing order. *)
Hypothesis std_sort_sorts : ∀ (key : OverlapVertex → nat) (l : list OverlapVertex),
  std_sort (λ v1 v2, bool_decide (key v1 < key v2)) l ≡ₚ l ∧
  StronglySorted (λ v1 v2, key v1 ≤ key v2)
    (std_sort (λ v1 v2, bool_decide (key v1 < key v2)) l).

Lemma count_overlap_loop (graph : list nat) (lookup : nat → option (nat * Attribute))
    (overlap : Attribute → bool) (n0 : nat) :
  foldl (λ count vertex,
           match lookup vertex with
           | Some indexpair => if overlap indexpair.2 then S count else count
           | None => count
           end) n0 graph
  = n0 + length (overlap_locals graph lookup overlap).
Proof.
  revert n0. induction graph as [|v g IH]; intros n0; [simpl; lia|].
  unfold overlap_locals. csimpl. fold (overlap_locals g lookup overlap).
  destruct (lookup v) as [[l a]|]; simpl; [destruct (overlap a); simpl|];
    rewrite IH; simpl; lia.
Qed.

Lemma fill_overlap_loop (lookup : nat → option (nat * Attribute))
    (aggregates : list nat) (overlap : Attribute → bool) (total : nat)
    (graph : list nat) :
  ∀ filled : list OverlapVertex,
    length filled + length (overlap_locals graph lookup overlap) ≤ total →
    Forall (λ l, l < length aggregates) (overlap_locals graph lookup overlap) →
    for_each
      (λ (st : list (option OverlapVertex) * nat) vertex,
         match lookup vertex with
         | Some indexpair =>
             if overlap indexpair.2
             then _ ← aggregates !! indexpair.1;
                  _ ← st.1 !! st.2;
                  Some (<[st.2 := Some (mkOverlapVertex indexpair.1 indexpair.1)]> st.1,
                        S st.2)
             else Some st
         | None => Some st
         end)
      ((Some <$> filled) ++ replicate (total - length filled) None, length filled) graph
    = Some ((Some <$> (filled ++ ((λ l, mkOverlapVertex l l)
                                    <$> overlap_locals graph lookup overlap)))
              ++ replicate (total - length filled
                            - length (overlap_locals graph lookup overlap)) None,
            length filled + length (overlap_locals graph lookup overlap)).
Proof.
  induction graph as [|v g IH]; intros filled Hlen Hbound.
  - simpl. by rewrite app_nil_r, Nat.sub_0_r, Nat.add_0_r.
  - unfold overlap_locals in Hlen, Hbound |- *. csimpl in *.
    fold (overlap_locals g lookup overlap) in *.
    destruct (lookup v) as [[l a]|]; simpl in *; [destruct (overlap a); simpl in *|].
    + apply Forall_cons in Hbound as [Hl Hbound].
      destruct (lookup_lt_is_Some_2 aggregates l Hl) as [ag ->]. simpl.
      assert (total - length filled = S (total - length (filled ++ [mkOverlapVertex l l])))
        as Hsplit by (rewrite length_app; simpl; lia).
      rewrite Hsplit. simpl.
      rewrite lookup_app_r by (by rewrite length_fmap).
      rewrite length_fmap, Nat.sub_diag. simpl.
      rewrite insert_app_r_alt by (by rewrite length_fmap).
      rewrite length_fmap, Nat.sub_diag. simpl.
      specialize (IH (filled ++ [mkOverlapVertex l l])).
      rewrite length_app in IH. simpl in IH.
      replace (S (length filled)) with (length filled + 1) by lia.
      rewrite (cons_middle (Some (mkOverlapVertex l l))), app_assoc.
      replace ((Some <$> filled) ++ [Some (mkOverlapVertex l l)])
        with (Some <$> (filled ++ [mkOverlapVertex l l])) by (by rewrite fmap_app).
      rewrite length_app. simpl.
      rewrite IH by (done || lia).
      do 2 f_equal; [by rewrite <- app_assoc|lia].
    + by apply IH.
    + by apply IH.
Qed.

Lemma StronglySorted_lookup {A : Type} (R : A → A → Prop) (l : list A) (i j : nat)
    (x y : A) :
  StronglySorted R l → l !! i = Some x → l !! j = Some y → i < j → R x y.
Proof.
  intros Hsorted. revert i j. induction Hsorted as [|a l Hsorted IH Hall];
    intros i j Hi Hj Hij; [done|].
  destruct j as [|j]; [lia|]. simpl in Hj. destruct i as [|i].
  - injection Hi as <-. rewrite Forall_forall in Hall. apply Hall.
    by eapply list_elem_of_lookup_2.
  - simpl in Hi. eapply IH; [exact Hi|exact Hj|lia].
Qed.

Lemma buildOverlapVertices_Some (graph : list nat) (pinfo : Comm)
    (aggregates : list nat) (overlap : Attribute → bool) :
  Forall (λ l, l < length aggregates) (overlap_locals graph (globalLookup pinfo) overlap) →
  buildOverlapVertices std_sort globalLookup graph pinfo aggregates overlap
  = Some (if decide (length (overlap_locals graph (globalLookup pinfo) overlap) = 0)
          then [None]
          else Some <$> std_sort (λ v1 v2, bool_decide (aggregate_at aggregates v1
                                                        < aggregate_at aggregates v2))
                          ((λ l, mkOverlapVertex l l)
                             <$> overlap_locals graph (globalLookup pinfo) overlap),
          length (overlap_locals graph (globalLookup pinfo) overlap)).
Proof.
  intros Hbound. unfold buildOverlapVertices.
  rewrite count_overlap_loop. simpl.
  destruct (decide (length (overlap_locals graph (globalLookup pinfo) overlap) = 0)) as [Hz|Hnz].
  - by rewrite Hz.
  - pose proof (fill_overlap_loop (globalLookup pinfo) aggregates overlap
                  (length (overlap_locals graph (globalLookup pinfo) overlap)) graph []) as Hfill.
    simpl in Hfill. rewrite Nat.sub_0_r in Hfill.
    rewrite Hfill by (done || lia). simpl.
    rewrite Nat.sub_diag. simpl. rewrite app_nil_r.
    rewrite take_ge by (by rewrite !length_fmap).
    rewrite drop_ge by (by rewrite !length_fmap).
    rewrite (mapM_fmap_Some id Some) by done. simpl.
    by rewrite app_nil_r.
Qed.

(** X17 ([Detail::buildOverlapVertices]).  When the local index of every
    overlap vertex is inside the aggregates map, the function returns the
    number of graph vertices whose index pair exists and has an attribute of
    the overlap set.  With no such vertex the array is one element that was
    never assigned.  Otherwise the array holds exactly one entry per overlap
    vertex (its aggregate pointer and its vertex both the local index), in
    non-decreasing order of aggregate; and when no aggregate number exceeds
    [ISOLATED], the entries of isolated vertices are at the end. *)
Theorem buildOverlapVertices_sorted (graph : list nat) (pinfo : Comm)
    (aggregates : list nat) (overlap : Attribute → bool) :
  Forall (λ l, l < length aggregates) (overlap_locals graph (globalLookup pinfo) overlap) →
  ∃ array count,
    buildOverlapVertices std_sort globalLookup graph pinfo aggregates overlap = Some (array, count) ∧
    count = length (overlap_locals graph (globalLookup pinfo) overlap) ∧
    (count = 0 → array = [None]) ∧
    (count ≠ 0 →
       ∃ sorted,
         array = Some <$> sorted ∧
         sorted ≡ₚ (λ l, mkOverlapVertex l l) <$> overlap_locals graph (globalLookup pinfo) overlap ∧
         StronglySorted (λ v1 v2, aggregate_at aggregates v1 ≤ aggregate_at aggregates v2)
           sorted ∧
         (Forall (λ a, a ≤ ISOLATED) aggregates →
          ∀ i j v1 v2,
            sorted !! i = Some v1 → sorted !! j = Some v2 → i ≤ j →
            aggregate_at aggregates v1 = ISOLATED →
            aggregate_at aggregates v2 = ISOLATED)).
Proof.
  intros Hbound. eexists _, _. split; [by apply buildOverlapVertices_Some|].
  split; [done|]. split; [intros Hz; by rewrite decide_True by done|].
  intros Hnz. rewrite decide_False by done.
  destruct (std_sort_sorts (aggregate_at aggregates)
              ((λ l, mkOverlapVertex l l) <$> overlap_locals graph (globalLookup pinfo) overlap))
    as [Hperm Hsorted].
  eexists. split; [done|]. split; [exact Hperm|]. split; [exact Hsorted|].
  intros Hmax i j v1 v2 Hi Hj Hij Hiso.
  destruct (decide (i = j)) as [->|Hne]; [by simplify_eq|].
  pose proof (StronglySorted_lookup _ _ i j v1 v2 Hsorted Hi Hj ltac:(lia)) as Hle.
  simpl in Hle.
  assert (aggregate_at aggregates v2 ≤ ISOLATED) as Hup.
  { unfold aggregate_at. destruct (aggregates !! ov_aggregate v2) as [a|] eqn:Ha;
      simpl; [|lia].
    rewrite Forall_forall in Hmax. apply Hmax. by eapply list_elem_of_lookup_2. }
  lia.
Qed.

Lemma resetVisited_loop (aggregates : list nat) (graph : list nat) :
  ∀ visited : list bool,
    Forall (λ v, v < length aggregates ∧ v < length visited) graph →
    Forall (λ v, aggregates !! v ≠ Some UNAGGREGATED) graph →
    ∃ visited',
      resetVisited UNAGGREGATED graph aggregates visited = Some visited' ∧
      length visited' = length visited ∧
      (∀ v a, v ∈ graph → aggregates !! v = Some a →
              visited' !! v = Some (bool_decide (a = ISOLATED))) ∧
      (∀ v, v ∉ graph → visited' !! v = visited !! v).
Proof.
  unfold resetVisited.
  induction graph as [|v g IH]; intros visited Hbound Hagg.
  - exists visited. split; [done|]. split; [done|]. split; [|done].
    intros v a Hin. by apply elem_of_nil in Hin.
  - apply Forall_cons in Hbound as [[Hv1 Hv2] Hbound].
    apply Forall_cons in Hagg as [Hv Hagg].
    destruct (lookup_lt_is_Some_2 aggregates v Hv1) as [a Ha].
    destruct (lookup_lt_is_Some_2 visited v Hv2) as [old Hold].
    simpl. rewrite Ha. simpl.
    rewrite decide_True by (intros ->; by apply Hv).
    rewrite Hold. simpl.
    destruct (IH (<[v := bool_decide (a = ISOLATED)]> visited))
      as (visited' & Hrun & Hlen & Hset & Hframe).
    { eapply Forall_impl; [exact Hbound|]. intros w [? ?].
      by rewrite length_insert. }
    { exact Hagg. }
    exists visited'. split; [exact Hrun|].
    split; [by rewrite Hlen, length_insert|]. split.
    + intros w b Hin Hb. destruct (decide (w ∈ g)) as [Hg|Hg]; [by apply Hset|].
      apply elem_of_cons in Hin as [->|Hin]; [|done].
      rewrite Hframe by done. rewrite list_lookup_insert_eq by done.
      by simplify_eq.
    + intros w Hw. apply not_elem_of_cons in Hw as [Hne Hw].
      rewrite Hframe by done. by rewrite list_lookup_insert_ne.
Qed.

Lemma resetVisited_unaggregated (aggregates : list nat) (graph : list nat) :
  ∀ visited : list bool,
    Exists (λ v, aggregates !! v = Some UNAGGREGATED) graph →
    resetVisited UNAGGREGATED graph aggregates visited = None.
Proof.
  unfold resetVisited.
  induction graph as [|v g IH]; intros visited Hex; [by apply Exists_nil in Hex|].
  simpl. destruct (aggregates !! v) as [a|] eqn:Ha; [|done]. simpl.
  destruct (decide (a ≠ UNAGGREGATED)) as [Hne|Heq]; [|done].
  destruct (visited !! v) as [old|]; [|done]. simpl.
  apply IH. apply Exists_cons in Hex as [Hex|Hex]; [|done].
  by simplify_eq.
Qed.

(** X18 ([Detail::buildCoarseSparseMatrix], the overload for
    [SequentialInformation]).  For a graph whose vertices index the
    aggregates map and the visited map: if no vertex is [UNAGGREGATED], the
    pattern is what [examine] builds from the visited map in which every
    graph vertex is flagged exactly when its aggregate is [ISOLATED], and
    every other flag is as the caller left it; a vertex listed twice makes no
    difference.  If some vertex is [UNAGGREGATED] the assertion fails and no
    pattern is built. *)
Theorem buildCoarseSparseMatrix_sequential_visited (fineGraph : list nat)
    (visitedMap : list bool) (pinfo : SequentialInformation) (aggregates : list nat) :
  Forall (λ v, v < length aggregates ∧ v < length visitedMap) fineGraph →
  (Forall (λ v, aggregates !! v ≠ Some UNAGGREGATED) fineGraph →
   ∃ visited,
     buildCoarseSparseMatrix_sequential UNAGGREGATED examine_sequential
       fineGraph visitedMap pinfo aggregates
     = Some (examine_sequential fineGraph visited pinfo aggregates) ∧
     length visited = length visitedMap ∧
     (∀ v a, v ∈ fineGraph → aggregates !! v = Some a →
             visited !! v = Some (bool_decide (a = ISOLATED))) ∧
     (∀ v, v ∉ fineGraph → visited !! v = visitedMap !! v)) ∧
  (Exists (λ v, aggregates !! v = Some UNAGGREGATED) fineGraph →
   buildCoarseSparseMatrix_sequential UNAGGREGATED examine_sequential
     fineGraph visitedMap pinfo aggregates = None).
Proof.
  intros Hbound. unfold buildCoarseSparseMatrix_sequential. split.
  - intros Hagg.
    destruct (resetVisited_loop aggregates fineGraph visitedMap Hbound Hagg)
      as (visited & Hrun & Hrest).
    exists visited. rewrite Hrun. by split.
  - intros Hex. by rewrite resetVisited_unaggregated.
Qed.

(** X19 ([Detail::buildCoarseSparseMatrix], the general overload).  Under
    the same conditions, and with the local index of every overlap vertex
    inside the aggregates map, [examine] receives the reset visited flags and
    the overlap vertices as a range of exactly [overlapCount] assigned
    entries, a permutation of the overlap vertices in non-decreasing order of
    aggregate: the element allocated when there is no overlap vertex is never
    part of the range. *)
Theorem buildCoarseSparseMatrix_overlap_range (fineGraph : list nat)
    (visitedMap : list bool) (pinfo : Comm) (aggregates : list nat)
    (overlap : Attribute → bool) :
  Forall (λ v, v < length aggregates ∧ v < length visitedMap) fineGraph →
  Forall (λ v, aggregates !! v ≠ Some UNAGGREGATED) fineGraph →
  Forall (λ l, l < length aggregates)
    (overlap_locals fineGraph (globalLookup pinfo) overlap) →
  ∃ visited sorted,
    buildCoarseSparseMatrix UNAGGREGATED std_sort globalLookup examine_overlapping
      fineGraph visitedMap pinfo aggregates overlap
    = Some (examine_overlapping fineGraph visited pinfo aggregates overlap
              (Some <$> sorted)) ∧
    (∀ v a, v ∈ fineGraph → aggregates !! v = Some a →
            visited !! v = Some (bool_decide (a = ISOLATED))) ∧
    (∀ v, v ∉ fineGraph → visited !! v = visitedMap !! v) ∧
    sorted ≡ₚ (λ l, mkOverlapVertex l l)
                <$> overlap_locals fineGraph (globalLookup pinfo) overlap ∧
    StronglySorted (λ v1 v2, aggregate_at aggregates v1 ≤ aggregate_at aggregates v2)
      sorted.
Proof.
  intros Hbound Hagg Hlocals. unfold buildCoarseSparseMatrix.
  rewrite buildOverlapVertices_Some by done. simpl.
  destruct (resetVisited_loop aggregates fineGraph visitedMap Hbound Hagg)
    as (visited & -> & _ & Hset & Hframe). simpl.
  destruct (std_sort_sorts (aggregate_at aggregates)
              ((λ l, mkOverlapVertex l l)
                 <$> overlap_locals fineGraph (globalLookup pinfo) overlap))
    as [Hperm Hsorted].
  destruct (decide (length (overlap_locals fineGraph (globalLookup pinfo) overlap) = 0))
    as [Hz|Hnz].
  - exists visited, []. rewrite Hz. simpl.
    apply nil_length_inv in Hz. rewrite Hz. simpl.
    split; [done|]. split; [done|]. split; [done|]. split; [done|]. constructor.
  - eexists visited, _. rewrite take_ge.
    + split; [done|]. split; [done|]. split; [done|]. split; [exact Hperm|exact Hsorted].
    + rewrite length_fmap. by rewrite Hperm, length_fmap.
Qed.

End coarse_pattern_properties.

End BlackoilAmg.

(** ** Concrete runs: integer scalars, 2x2 blocks, one process *)

(** *** Inputs *)

Definition traits_2x2 : BlockTraits := {| ROWS := 2; COLS := 2 |}.
#[local] Existing Instance traits_2x2.

(** A 2x2 block matrix with three stored blocks. *)
Definition fine_2x2 : BCRSMatrix (Block Z) :=
  mkBCRS 2 2 [ [ (0, [[1; 2]; [3; 4]]%Z); (1, [[0; 1]; [1; 0]]%Z) ];
               [ (1, [[5; 6]; [7; 8]]%Z) ] ].

Definition store_2x2 : gmap loc (BCRSMatrix (Block Z)) := {[ 1%positive := fine_2x2 ]}.

Definition adapter_2x2 : Operator SequentialInformation := MatrixAdapter 1%positive.

Definition param_demo : CPRParameter Z := mkCPRParameter true true false false 0%Z 10%Z.

(** A two-level method that records the defects it is given and returns
    the defect as correction. *)
Definition recording_apply (method : list (list (VBlock Z))) (v d : list (VBlock Z))
  : list (list (VBlock Z)) * list (VBlock Z) :=
  (d :: method, d).

Definition vectors_demo : gmap loc (list (VBlock Z)) :=
  {[ 1%positive := [[1; 2]; [3; 4]]%Z; 2%positive := [[0; 0]; [0; 0]]%Z ]}.

Definition amg_demo :=
  mkBlackoilAmg (F := Z) param_demo (2%positive, adapter_2x2) tt
    (Policy_new tt SeqInfo false) (CoarseSolverPolicy_new param_demo tt tt)
    ([] : list (list (VBlock Z))).

(** No aggregation is requested in the direct runs. *)
Definition no_aggregation (_ : BCRSMatrix (Block Z)) (_ : unit) (_ : SequentialInformation)
  : Aggregation (Comm := SequentialInformation) :=
  mkAggregation [] 0 SeqInfo [].

Definition policy_direct : Policy (F := Z) := Policy_new tt SeqInfo false.

(** Three fine vertices: 0 and 1 form aggregate 0, vertex 2 is isolated
    ([ISOLATED] is 99 in these runs). *)
Definition fine_3x3 : BCRSMatrix (Block Z) :=
  mkBCRS 3 3 [ [ (0, [[1; 2]; [3; 4]]%Z); (1, [[10; 0]; [0; 0]]%Z) ];
               [ (0, [[100; 0]; [0; 0]]%Z); (1, [[1000; 0]; [0; 0]]%Z) ];
               [ (2, [[5; 0]; [0; 5]]%Z) ] ].

Definition aggregates_3 : list nat := [0; 0; 99].

Definition coarse_1x1 : BCRSMatrix Z := mkBCRS 1 1 [ [ (0, 77%Z) ] ].

Definition policy_aggregated : Policy (F := Z) :=
  mkPolicy (Some 1%Z) (Some aggregates_3) tt SeqInfo (Some SeqInfo) (Some coarse_1x1)
           true [10%Z] [0%Z] None.

Definition policy_direct_ready : Policy (F := Z) :=
  mkPolicy (Some 1%Z) None tt SeqInfo (Some SeqInfo) None false [3%Z; 4%Z] [0%Z; 0%Z] None.

(** Three fine vertices whose blocks are zero outside the pressure row. *)
Definition fine_pressure_only : BCRSMatrix (Block Z) :=
  mkBCRS 2 2 [ [ (0, [[1; 2]; [0; 0]]%Z); (1, [[3; 0]; [0; 0]]%Z) ];
               [ (1, [[5; 6]; [0; 0]]%Z) ] ].

(** The aggregation of the three-vertex matrix into one aggregate. *)
Definition aggregation_3 (_ : BCRSMatrix (Block Z)) (_ : unit) (_ : SequentialInformation)
  : Aggregation (Comm := SequentialInformation) :=
  mkAggregation aggregates_3 1 SeqInfo [[0]].

(** A transfer policy in aggregation mode whose coarse buffers hold the
    values of an earlier use. *)
Definition policy_aggregation_used : Policy (F := Z) :=
  mkPolicy None None tt SeqInfo None None true [5%Z] [6%Z] None.

(** Solvers that leave the vectors as they are and record the verbosity. *)
Definition recording_solver (_ : CoarseOperator (F := Z) (Comm := SequentialInformation))
    (_ : unit) (_ : Preconditioner (AMGType := unit) (Smoother := unit))
    (_ : Z) (_ : Z) (verbosity : Z) (x b : list Z) (_ : Z)
  : list Z * list Z * Z :=
  (x, b, verbosity).

(** Index pairs: vertex [v] has local index [v]; vertices 1 and 2 are
    copies ([true]), vertex 3 has no pair. *)
Definition lookup_demo (_ : SequentialInformation) (vertex : nat) : option (nat * bool) :=
  if decide (vertex = 3) then None else Some (vertex, bool_decide (1 ≤ vertex)).

(** A stable sort standing for [std::sort]. *)
Definition sort_demo (comp : OverlapVertex → OverlapVertex → bool)
    (l : list OverlapVertex) : list OverlapVertex :=
  merge_sort (λ v1 v2, Is_true (negb (comp v2 v1))) l.

(** A pattern builder that records what it is handed. *)
Definition examine_demo (fineGraph : list nat) (visited : list bool)
    (_ : SequentialInformation) (aggregates : list nat) : list (list nat) :=
  [ (λ b : bool, if b then 1 else 0) <$> visited ].

Definition examine_overlap_demo (fineGraph : list nat) (visited : list bool)
    (_ : SequentialInformation) (aggregates : list nat) (_ : bool → bool)
    (overlapVertices : list (option OverlapVertex)) : list (list nat) :=
  [ (λ b : bool, if b then 1 else 0) <$> visited;
    (λ v, from_option ov_vertex 0 v) <$> overlapVertices ].


(** *** Runs *)

Lemma scaleMatrixQuasiImpes_rows_witness :
  ∃ σ' matrix op' m' B',
    scaleMatrixQuasiImpes store_2x2 adapter_2x2 SeqInfo 0 = Some (σ', (matrix, op')) ∧
    σ' !! matrix = Some m' ∧
    stored m' 0 0 = Some (0, B') ∧
    B' !! 0 = Some [4; 6]%Z ∧ B' !! 1 = Some [3; 4]%Z.
Proof.
  destruct (scaleMatrixQuasiImpes_rows store_2x2 adapter_2x2 SeqInfo 0 fine_2x2)
    as (σ' & matrix & op' & m' & Hrun & _ & Hm' & Hblocks);
    [reflexivity | repeat constructor | simpl; lia |].
  destruct (Hblocks 0 0 0 [[1; 2]; [3; 4]]%Z eq_refl)
    as (B' & rp & Hst & Hrp & Hp & _ & Hi).
  injection Hrp as <-. exists σ', matrix, op', m', B'.
  split; [exact Hrun|]. split; [exact Hm'|]. split; [exact Hst|].
  split; [exact Hp|]. rewrite (Hi 1); [reflexivity|lia].
Defined.

Lemma scaleMatrixQuasiImpes_pattern_witness :
  ∃ σ' matrix op' m',
    scaleMatrixQuasiImpes store_2x2 adapter_2x2 SeqInfo 0 = Some (σ', (matrix, op')) ∧
    σ' !! matrix = Some m' ∧
    pattern m' = [[0; 1]; [1]] ∧ mat_N m' = 2 ∧ mat_M m' = 2.
Proof.
  destruct (scaleMatrixQuasiImpes_pattern store_2x2 adapter_2x2 SeqInfo 0 fine_2x2)
    as (σ' & matrix & op' & m' & Hrun & _ & Hm' & Hpat & HN & HM & _);
    [reflexivity | repeat constructor | simpl; lia |].
  exists σ', matrix, op', m'.
  split; [exact Hrun|]. split; [exact Hm'|]. split; [exact Hpat|].
  split; [exact HN|exact HM].
Defined.

(** C6 as stated does not hold: the second application changes the
    block at (0, 0) from [[4; 6]; [3; 4]] to [[7; 10]; [3; 4]]. *)
Lemma scaleMatrixQuasiImpes_twice_counterexample :
  ∃ σ1 r1 m1 σ2 r2 m2,
    scaleMatrixQuasiImpes store_2x2 adapter_2x2 SeqInfo 0 = Some (σ1, r1) ∧
    σ1 !! r1.1 = Some m1 ∧
    scaleMatrixQuasiImpes σ1 r1.2 SeqInfo 0 = Some (σ2, r2) ∧
    σ2 !! r2.1 = Some m2 ∧
    stored m1 0 0 = Some (0, [[4; 6]; [3; 4]]%Z) ∧
    stored m2 0 0 = Some (0, [[7; 10]; [3; 4]]%Z) ∧
    m2 ≠ m1.
Proof.
  eexists _, _, _, _, _, _.
  split; [vm_compute; reflexivity|].
  split; [vm_compute; reflexivity|].
  split; [vm_compute; reflexivity|].
  split; [vm_compute; reflexivity|].
  split; [reflexivity|]. split; [reflexivity|]. discriminate.
Qed.

Lemma scaleMatrixQuasiImpes_twice_witness :
  ∃ σ1 r1 σ2 r2 m2 B2,
    scaleMatrixQuasiImpes store_2x2 adapter_2x2 SeqInfo 0 = Some (σ1, r1) ∧
    scaleMatrixQuasiImpes σ1 r1.2 SeqInfo 0 = Some (σ2, r2) ∧
    σ2 !! r2.1 = Some m2 ∧
    pattern m2 = [[0; 1]; [1]] ∧ mat_N m2 = 2 ∧ mat_M m2 = 2 ∧
    stored m2 0 0 = Some (0, B2) ∧
    B2 !! 0 = Some [7; 10]%Z ∧ B2 !! 1 = Some [3; 4]%Z.
Proof.
  destruct (scaleMatrixQuasiImpes_twice store_2x2 adapter_2x2 SeqInfo 0 fine_2x2)
    as (σ1 & r1 & σ2 & r2 & m2 & Hrun1 & Hrun2 & Hm2 & Hpat & HN & HM & Hblocks);
    [reflexivity | repeat constructor | simpl; lia |].
  destruct (Hblocks 0 0 0 [[1; 2]; [3; 4]]%Z eq_refl) as (B2 & rp & Hst & Hrp & Hp & Hi).
  injection Hrp as <-. exists σ1, r1, σ2, r2, m2, B2.
  split; [exact Hrun1|]. split; [exact Hrun2|]. split; [exact Hm2|].
  split; [exact Hpat|]. split; [exact HN|]. split; [exact HM|].
  split; [exact Hst|]. split; [exact Hp|]. rewrite (Hi 1); [reflexivity|lia].
Defined.

Lemma BlackoilAmg_new_frame_witness :
  ∃ σ' amg,
    BlackoilAmg_new (F := Z) (Criterion := unit) (SmootherArgs := unit) 0
      (λ _ _ _, tt) (λ _ _ _ _ csp pre post, ((pre, post), csp))
      store_2x2 param_demo adapter_2x2 tt tt SeqInfo
    = Some (σ', amg) ∧
    σ' !! 1%positive = Some fine_2x2 ∧
    store_2x2 !! (scaledMatrixOperator_ amg).1 = None.
Proof.
  destruct (BlackoilAmg_new_frame (F := Z) (Criterion := unit) (SmootherArgs := unit) 0
              (λ _ _ _, tt) (λ _ _ _ _ csp pre post, ((pre, post), csp))
              store_2x2 param_demo adapter_2x2 tt tt SeqInfo fine_2x2)
    as [_ (σ' & amg & Hrun & Hfresh & _ & Hfine & _)];
    [reflexivity | repeat constructor | simpl; lia |].
  exists σ', amg. split; [exact Hrun|]. split; [exact Hfine|exact Hfresh].
Defined.

(** C7 as stated does not hold when the correction and the defect are the
    same vector: [apply(d, d)] leaves the correction where the defect
    [[1; 2]; [3; 4]] was. *)
Lemma BlackoilAmg_apply_defect_counterexample :
  ∃ μ' amg',
    vectors_demo !! 1%positive = Some [[1; 2]; [3; 4]]%Z ∧
    BlackoilAmg_apply 0 recording_apply vectors_demo amg_demo 1%positive 1%positive
    = Some (μ', amg') ∧
    μ' !! 1%positive = Some [[3; 2]; [7; 4]]%Z ∧
    μ' !! 1%positive ≠ vectors_demo !! 1%positive.
Proof.
  eexists _, _.
  split; [reflexivity|]. split; [vm_compute; reflexivity|].
  split; [reflexivity|discriminate].
Qed.

Lemma BlackoilAmg_apply_defect_witness :
  ∃ μ' amg',
    BlackoilAmg_apply 0 recording_apply vectors_demo amg_demo 2%positive 1%positive
    = Some (μ', amg') ∧
    μ' !! 1%positive = Some [[1; 2]; [3; 4]]%Z ∧
    μ' !! 2%positive = Some [[3; 2]; [7; 4]]%Z ∧
    twoLevelMethod_ amg' = [ [[3; 2]; [7; 4]]%Z ].
Proof.
  destruct (BlackoilAmg_apply_defect 0 recording_apply vectors_demo amg_demo
              2%positive 1%positive [[1; 2]; [3; 4]]%Z [[0; 0]; [0; 0]]%Z)
    as (μ' & amg' & scaledD & Hrun & Hd & _ & Hscale & Hrecv & _);
    [reflexivity | reflexivity | discriminate | repeat constructor | simpl; lia |].
  exists μ', amg'. split; [exact Hrun|]. split; [exact Hd|].
  vm_compute in Hscale. injection Hscale as <-.
  injection Hrecv as Hmethod Hv. split; [exact Hv|exact Hmethod].
Defined.

Lemma createCoarseLevelSystem_direct_witness :
  ∃ pol',
    createCoarseLevelSystem 0 99 no_aggregation policy_direct fine_2x2 = Some pol' ∧
    coarseLevelMatrix_ pol' = Some (mkBCRS 2 2 [ [(0, 1%Z); (1, 0%Z)]; [(1, 5%Z)] ]) ∧
    length (rhs_ pol') = 2 ∧ length (lhs_ pol') = 2.
Proof.
  destruct (createCoarseLevelSystem_direct 0 99 no_aggregation policy_direct fine_2x2)
    as (pol' & coarse & Hrun & Hcoarse & _ & _ & _ & _ & _ & _ & Hrhs & Hlhs);
    [reflexivity | split; [reflexivity | repeat constructor] | repeat constructor
    | simpl; lia | simpl; lia |].
  exists pol'. split; [exact Hrun|].
  vm_compute in Hrun. injection Hrun as <-.
  split; [reflexivity|]. split; [exact Hrhs|exact Hlhs].
Defined.

Lemma calculateCoarseEntries_sums_witness :
  ∃ coarse',
    calculateCoarseEntries 0 99 aggregates_3 coarse_1x1 fine_3x3 = Some coarse' ∧
    mat_get coarse' 0 0 = Some 1111%Z.
Proof.
  destruct (calculateCoarseEntries_sums 0 99 aggregates_3 coarse_1x1 fine_3x3)
    as (coarse' & Hrun & _ & _ & _ & Hsum & _);
    [ simpl; lia | simpl; lia | repeat constructor | simpl; lia
    | unfold entries; simpl; repeat (apply Forall_cons_2 || apply Forall_nil_2);
      simpl; lia
    | unfold entries; simpl; repeat (apply Forall_cons_2 || apply Forall_nil_2);
      simpl; intros i j [= <-] [= <-] Hi Hj;
      first [ by destruct Hi | by destruct Hj | by exists 77%Z ]
    | ].
  exists coarse'. split; [exact Hrun|].
  rewrite (Hsum 0 0); [reflexivity | by exists 77%Z].
Defined.



(** C4 as stated does not hold in aggregation mode: the two fine
    vertices of aggregate 0 carry the constant 1, the restricted value is 2,
    and prolongation returns 2 at both of them. *)
Lemma restrict_prolong_aggregated_counterexample :
  ∃ pol1 pol2 fine',
    moveToCoarseLevel 0 99 policy_aggregated [[1; 0]; [1; 0]]%Z = Some pol1 ∧
    rhs_ pol1 = [2%Z] ∧
    moveToFineLevel 0 99 (with_buffers pol1 (rhs_ pol1) (rhs_ pol1)) [[0; 0]; [0; 0]]%Z
    = Some (pol2, fine') ∧
    fine' = [[2; 0]; [2; 0]]%Z ∧
    fine' !! 0 ≫= (.!! 0) ≠ Some 1%Z.
Proof.
  eexists _, _, _.
  split; [reflexivity|]. split; [reflexivity|]. split; [reflexivity|].
  split; [reflexivity|discriminate].
Qed.

Lemma restrict_prolong_constant_witness :
  (∃ pol1 fine',
     moveToCoarseLevel 0 99 policy_direct_ready [[7; 1]; [7; 2]]%Z = Some pol1 ∧
     moveToFineLevel 0 99 (with_buffers pol1 (rhs_ pol1) (rhs_ pol1)) [[0; 0]; [0; 0]]%Z
     = Some (with_buffers pol1 (rhs_ pol1) (rhs_ pol1), fine') ∧
     fine' !! 0 ≫= (.!! 0) = Some 7%Z ∧ fine' !! 1 ≫= (.!! 0) = Some 7%Z) ∧
  (∃ pol1 pol2 acc,
     moveToCoarseLevel 0 99 policy_aggregated [[7; 1]; [7; 2]; [7; 3]]%Z = Some pol1 ∧
     moveToFineLevel 0 99 (with_buffers pol1 (rhs_ pol1) (rhs_ pol1))
                     [[0; 0]; [0; 0]; [0; 0]]%Z
     = Some (pol2, acc) ∧
     acc !! 0 ≫= (.!! 0) = Some 14%Z).
Proof.
  split.
  - destruct (restrict_prolong_constant 0 99 policy_direct_ready
                [[7; 1]; [7; 2]]%Z 7%Z) as [Hdirect _]; [repeat constructor|].
    destruct (Hdirect eq_refl) as (pol1 & fine' & Hrun1 & Hrun2 & Hc); [simpl; lia|].
    exists pol1, fine'. split; [exact Hrun1|]. split; [exact Hrun2|].
    split; apply Hc; simpl; lia.
  - destruct (restrict_prolong_constant 0 99 policy_aggregated
                [[7; 1]; [7; 2]; [7; 3]]%Z 7%Z) as [_ Hagg]; [repeat constructor|].
    destruct (Hagg eq_refl 1%Z aggregates_3 eq_refl eq_refl)
      as (pol1 & pol2 & acc & Hrun1 & Hrun2 & Hc);
      [ simpl; lia
      | intros v I Hv; do 3 (destruct v as [|v]; [intros [= <-]; simpl; lia|]);
        simpl in Hv; lia
      | ].
    exists pol1, pol2, acc. split; [exact Hrun1|]. split; [exact Hrun2|].
    destruct (Hc 0 0) as [Hval _]; [simpl; lia | reflexivity | lia |].
    exact Hval.
Defined.

Lemma sort_demo_sorts (key : OverlapVertex → nat) (l : list OverlapVertex) :
  sort_demo (λ v1 v2, bool_decide (key v1 < key v2)) l ≡ₚ l ∧
  StronglySorted (λ v1 v2, key v1 ≤ key v2)
    (sort_demo (λ v1 v2, bool_decide (key v1 < key v2)) l).
Proof.
  unfold sort_demo. split; [apply merge_sort_Permutation|].
  set (R := λ v1 v2 : OverlapVertex, Is_true (negb (bool_decide (key v2 < key v1)))).
  assert (Transitive R) as Htrans.
  { intros a b c. unfold R. rewrite !negb_True, !bool_decide_spec. lia. }
  assert (Total R) as Htotal.
  { intros a b. unfold R. rewrite !negb_True, !bool_decide_spec. lia. }
  pose proof (StronglySorted_merge_sort R l) as Hsorted.
  induction Hsorted as [|a l' Hsorted IH Hall]; constructor; [exact IH|].
  eapply Forall_impl; [exact Hall|]. intros b. unfold R.
  rewrite negb_True, bool_decide_spec. lia.
Qed.

Lemma scaleMatrix_columnwise_witness :
  ∃ m' B',
    scaleMatrix 0 fine_2x2 = Some m' ∧
    stored m' 0 0 = Some (0, B') ∧
    column 1 B' = Some [6; 4]%Z.
Proof.
  destruct (scaleMatrix_columnwise 0 fine_2x2) as (m' & Hrun & Hcols);
    [repeat constructor | simpl; lia |].
  destruct (Hcols 0 0 0 [[1; 2]; [3; 4]]%Z 1 eq_refl)
    as (B' & col & col' & Hst & Hcol & Hscale & Hcol'); [simpl; lia|].
  injection Hcol as <-. vm_compute in Hscale. injection Hscale as <-.
  exists m', B'. split; [exact Hrun|]. split; [exact Hst|exact Hcol'].
Defined.

Lemma scaling_fixed_point_witness :
  scaleMatrix 0 fine_pressure_only = Some fine_pressure_only ∧
  scaleVectorQuasiImpes 0 [[5; 0]; [7; 0]]%Z = Some [[5; 0]; [7; 0]]%Z.
Proof.
  destruct (scaling_fixed_point 0 fine_pressure_only [[5; 0]; [7; 0]]%Z)
    as [Hmatrix Hvector]; [intros x; simpl; lia | simpl; lia |].
  split.
  - apply Hmatrix; repeat constructor.
  - apply Hvector; repeat constructor.
Defined.

Lemma moveToCoarseLevel_aggregated_witness :
  ∃ rhs,
    moveToCoarseLevel 0 99 policy_aggregated [[1; 2]; [3; 4]; [5; 6]]%Z
    = Some (with_buffers policy_aggregated [0%Z] rhs) ∧
    rhs !! 0 = Some 4%Z.
Proof.
  destruct (moveToCoarseLevel_aggregated 0 99 policy_aggregated
              [[1; 2]; [3; 4]; [5; 6]]%Z aggregates_3)
    as (rhs & Hrun & _ & Hsum & _);
    [ reflexivity | reflexivity | simpl; lia | repeat constructor
    | intros v I Hv; do 3 (destruct v as [|v]; [intros [= <-]; simpl; lia|]);
      simpl in Hv; lia
    | ].
  exists rhs. split; [exact Hrun|]. rewrite (Hsum 0); [reflexivity|simpl; lia].
Defined.

Lemma moveToCoarseLevel_direct_witness :
  ∃ rhs,
    moveToCoarseLevel 0 99 policy_direct_ready [[7; 1]]%Z
    = Some (with_buffers policy_direct_ready [0; 0]%Z rhs) ∧
    rhs !! 0 = Some 7%Z ∧ rhs !! 1 = Some 0%Z.
Proof.
  destruct (moveToCoarseLevel_direct 0 99 policy_direct_ready [[7; 1]]%Z)
    as (rhs & Hrun & _ & Hcopy & Hrest);
    [reflexivity | simpl; lia | repeat constructor |].
  exists rhs. split; [exact Hrun|]. split.
  - exact (Hcopy 0 [7; 1]%Z eq_refl).
  - apply Hrest; simpl; lia.
Defined.

Lemma moveToCoarseLevel_reset_witness :
  moveToCoarseLevel 0 99 (with_buffers policy_direct_ready [8; 9]%Z [5; 6]%Z) [[7; 1]]%Z
  = Some (with_buffers policy_direct_ready [0; 0]%Z [7; 0]%Z) ∧
  moveToCoarseLevel 0 99 (with_buffers policy_direct_ready [0; 0]%Z [7; 0]%Z) [[7; 1]]%Z
  = Some (with_buffers policy_direct_ready [0; 0]%Z [7; 0]%Z).
Proof.
  apply (moveToCoarseLevel_reset 0 99 policy_direct_ready
           (with_buffers policy_direct_ready [0; 0]%Z [7; 0]%Z) [[7; 1]]%Z
           [8; 9]%Z [5; 6]%Z); reflexivity.
Defined.

Lemma direct_restrict_prolong_witness :
  ∃ pol1 out,
    moveToCoarseLevel 0 99 policy_direct_ready [[7; 1]; [8; 2]]%Z = Some pol1 ∧
    moveToFineLevel 0 99 (with_buffers pol1 (rhs_ pol1) (rhs_ pol1)) [[0; 5]]%Z
    = Some (with_buffers pol1 (rhs_ pol1) (rhs_ pol1), out) ∧
    out !! 0 = Some [7; 5]%Z.
Proof.
  destruct (direct_restrict_prolong 0 99 policy_direct_ready
              [[7; 1]; [8; 2]]%Z [[0; 5]]%Z)
    as (pol1 & out & Hrun1 & Hrun2 & _ & Hpoint & _);
    [ reflexivity | simpl; lia | repeat constructor | simpl; lia
    | repeat constructor | ].
  exists pol1, out. split; [exact Hrun1|]. split; [exact Hrun2|].
  destruct (Hpoint 0 [7; 1]%Z [0; 5]%Z eq_refl eq_refl) as (y & Hy & Hout).
  injection Hy as <-. exact Hout.
Defined.

Lemma direct_prolong_restrict_witness :
  ∃ fine' pol',
    moveToFineLevel 0 99 policy_direct_ready [[5; 9]; [6; 8]]%Z
    = Some (policy_direct_ready, fine') ∧
    moveToCoarseLevel 0 99 policy_direct_ready fine' = Some pol' ∧
    rhs_ pol' = [3; 4]%Z.
Proof.
  apply (direct_prolong_restrict 0 99 policy_direct_ready [[5; 9]; [6; 8]]%Z);
    [reflexivity | reflexivity | reflexivity | repeat constructor].
Defined.

Lemma moveToFineLevel_direct_overwrites_witness :
  ∃ fine',
    moveToFineLevel 0 99 policy_direct_ready [[5; 9]]%Z
    = Some (policy_direct_ready, fine') ∧
    moveToFineLevel 0 99 policy_direct_ready [[-2; 9]]%Z
    = Some (policy_direct_ready, fine') ∧
    moveToFineLevel 0 99 policy_direct_ready fine' = Some (policy_direct_ready, fine').
Proof.
  destruct (moveToFineLevel_direct_overwrites 0 99 policy_direct_ready [[5; 9]]%Z)
    as (fine' & Hrun & Hother & Hagain);
    [reflexivity | simpl; lia | repeat constructor |].
  exists fine'. split; [exact Hrun|]. split; [|exact Hagain].
  apply Hother. apply Forall2_cons_2; [|apply Forall2_nil_2].
  split; [reflexivity|]. intros i Hi. destruct i as [|i]; [lia|reflexivity].
Defined.

Lemma moveToFineLevel_aggregated_twice_witness :
  ∃ fine1 fine2,
    moveToFineLevel 0 99 policy_aggregated [[1; 2]; [3; 4]; [5; 6]]%Z
    = Some (policy_aggregated, fine1) ∧
    moveToFineLevel 0 99 policy_aggregated fine1 = Some (policy_aggregated, fine2) ∧
    fine2 !! 0 = Some [21; 2]%Z ∧ fine2 !! 2 = Some [5; 6]%Z.
Proof.
  destruct (moveToFineLevel_aggregated_twice 0 99 policy_aggregated
              [[1; 2]; [3; 4]; [5; 6]]%Z aggregates_3)
    as (fine1 & fine2 & Hrun1 & Hrun2 & Hpoint);
    [ intros x; simpl; lia | reflexivity | reflexivity | reflexivity | reflexivity
    | simpl; lia | repeat constructor
    | intros v I Hv; do 3 (destruct v as [|v]; [intros [= <-]; simpl; lia|]);
      simpl in Hv; lia
    | ].
  exists fine1, fine2. split; [exact Hrun1|]. split; [exact Hrun2|]. split.
  - destruct (Hpoint 0 [1; 2]%Z eq_refl) as (I & HI & Hcase).
    injection HI as <-. simpl in Hcase.
    destruct Hcase as (x & y & Hx & Hy & _ & Hfine2).
    injection Hx as <-. injection Hy as <-. exact Hfine2.
  - destruct (Hpoint 2 [5; 6]%Z eq_refl) as (I & HI & Hcase).
    injection HI as <-. simpl in Hcase. by destruct Hcase as [_ Hfine2].
Defined.

Lemma calculateCoarseEntries_rerun_witness :
  calculateCoarseEntries 0 99 aggregates_3 (mkBCRS 1 1 [ [ (0, 5%Z) ] ]) fine_3x3
  = Some (mkBCRS 1 1 [ [ (0, 1111%Z) ] ]) ∧
  calculateCoarseEntries 0 99 aggregates_3 (mkBCRS 1 1 [ [ (0, 1111%Z) ] ]) fine_3x3
  = Some (mkBCRS 1 1 [ [ (0, 1111%Z) ] ]).
Proof.
  destruct (calculateCoarseEntries_rerun 0 99 aggregates_3 coarse_1x1
              (mkBCRS 1 1 [ [ (0, 5%Z) ] ]) (mkBCRS 1 1 [ [ (0, 1111%Z) ] ]) fine_3x3)
    as (Hother & _ & _ & _ & Hagain);
    [reflexivity | reflexivity | reflexivity | reflexivity |].
  split; [exact Hother|exact Hagain].
Defined.

Lemma createCoarseLevelSystem_aggregated_witness :
  ∃ pol' coarse,
    createCoarseLevelSystem 0 99 aggregation_3 policy_aggregation_used fine_3x3
    = Some pol' ∧
    coarseLevelMatrix_ pol' = Some coarse ∧
    aggregatesMap_ pol' = Some aggregates_3 ∧
    length (lhs_ pol') = 1 ∧ lhs_ pol' !! 0 = Some 5%Z ∧
    mat_get coarse 0 0 = Some 1111%Z.
Proof.
  destruct (createCoarseLevelSystem_aggregated 0 99 aggregation_3
              policy_aggregation_used fine_3x3
              (mkAggregation aggregates_3 1 SeqInfo [[0]]))
    as (pol' & coarse & Hrun & Hcoarse & _ & Hagg & _ & _ & _ & _ & _
        & Hlen & _ & Hlhs & _ & Hsum);
    [ reflexivity | reflexivity | simpl; lia | simpl; lia | repeat constructor
    | simpl; lia
    | unfold entries; simpl; repeat (apply Forall_cons_2 || apply Forall_nil_2);
      simpl; lia
    | unfold entries; simpl; repeat (apply Forall_cons_2 || apply Forall_nil_2);
      simpl; intros i j [= <-] [= <-] Hi Hj;
      first [ by destruct Hi | by destruct Hj
            | exists [0]; split; [reflexivity|apply list_elem_of_here] ]
    | ].
  exists pol', coarse. split; [exact Hrun|]. split; [exact Hcoarse|].
  split; [exact Hagg|]. split; [exact Hlen|].
  split; [rewrite (Hlhs 0); [reflexivity | simpl; lia | simpl; lia]|].
  rewrite (Hsum 0 0 [0]); [reflexivity | reflexivity | apply list_elem_of_here].
Defined.

Lemma createCoarseLevelSolver_after_direct_witness :
  ∃ pol' csp' inv,
    createCoarseLevelSystem 0 99 no_aggregation policy_direct fine_2x2 = Some pol' ∧
    createCoarseLevelSolver (F := Z) (AMGType := unit) (Smoother := unit)
      (λ _ _ _ _, tt) (λ _ _ _, tt) (CoarseSolverPolicy_new param_demo tt tt) pol'
    = Some (csp', inv) ∧
    cop_matrix (op_ inv) = mkBCRS 2 2 [ [(0, 1%Z); (1, 0%Z)]; [(1, 5%Z)] ] ∧
    coarseOperator_ csp' = Some (op_ inv) ∧
    is_Some (AMGInverseOperator_apply (λ _, tt) recording_solver recording_solver
               inv [0; 0]%Z [1; 2]%Z 0%Z 0%Z).
Proof.
  destruct (createCoarseLevelSolver_after_direct (F := Z) 0 99 no_aggregation
              (AMGType := unit) (Smoother := unit)
              (λ _ _ _ _, tt) (λ _ _ _, tt) (λ _, tt) recording_solver recording_solver
              policy_direct (CoarseSolverPolicy_new param_demo tt tt) fine_2x2
              [0; 0]%Z [1; 2]%Z 0%Z 0%Z)
    as [_ (pol' & coarse & csp' & inv & Hrun & Hcoarse & Hsolver & Hop & _ & _
           & Hcsp & _ & _ & Happly)];
    [ reflexivity | split; [reflexivity | repeat constructor] | repeat constructor
    | simpl; lia | simpl; lia | ].
  exists pol', csp', inv. split; [exact Hrun|]. split; [exact Hsolver|].
  split; [|split; [exact Hcsp|exact Happly]].
  rewrite Hop. simpl. vm_compute in Hrun. injection Hrun as <-.
  by injection Hcoarse as <-.
Defined.

Lemma BlackoilAmg_apply_twice_witness :
  ∃ μ1 amg1 μ2 amg2,
    BlackoilAmg_apply 0 recording_apply vectors_demo amg_demo 2%positive 1%positive
    = Some (μ1, amg1) ∧
    BlackoilAmg_apply 0 recording_apply μ1 amg1 2%positive 1%positive = Some (μ2, amg2) ∧
    twoLevelMethod_ amg2 = [ [[3; 2]; [7; 4]]%Z; [[3; 2]; [7; 4]]%Z ] ∧
    μ2 !! 1%positive = Some [[1; 2]; [3; 4]]%Z.
Proof.
  destruct (BlackoilAmg_apply_twice 0 recording_apply vectors_demo amg_demo
              2%positive 1%positive [[1; 2]; [3; 4]]%Z [[0; 0]; [0; 0]]%Z)
    as (scaledD & Hscale & Hrun1 & Hrun2 & _ & Hd);
    [reflexivity | reflexivity | discriminate | repeat constructor | simpl; lia |].
  vm_compute in Hscale. injection Hscale as <-.
  eexists _, _, _, _. split; [exact Hrun1|]. split; [exact Hrun2|].
  split; [reflexivity|exact Hd].
Defined.

Lemma BlackoilAmg_apply_aliased_witness :
  ∃ μ' amg',
    BlackoilAmg_apply 0 recording_apply vectors_demo amg_demo 1%positive 1%positive
    = Some (μ', amg') ∧
    twoLevelMethod_ amg' = [ [[3; 2]; [7; 4]]%Z ] ∧
    μ' !! 1%positive = Some [[3; 2]; [7; 4]]%Z.
Proof.
  destruct (BlackoilAmg_apply_aliased 0 recording_apply vectors_demo amg_demo
              1%positive [[1; 2]; [3; 4]]%Z)
    as (scaledD & μ' & amg' & Hscale & Hrun & Hrecv & _);
    [reflexivity | repeat constructor | simpl; lia |].
  vm_compute in Hscale. injection Hscale as <-.
  injection Hrecv as Hmethod Hd.
  exists μ', amg'. split; [exact Hrun|]. split; [exact Hmethod|exact Hd].
Defined.


Lemma buildOverlapVertices_sorted_witness :
  ∃ array sorted,
    buildOverlapVertices sort_demo lookup_demo [0; 1; 2; 3] SeqInfo [0; 99; 0] id
    = Some (array, 2) ∧
    array = Some <$> sorted ∧
    sorted !! 1 = Some (mkOverlapVertex 1 1).
Proof.
  destruct (buildOverlapVertices_sorted 99 sort_demo lookup_demo sort_demo_sorts
              [0; 1; 2; 3] SeqInfo [0; 99; 0] id)
    as (array & count & Hrun & Hcount & _ & Hsorted);
    [repeat constructor|].
  vm_compute in Hcount. subst count.
  destruct Hsorted as (sorted & Harray & _ & _ & _); [lia|].
  exists array, sorted. split; [exact Hrun|]. split; [exact Harray|].
  vm_compute in Hrun. injection Hrun as Hrun. rewrite Harray in Hrun.
  destruct sorted as [|v1 [|v2 [|v3 sorted]]]; try discriminate Hrun.
  by injection Hrun as <- <-.
Defined.

Lemma buildCoarseSparseMatrix_sequential_visited_witness :
  buildCoarseSparseMatrix_sequential 99 7 examine_demo [0; 1; 1] [true; false; true]
    SeqInfo [0; 99; 0]
  = Some [[0; 1; 1]] ∧
  buildCoarseSparseMatrix_sequential 99 7 examine_demo [0; 1] [true; false; true]
    SeqInfo [0; 7; 0]
  = None.
Proof.
  split.
  - destruct (buildCoarseSparseMatrix_sequential_visited 99 7 examine_demo
                [0; 1; 1] [true; false; true] SeqInfo [0; 99; 0]) as [Hreset _];
      [repeat constructor|].
    destruct Hreset as (visited & Hrun & _); [repeat constructor; discriminate|].
    rewrite Hrun. vm_compute in Hrun. vm_compute. symmetry. exact Hrun.
  - destruct (buildCoarseSparseMatrix_sequential_visited 99 7 examine_demo
                [0; 1] [true; false; true] SeqInfo [0; 7; 0]) as [_ Hfail];
      [repeat constructor|].
    apply Hfail. apply Exists_cons_tl, Exists_cons_hd. reflexivity.
Defined.

Lemma buildCoarseSparseMatrix_overlap_range_witness :
  buildCoarseSparseMatrix 99 7 sort_demo lookup_demo examine_overlap_demo
    [2; 1; 3] [true; false; true; true] SeqInfo [0; 99; 5; 0] id
  = Some [[1; 1; 0; 0]; [2; 1]].
Proof.
  destruct (buildCoarseSparseMatrix_overlap_range 99 7 sort_demo lookup_demo
              examine_overlap_demo sort_demo_sorts
              [2; 1; 3] [true; false; true; true] SeqInfo [0; 99; 5; 0] id)
    as (visited & sorted & Hrun & _);
    [ repeat constructor | repeat constructor; discriminate | repeat constructor | ].
  rewrite Hrun. vm_compute in Hrun. vm_compute. symmetry. exact Hrun.
Defined.
